(** * ai-study-assistant: the chat backend, embedded in Rocq

    A shallow embedding of [backend/storage.py], [backend/graphrag_processor.py],
    the endpoints of [backend/main.py] and the document converter
    [backend/convert_to_txt.py], followed by the properties of the topic
    store, of the query pipeline, of the engine life cycle, of the streaming
    adapter, of the endpoints and of the converter.

    Conventions of the embedding.
    - A Python [str] is a list of Unicode code points ([list N]); [len], slicing
      and iteration then count code points, as in Python.  [lit] reads a
      literal of the source (UTF-8 in this file) into that representation;
      [text_of] does so for a computed string.
    - A Python function that can raise returns an [outcome]; [try_except]
      is the [try: ... except Exception] statement, which catches the
      instances of [Exception] and lets a [CancelledError], a
      [GeneratorExit] and the like go on to the caller.
    - The chat-history directory is a finite map from file names to file
      contents; [os.path.join(CHAT_HISTORY_DIR, name)] is the entry [name].
    - External libraries (pandas, lancedb, graphrag, the indexing command, the
      document loaders, the Unicode tables behind [str.isalnum] and
      [str.lower]) are parameters.
    - The input of the converter is a tree of directories and files; its
      output directory is a finite map from file names to texts.
    - [log.info] progress lines are left out; the [log.warning] and
      [log.error] lines of the initialisation path are kept as records. *)

From Stdlib Require Import String Ascii NArith ZArith List Lia Bool Sorted.
From stdpp Require Import base option list gmap pretty.

Local Open Scope N_scope.

(** ** Python text *)

Module py.

Abbreviation str := (list N).

(** Decoding of the UTF-8 bytes of a literal into code points. *)
Fixpoint utf8_decode (bs : list N) : list N :=
  match bs with
  | [] => []
  | b :: r =>
    if b <? 128 then b :: utf8_decode r
    else if b <? 224 then
      match r with
      | b1 :: r1 => ((b - 192) * 64 + (b1 - 128)) :: utf8_decode r1
      | _ => []
      end
    else if b <? 240 then
      match r with
      | b1 :: b2 :: r2 =>
        ((b - 224) * 4096 + (b1 - 128) * 64 + (b2 - 128)) :: utf8_decode r2
      | _ => []
      end
    else
      match r with
      | b1 :: b2 :: b3 :: r3 =>
        ((b - 240) * 262144 + (b1 - 128) * 4096 + (b2 - 128) * 64 + (b3 - 128))
          :: utf8_decode r3
      | _ => []
      end
  end.

Definition text_of (s : string) : str :=
  utf8_decode (map N_of_ascii (list_ascii_of_string s)).

(** A literal of the source, decoded once and for all where it is written. *)
Notation "'lit' s" :=
  (ltac:(let v := eval vm_compute in (text_of s) in exact v))
  (at level 10, s at level 9, only parsing).

(** [bool(s)] for a string: non-empty. *)
Definition truthy (s : str) : bool :=
  match s with [] => false | _ :: _ => true end.

(** [bool(x)] for an [Optional[str]]: neither [None] nor empty. *)
Definition truthy_opt (o : option str) : bool :=
  match o with Some s => truthy s | None => false end.

Fixpoint startswith (s p : str) {struct p} : bool :=
  match p, s with
  | [], _ => true
  | c :: p', d :: s' => (c =? d) && startswith s' p'
  | _ :: _, [] => false
  end.

Definition endswith (s p : str) : bool := startswith (rev s) (rev p).

(** [s[:n]] *)
Definition slice_to (n : nat) (s : str) : str := take n s.

(** [s[-n:]] for a list: the last [n] elements, the whole list when shorter. *)
Definition slice_last {A} (n : nat) (l : list A) : list A :=
  drop (length l - n) l.

(** [s[a:-b]] *)
Definition slice_between (a b : nat) (s : str) : str :=
  take (length s - b - a) (drop a s).

(** What the interpreter's Unicode tables decide: [str.isalnum] and
    [str.isspace] on the code points above ASCII, and [str.lower].  No code
    point is both alphanumeric and white space. *)
Class Unicode := {
  unicode_isalnum : N -> bool;
  unicode_isspace : N -> bool;
  str_lower : str -> str;
  alnum_not_space : forall c, unicode_isalnum c = true -> unicode_isspace c = false;
}.

Definition ascii_isalnum (c : N) : bool :=
  ((48 <=? c) && (c <=? 57)) || ((65 <=? c) && (c <=? 90))
  || ((97 <=? c) && (c <=? 122)).

Definition ascii_isspace (c : N) : bool :=
  ((9 <=? c) && (c <=? 13)) || ((28 <=? c) && (c <=? 32)).

Definition isalnum `{Unicode} (c : N) : bool :=
  if c <? 128 then ascii_isalnum c else unicode_isalnum c.

Definition isspace `{Unicode} (c : N) : bool :=
  if c <? 128 then ascii_isspace c else unicode_isspace c.

Fixpoint lstrip `{Unicode} (s : str) : str :=
  match s with
  | [] => []
  | c :: s' => if isspace c then lstrip s' else s
  end.

(** [s.rstrip()] *)
Definition rstrip `{Unicode} (s : str) : str := rev (lstrip (rev s)).

(** Comparison of strings, code point by code point ([<=] on [str]). *)
Fixpoint str_le (a b : str) : bool :=
  match a, b with
  | [], _ => true
  | _ :: _, [] => false
  | x :: a', y :: b' => if x <? y then true else if y <? x then false else str_le a' b'
  end.

(** Exceptions: the classes the code tells apart, and the rest by name. *)
Inductive exn_class :=
| FileNotFoundError
| PermissionError
| OSError
| ValueError
| ImportError
| RuntimeError
| TypeError
| OtherError (name : string).

Definition class_name (c : exn_class) : str :=
  match c with
  | FileNotFoundError => lit "FileNotFoundError"
  | PermissionError => lit "PermissionError"
  | OSError => lit "OSError"
  | ValueError => lit "ValueError"
  | ImportError => lit "ImportError"
  | RuntimeError => lit "RuntimeError"
  | TypeError => lit "TypeError"
  | OtherError name => text_of name
  end.

Record exn := Exn { exn_type : exn_class; exn_text : str }.

Inductive outcome (A : Type) :=
| Ok (a : A)
| Raise (e : exn).
Arguments Ok {A} a.
Arguments Raise {A} e.

Definition bind {A B} (m : outcome A) (k : A -> outcome B) : outcome B :=
  match m with Ok a => k a | Raise e => Raise e end.

(** The built-in classes that derive from [BaseException] and not from
    [Exception]: what an [except Exception] clause lets through.  An [await]
    raises [CancelledError] when its task is cancelled, and a [yield] raises
    [GeneratorExit] when its generator is closed. *)
Definition BASE_ONLY : list string :=
  ["CancelledError"; "GeneratorExit"; "KeyboardInterrupt"; "SystemExit"]%string.

(** [isinstance(e, Exception)] *)
Definition is_Exception (e : exn) : bool :=
  match exn_type e with
  | OtherError name => negb (existsb (String.eqb name) BASE_ONLY)
  | _ => true
  end.

(** [try: body except Exception as e: handler e]: an exception that is no
    [Exception] goes on to the caller. *)
Definition try_except {A} (body : outcome A) (handler : exn -> outcome A) : outcome A :=
  match body with
  | Ok a => Ok a
  | Raise e => if is_Exception e then handler e else Raise e
  end.

Definition raises {A} (m : outcome A) : bool :=
  match m with Ok _ => false | Raise _ => true end.

End py.
Export py.

(** ** models.py *)

Module models.

Record Message := { role : str; content : str }.

Record Topic := { id : str; name : str; messages : list Message }.

Record TopicInfo := { info_id : str; info_name : str; preview : str }.

Global Instance Message_eq_dec : EqDecision Message.
Proof. solve_decision. Defined.

Global Instance Topic_eq_dec : EqDecision Topic.
Proof. solve_decision. Defined.

End models.
Export models.

(** ** storage.py *)

Module storage.

(** A file of the chat-history directory: the JSON dump of a topic, or
    anything [json.load] or the [Topic] constructor rejects. *)
Inductive file :=
| JsonTopic (t : Topic)
| Corrupt.

(** The chat-history directory.  Entries in [readonly] can be read but
    neither rewritten nor removed: [open(path, 'w')] and [os.remove(path)]
    raise [PermissionError] on them. *)
Record filesystem := {
  chat_dir : gmap (list N) file;
  readonly : gset (list N);
}.

Definition os_path_exists (path : str) (fs : filesystem) : bool :=
  bool_decide (is_Some (chat_dir fs !! path)).

Definition os_listdir (fs : filesystem) : list str :=
  (map_to_list (chat_dir fs)).*1.

(** [with open(path, 'w') as f: json.dump(topic.model_dump(), f)] *)
Definition write_json (path : str) (t : Topic) (fs : filesystem)
  : outcome unit * filesystem :=
  if bool_decide (path ∈ readonly fs)
  then (Raise (Exn PermissionError path), fs)
  else (Ok tt, {| chat_dir := <[path := JsonTopic t]> (chat_dir fs);
                  readonly := readonly fs |}).

(** [with open(path, "r") as f: data = json.load(f)], then the [Topic] constructor *)
Definition read_json (path : str) (fs : filesystem) : outcome Topic :=
  match chat_dir fs !! path with
  | Some (JsonTopic t) => Ok t
  | Some Corrupt => Raise (Exn ValueError (lit "JSONDecodeError"))
  | None => Raise (Exn FileNotFoundError path)
  end.

Definition os_remove (path : str) (fs : filesystem) : outcome unit * filesystem :=
  if bool_decide (path ∈ readonly fs)
  then (Raise (Exn PermissionError path), fs)
  else match chat_dir fs !! path with
       | Some _ => (Ok tt, {| chat_dir := delete path (chat_dir fs);
                              readonly := readonly fs |})
       | None => (Raise (Exn FileNotFoundError path), fs)
       end.

Section with_unicode.
Context `{Unicode}.

Definition safe_char (c : N) : bool :=
  isalnum c || (c =? 45) || (c =? 95).

Definition _get_topic_path (topic_id : str) : outcome str :=
  let safe_topic_id := rstrip (List.filter safe_char topic_id) in
  if negb (truthy safe_topic_id)
  then Raise (Exn ValueError (lit "Invalid topic ID provided"))
  else Ok (safe_topic_id ++ lit ".json").

(** Every handler of [save_topic] logs and returns. *)
Definition save_topic (topic : Topic) (fs : filesystem) : filesystem :=
  match _get_topic_path (id topic) with
  | Ok filepath =>
    match write_json filepath topic fs with
    | (Ok _, fs') => fs'
    | (Raise _, fs') => fs'
    end
  | Raise _ => fs
  end.

(** Every handler of [load_topic] logs and returns [None]. *)
Definition load_topic (topic_id : str) (fs : filesystem) : option Topic :=
  match _get_topic_path topic_id with
  | Ok filepath =>
    if negb (os_path_exists filepath fs) then None
    else match read_json filepath fs with
         | Ok topic => Some topic
         | Raise _ => None
         end
  | Raise _ => None
  end.

(** [next((m.content for m in messages if m.role == r), None)] *)
Fixpoint first_content (r : str) (ms : list Message) : option str :=
  match ms with
  | [] => None
  | m :: ms' => if bool_decide (role m = r) then Some (content m)
                else first_content r ms'
  end.

(** [s[:50] + ("..." if len(s) > 50 else "")] *)
Definition shorten (s : str) : str :=
  slice_to 50 s ++ (if (50 <? length s)%nat then lit "..." else []).

(** The preview of [list_topics] (lines 96 to 107). *)
Definition preview_of (topic : Topic) : str :=
  let preview := lit "New Topic" in
  let first_user_msg := first_content (lit "user") (messages topic) in
  if truthy_opt first_user_msg then shorten (default [] first_user_msg)
  else match messages topic with
       | [] => preview
       | m0 :: _ =>
         let first_assistant_msg := first_content (lit "assistant") (messages topic) in
         if truthy_opt first_assistant_msg
         then shorten (default [] first_assistant_msg)
         else if truthy (content m0) then slice_to 50 (content m0) ++ lit "..."
              else preview
       end.

(** [topics.sort(key=...)]: a stable sort, here by insertion from the right. *)
Fixpoint insert_by {A} (key : A -> str) (x : A) (l : list A) : list A :=
  match l with
  | [] => [x]
  | y :: l' => if str_le (key x) (key y) then x :: y :: l'
               else y :: insert_by key x l'
  end.

Definition sort_by {A} (key : A -> str) (l : list A) : list A :=
  foldr (insert_by key) [] l.

(** One turn of the loop of [list_topics] over a directory entry. *)
Definition list_entry (fs : filesystem) (filename : str) : list TopicInfo :=
  if endswith filename (lit ".json") && negb (endswith filename (lit ".corrupted"))
  then let topic_id := take (length filename - 5) filename in
       match load_topic topic_id fs with
       | Some topic =>
         [ {| info_id := id topic; info_name := name topic;
              preview := preview_of topic |} ]
       | None => []
       end
  else [].

(** The directory always exists (the module creates it when it loads) and
    listing it does not fail, so the guards of lines 85 and 114 stay idle. *)
Definition list_topics (fs : filesystem) : list TopicInfo :=
  let topics := concat (map (list_entry fs) (os_listdir fs)) in
  sort_by (fun t => str_lower (info_name t)) topics.

(** [uuid4] is the string [str(uuid.uuid4())] drawn for this call. *)
Definition create_new_topic (uuid4 : str) (name : option str) (fs : filesystem)
  : Topic * filesystem :=
  let topic_id := uuid4 in
  let name :=
    match name with
    | Some n => if truthy n then n
                else lit "Topic " ++ text_of (pretty (length (list_topics fs) + 1)%nat)
    | None => lit "Topic " ++ text_of (pretty (length (list_topics fs) + 1)%nat)
    end in
  let topic := {| id := topic_id; name := name; messages := [] |} in
  (topic, save_topic topic fs).

Definition add_message_to_topic (topic_id : str) (message : Message)
  (fs : filesystem) : option Topic * filesystem :=
  match load_topic topic_id fs with
  | Some topic =>
    let topic := {| id := id topic; name := name topic;
                    messages := messages topic ++ [message] |} in
    (Some topic, save_topic topic fs)
  | None => (None, fs)
  end.

Definition delete_topic_file (topic_id : str) (fs : filesystem)
  : bool * filesystem :=
  match _get_topic_path topic_id with
  | Raise _ => (false, fs)
  | Ok filepath =>
    if negb (os_path_exists filepath fs) then (true, fs)
    else match os_remove filepath fs with
         | (Ok _, fs') =>
           if negb (os_path_exists filepath fs') then (true, fs')
           else (false, fs')
         | (Raise _, fs') => (false, fs')
         end
  end.

End with_unicode.

End storage.

(** ** graphrag_processor.py *)

Module graphrag_processor.

Inductive level := INFO | WARNING | ERROR.

(** A record of the log: the level and the text (of an f-string, the parts
    that are strings of the model). *)
Definition log_record : Type := level * list N.

(** What [LocalSearch.search] hands back: [None], or an object with or
    without a [response] attribute. *)
Inductive SearchResult :=
| PyNone
| PyObject (response : option (list N)).

(** The engine handle: opaque but for its [search] method. *)
Record LocalSearch := { search : list N -> outcome SearchResult }.

(** The module globals. *)
Record globals := {
  _model_manager : bool;
  _search_engine : option LocalSearch;
  _initialized : bool;
}.

(** The state of a fresh process. *)
Definition module_start : globals :=
  {| _model_manager := false; _search_engine := None; _initialized := false |}.

Definition COMMUNITY_REPORT_TABLE := lit "community_reports.parquet".
Definition ENTITY_TABLE := lit "entities.parquet".
Definition RELATIONSHIP_TABLE := lit "relationships.parquet".
Definition TEXT_UNIT_TABLE := lit "text_units.parquet".
Definition COMMUNITY_TABLE := lit "communities.parquet".
Definition COVARIATE_TABLE := lit "claims.parquet".
Definition LANCEDB_COLLECTION_NAME := lit "default-entity-description".

(** [settings.yaml] and the import guard, read once when the module loads. *)
Record settings := {
  GRAPHRAG_AVAILABLE : bool;
  llm_api_key : option (list N);
  LLM_MODEL : option (list N);
  LLM_API_BASE : option (list N);
  embedding_api_key : option (list N);
  EMBEDDING_MODEL : option (list N);
  EMBEDDING_API_BASE : option (list N);
}.

(** The world outside the module, as one initialisation sees it: the
    environment variables, the files of [OUTPUT_DIR], and what each call into
    pandas, lancedb and graphrag does. *)
Record host := {
  environ : gmap (list N) (list N);
  output_dir : gset (list N);
  read_parquet : list N -> outcome unit;
  read_indexer : list N -> outcome unit;
  vector_store_connect : outcome unit;
  lancedb_table_names : outcome (list (list N));
  get_or_create_chat_model : option (list N) -> outcome unit;
  get_or_create_embedding_model : option (list N) -> outcome unit;
  encoding_for_model : outcome unit;
  get_encoding : outcome unit;
  new_mixed_context : outcome unit;
  new_local_search : outcome LocalSearch;
}.

Definition os_getenv (env : gmap (list N) (list N)) (name : str) : option str :=
  env !! name.

(** [str(x)] for an [Optional[str]] *)
Definition py_str (o : option str) : str :=
  match o with Some s => s | None => lit "None" end.

Definition _resolve_api_key (env : gmap (list N) (list N)) (key_value : option str)
  : option str * list log_record :=
  let direct :=
    let direct_env_key := os_getenv env (py_str key_value) in
    if truthy_opt direct_env_key
    then (direct_env_key,
          [(WARNING, lit "Found API key in environment variable '" ++ py_str key_value
                     ++ lit "' directly. Consider using ${...} syntax.")])
    else (key_value, []) in
  match key_value with
  | Some kv =>
    if truthy kv && startswith kv (lit "${") && endswith kv (lit "}")
    then let var_name := slice_between 2 1 kv in
         let resolved_key := os_getenv env var_name in
         (resolved_key,
          if negb (truthy_opt resolved_key)
          then [(ERROR, lit "API Key environment variable '" ++ var_name
                        ++ lit "' not found!")]
          else [])
    else direct
  | None => direct
  end.

(** *** The body of [initialize_rag]

    Statements of the [try] block run in a small monad: the globals and the
    log are threaded, and a statement goes on, returns from the function, or
    raises. *)
Record run := { vars : globals; logged : list log_record }.

Inductive flow (A : Type) :=
| Next (a : A)
| Return_
| Raised (e : exn).
Arguments Next {A} a.
Arguments Return_ {A}.
Arguments Raised {A} e.

Definition M (A : Type) : Type := run -> flow A * run.

Definition mret {A} (a : A) : M A := fun r => (Next a, r).

Definition mbind {A B} (m : M A) (k : A -> M B) : M B :=
  fun r => match m r with
           | (Next a, r') => k a r'
           | (Return_, r') => (Return_, r')
           | (Raised e, r') => (Raised e, r')
           end.

Declare Scope init_scope.
Delimit Scope init_scope with init.
Notation "x <- m ;; k" := (mbind m (fun x => k))
  (at level 100, m at next level, right associativity) : init_scope.
Notation "m ;; k" := (mbind m (fun _ => k))
  (at level 100, right associativity) : init_scope.

Definition log (l : level) (text : str) : M unit :=
  fun r => (Next tt, {| vars := vars r; logged := logged r ++ [(l, text)] |}).

Definition logs (records : list log_record) : M unit :=
  fun r => (Next tt, {| vars := vars r; logged := logged r ++ records |}).

Definition return_ {A} : M A := fun r => (Return_, r).

(** A call into a library: goes on or raises. *)
Definition call {A} (o : outcome A) : M A :=
  fun r => match o with Ok a => (Next a, r) | Raise e => (Raised e, r) end.

Definition assign (f : globals -> globals) : M unit :=
  fun r => (Next tt, {| vars := f (vars r); logged := logged r |}).

Definition when (b : bool) (m : M unit) : M unit := if b then m else mret tt.

Definition set_model_manager (g : globals) : globals :=
  {| _model_manager := true; _search_engine := _search_engine g;
     _initialized := _initialized g |}.

Definition set_search_engine (e : LocalSearch) (g : globals) : globals :=
  {| _model_manager := _model_manager g; _search_engine := Some e;
     _initialized := _initialized g |}.

Definition set_initialized (b : bool) (g : globals) : globals :=
  {| _model_manager := _model_manager g; _search_engine := _search_engine g;
     _initialized := b |}.

Definition required_files : list str :=
  [ENTITY_TABLE; RELATIONSHIP_TABLE; TEXT_UNIT_TABLE; COMMUNITY_TABLE;
   COMMUNITY_REPORT_TABLE].

Definition exists_in_output (h : host) (f : str) : bool :=
  bool_decide (f ∈ output_dir h).

(** Lines 126 to 258: the [try] block. *)
Definition init_try (cfg : settings) (h : host) : M unit :=
  (let missing_files :=
     List.filter (fun f => negb (exists_in_output h f)) required_files in
   match missing_files with
   | _ :: _ =>
     log ERROR (lit "Missing required GraphRAG output files") ;;
     log ERROR (lit "Please run the 'graphrag index' command first.") ;;
     return_
   | [] => mret tt
   end ;;
   call (read_parquet h ENTITY_TABLE) ;;
   call (read_parquet h COMMUNITY_TABLE) ;;
   call (read_parquet h RELATIONSHIP_TABLE) ;;
   call (read_parquet h COMMUNITY_REPORT_TABLE) ;;
   call (read_parquet h TEXT_UNIT_TABLE) ;;
   (if exists_in_output h COVARIATE_TABLE
    then call (read_parquet h COVARIATE_TABLE) ;;
         call (read_indexer h (lit "covariates"))
    else log WARNING (lit "Covariate file 'claims.parquet' not found. Skipping claims loading.")) ;;
   call (read_indexer h (lit "entities")) ;;
   call (read_indexer h (lit "relationships")) ;;
   call (read_indexer h (lit "reports")) ;;
   call (read_indexer h (lit "text_units")) ;;
   call (vector_store_connect h) ;;
   match lancedb_table_names h with
   | Ok table_names =>
     if negb (bool_decide (LANCEDB_COLLECTION_NAME ∈ table_names))
     then log ERROR (lit "LanceDB collection 'default-entity-description' not found") ;;
          log ERROR (lit "Ensure indexing ran correctly and created the collection.") ;;
          return_
     else mret tt
   | Raise ldb_err =>
     log ERROR (lit "Failed to connect to or verify LanceDB collection 'default-entity-description'") ;;
     return_
   end ;;
   assign set_model_manager ;;
   let chat_api_key_val := llm_api_key cfg in
   let resolved_chat := _resolve_api_key (environ h) chat_api_key_val in
   logs (snd resolved_chat) ;;
   let resolved_chat_api_key := fst resolved_chat in
   when (negb (truthy_opt resolved_chat_api_key))
        (log WARNING (lit "Chat API Key seems unresolved.")) ;;
   (if negb (truthy_opt (LLM_MODEL cfg)) || negb (truthy_opt (LLM_API_BASE cfg))
    then log ERROR (lit "Missing Chat LLM configuration (Model or API Base).") ;;
         return_
    else mret tt) ;;
   call (get_or_create_chat_model h resolved_chat_api_key) ;;
   let embedding_api_key_val := embedding_api_key cfg in
   let resolved_embedding := _resolve_api_key (environ h) embedding_api_key_val in
   logs (snd resolved_embedding) ;;
   let resolved_embedding_api_key := fst resolved_embedding in
   when (negb (truthy_opt resolved_embedding_api_key))
        (log WARNING (lit "Embedding API Key seems unresolved.")) ;;
   (if negb (truthy_opt (EMBEDDING_MODEL cfg))
       || negb (truthy_opt (EMBEDDING_API_BASE cfg))
    then log ERROR (lit "Missing Embedding LLM configuration (Model or API Base).") ;;
         return_
    else mret tt) ;;
   call (get_or_create_embedding_model h resolved_embedding_api_key) ;;
   match encoding_for_model h with
   | Ok token_encoder => mret tt
   | Raise e =>
     log WARNING (lit "Failed to get tiktoken encoder, falling back to 'cl100k_base'.") ;;
     call (get_encoding h)
   end ;;
   call (new_mixed_context h) ;;
   engine <- call (new_local_search h) ;;
   assign (set_search_engine engine) ;;
   assign (set_initialized true))%init.

(** Lines 125 to 268: the [try] statement.  All three [except] clauses log
    the exception and clear [_initialized]. *)
Definition init_attempt (cfg : settings) (h : host) (r : run) : run :=
  match init_try cfg h r with
  | (Raised e, r') =>
    {| vars := set_initialized false (vars r');
       logged := logged r' ++ [(ERROR, lit "ERROR during GraphRAG initialization")] |}
  | (_, r') => r'
  end.

(** Lines 122 to 268: what runs under [async with _lock]. *)
Definition init_locked (cfg : settings) (h : host) (r : run) : run :=
  if _initialized (vars r) then r else init_attempt cfg h r.

Definition log_unavailable (r : run) : run :=
  {| vars := vars r;
     logged := logged r
       ++ [(ERROR, lit "GraphRAG modules not available, cannot initialize.")] |}.

(** [initialize_rag] for a caller that nobody interleaves with. *)
Definition initialize_rag (cfg : settings) (h : host) (r : run) : run :=
  if _initialized (vars r) || negb (GRAPHRAG_AVAILABLE cfg)
  then if negb (GRAPHRAG_AVAILABLE cfg) then log_unavailable r else r
  else init_locked cfg h r.

(** *** [initialize_rag] under the event loop

    Several callers run [initialize_rag] on one event loop.  A caller is at
    one of the program points below; a step moves one caller to its next
    point.  The loop of asyncio switches callers only at an [await]; the
    steps here are finer, so every schedule of the loop is a run of this
    system. *)
Inductive pc :=
| at_entry      (* line 117, before the first test of [_initialized] *)
| at_lock       (* line 121, waiting for [_lock] *)
| at_recheck    (* line 122, holding [_lock] *)
| at_try        (* line 125, holding [_lock] *)
| at_release    (* leaving [async with _lock] *)
| finished.

Global Instance pc_eq_dec : EqDecision pc.
Proof. solve_decision. Defined.

(** [started] and [completed] count the runs of the [try] block that were
    entered and those that reached line 257; the code does not keep them. *)
Record system := {
  shared : run;
  locked : bool;
  callers : list pc;
  started : nat;
  completed : nat;
}.

Definition move (i : nat) (p : pc) (s : system) : system :=
  {| shared := shared s; locked := locked s; callers := <[i := p]> (callers s);
     started := started s; completed := completed s |}.

Definition ready (s : system) : bool := _initialized (vars (shared s)).

Inductive step (cfg : settings) (i : nat) : system -> system -> Prop :=
| step_entry_return s :
    callers s !! i = Some at_entry ->
    ready s || negb (GRAPHRAG_AVAILABLE cfg) = true ->
    step cfg i s
      {| shared := if negb (GRAPHRAG_AVAILABLE cfg) then log_unavailable (shared s)
                   else shared s;
         locked := locked s; callers := <[i := finished]> (callers s);
         started := started s; completed := completed s |}
| step_entry_go s :
    callers s !! i = Some at_entry ->
    ready s || negb (GRAPHRAG_AVAILABLE cfg) = false ->
    step cfg i s (move i at_lock s)
| step_acquire s :
    callers s !! i = Some at_lock ->
    locked s = false ->
    step cfg i s
      {| shared := shared s; locked := true;
         callers := <[i := at_recheck]> (callers s);
         started := started s; completed := completed s |}
| step_recheck_return s :
    callers s !! i = Some at_recheck ->
    ready s = true ->
    step cfg i s (move i at_release s)
| step_recheck_go s :
    callers s !! i = Some at_recheck ->
    ready s = false ->
    step cfg i s (move i at_try s)
| step_try (h : host) s :
    callers s !! i = Some at_try ->
    step cfg i s
      {| shared := init_attempt cfg h (shared s); locked := locked s;
         callers := <[i := at_release]> (callers s);
         started := S (started s);
         completed := if _initialized (vars (init_attempt cfg h (shared s)))
                      then S (completed s) else completed s |}
| step_release s :
    callers s !! i = Some at_release ->
    step cfg i s
      {| shared := shared s; locked := false;
         callers := <[i := finished]> (callers s);
         started := started s; completed := completed s |}.

Definition any_step (cfg : settings) (s s' : system) : Prop :=
  exists i, step cfg i s s'.

(** [n] callers enter while the globals are [g] and the lock is free. *)
Definition boot (g : globals) (n : nat) : system :=
  {| shared := {| vars := g; logged := [] |}; locked := false;
     callers := replicate n at_entry; started := 0%nat; completed := 0%nat |}.

Definition reachable (cfg : settings) (g : globals) (n : nat) (s : system) : Prop :=
  rtc (any_step cfg) (boot g n) s.

Definition holds_lock (p : pc) : bool :=
  match p with at_recheck | at_try | at_release => true | _ => false end.

Definition holders (s : system) : nat :=
  length (List.filter holds_lock (callers s)).

Definition quiescent (s : system) : Prop :=
  Forall (fun p => p = finished) (callers s).

(** *** [query_rag] *)

Definition NOT_INITIALIZED_REPLY : str :=
  lit "知识库引擎尚未初始化，请稍后重试或检查启动日志。(Knowledge base engine not initialized. Please try again later or check startup logs.)".

Definition NO_ANSWER_REPLY : str :=
  lit "抱歉，未能从知识库中找到明确的答案。(Sorry, could not find a clear answer in the knowledge base.)".

Definition QUERY_ERROR_REPLY : str :=
  lit "查询知识库时遇到错误，请稍后再试。(Error querying the knowledge base, please try again later.) Details: ".

Definition query_rag (g : globals) (question : str)
  (chat_history : option (list Message)) : outcome str :=
  match _initialized g, _search_engine g with
  | true, Some engine =>
    try_except
      (bind (search engine question) (fun result =>
         match result with
         | PyObject (Some response) =>
           if truthy response then Ok response else Ok NO_ANSWER_REPLY
         | _ => Ok NO_ANSWER_REPLY
         end))
      (fun e => Ok (QUERY_ERROR_REPLY ++ class_name (exn_type e)))
  | _, _ => Ok NOT_INITIALIZED_REPLY
  end.

(** *** [trigger_ingestion] *)

(** The indexing command once it has run. *)
Record process := { stdout : list N; stderr : list N; returncode : Z }.

Definition is_FileNotFoundError (e : exn) : bool :=
  match exn_type e with FileNotFoundError => true | _ => false end.

(** [run_command cmd] is [create_subprocess_exec( *cmd )] followed by
    [communicate()]. *)
Definition trigger_ingestion (run_command : list (list N) -> outcome process)
  (GRAPHRAG_ROOT_DIR : str) (g : globals) : outcome unit * globals :=
  let g := {| _model_manager := _model_manager g; _search_engine := None;
              _initialized := false |} in
  let cmd := [lit "graphrag"; lit "index"; lit "--root"; GRAPHRAG_ROOT_DIR] in
  let body :=
    bind (run_command cmd) (fun proc =>
      if negb (returncode proc =? 0)%Z
      then Raise (Exn RuntimeError (lit "GraphRAG indexing failed. Check logs above."))
      else Ok tt) in
  (match body with
   | Ok _ => Ok tt
   | Raise e =>
     if is_FileNotFoundError e
     then Raise (Exn RuntimeError (lit "'graphrag' command not found."))
     else if is_Exception e
     then Raise (Exn RuntimeError (lit "Indexing trigger failed: " ++ exn_text e))
     else Raise e
   end, g).

End graphrag_processor.

(** ** main.py: the message endpoint *)

Module main.
Import storage graphrag_processor.

(** The events of the stream, before their rendering as [data: ...] lines. *)
Inductive event :=
| ev_start (topicId : list N)
| ev_chunk (content : list N)
| ev_error (content : list N)
| ev_end (topicId : list N) (history : list Message).

(** The run of the generator [stream_response]: the chat-history directory,
    the events yielded so far, the calls made to [query_rag], and the mishap
    of this run.  [mishap = Some (n, e)] makes the statement of the [try]
    block reached after [n] others raise [e]; [None] lets the block finish. *)
Record gen_state := {
  disk : filesystem;
  sent : list event;
  asked : list (list N * list Message);
  mishap : option (nat * exn);
}.

Definition G (A : Type) : Type := gen_state -> outcome A * gen_state.

Definition gret {A} (a : A) : G A := fun s => (Ok a, s).

Definition gbind {A B} (m : G A) (k : A -> G B) : G B :=
  fun s => match m s with
           | (Ok a, s') => k a s'
           | (Raise e, s') => (Raise e, s')
           end.

Declare Scope gen_scope.
Delimit Scope gen_scope with gen.
Notation "x <- m ;; k" := (gbind m (fun x => k))
  (at level 100, m at next level, right associativity) : gen_scope.
Notation "m ;; k" := (gbind m (fun _ => k))
  (at level 100, right associativity) : gen_scope.

(** [try: body except Exception as e: handler e]: an exception that is no
    [Exception] ends the generator where it was raised. *)
Definition gtry {A} (body : G A) (handler : exn -> G A) : G A :=
  fun s => match body s with
           | (Ok a, s') => (Ok a, s')
           | (Raise e, s') => if is_Exception e then handler e s' else (Raise e, s')
           end.

Definition tick : G unit :=
  fun s => match mishap s with
           | Some (O, e) =>
             (Raise e, {| disk := disk s; sent := sent s; asked := asked s;
                          mishap := None |})
           | Some (S n, e) =>
             (Ok tt, {| disk := disk s; sent := sent s; asked := asked s;
                        mishap := Some (n, e) |})
           | None => (Ok tt, s)
           end.

(** A statement of the [try] block: it raises when the mishap is due. *)
Definition stmt {A} (m : G A) : G A := gbind tick (fun _ => m).

Definition yield (e : event) : G unit :=
  fun s => (Ok tt, {| disk := disk s; sent := sent s ++ [e]; asked := asked s;
                      mishap := mishap s |}).

(** [await asyncio.sleep(0.02)] *)
Definition sleep : G unit := gret tt.

(** A call into [storage]. *)
Definition store {A} (f : filesystem -> A * filesystem) : G A :=
  fun s => let (a, fs') := f (disk s) in
           (Ok a, {| disk := fs'; sent := sent s; asked := asked s;
                     mishap := mishap s |}).

Definition await_query_rag (g : globals) (question : str)
  (chat_history : list Message) : G str :=
  fun s => (query_rag g question (Some chat_history),
            {| disk := disk s; sent := sent s;
               asked := asked s ++ [(question, chat_history)];
               mishap := mishap s |}).

(** [for x in xs: body], with the variables the body updates. *)
Fixpoint for_each {A B} (xs : list A) (body : B -> A -> G B) (acc : B) : G B :=
  match xs with
  | [] => gret acc
  | x :: xs' => gbind (body acc x) (for_each xs' body)
  end.

(** Lines 125 to 127: the body of the loop over the characters of the
    reply. *)
Definition send_char (ai_content_buffer : list N) (char : N) : G (list N) :=
  (ai_content_buffer <- stmt (gret (ai_content_buffer ++ [char])) ;;
   stmt (yield (ev_chunk [char])) ;;
   stmt sleep ;;
   gret ai_content_buffer)%gen.

Definition ERROR_REPLY : str :=
  lit "抱歉，处理您的请求时发生内部错误。(Sorry, an internal error occurred while processing your request.)".

Section with_unicode.
Context `{Unicode}.

(** [json.dumps([msg.dict() for msg in t.messages]) if t else "[]"] *)
Definition history_of (updated_topic : option Topic) : list Message :=
  match updated_topic with Some t => messages t | None => [] end.

(** Lines 111 to 138: the [try] block of [stream_response]. *)
Definition stream_try (g : globals) (topic_id : str) (topic : Topic)
  (user_message_content : str) : G unit :=
  (stmt (yield (ev_start topic_id)) ;;
   history_for_llm <- stmt (gret (slice_last 10 (messages topic))) ;;
   full_ai_reply <- stmt (await_query_rag g user_message_content history_for_llm) ;;
   ai_content_buffer <- stmt (gret []) ;;
   for_each full_ai_reply send_char ai_content_buffer ;;
   ai_message <- stmt (gret {| role := lit "assistant"; content := full_ai_reply |}) ;;
   stmt (store (add_message_to_topic topic_id ai_message)) ;;
   updated_topic <- stmt (store (fun fs => (load_topic topic_id fs, fs))) ;;
   history_json <- stmt (gret (history_of updated_topic)) ;;
   stmt (yield (ev_end topic_id history_json)))%gen.

(** Lines 140 to 157: the handler. *)
Definition stream_except (topic_id : str) (e : exn) : G unit :=
  (let error_msg := ERROR_REPLY in
   let ai_message := {| role := lit "assistant"; content := error_msg |} in
   store (add_message_to_topic topic_id ai_message) ;;
   yield (ev_error error_msg) ;;
   updated_topic <- store (fun fs => (load_topic topic_id fs, fs)) ;;
   let history_json := history_of updated_topic in
   yield (ev_end topic_id history_json))%gen.

Definition stream_response (g : globals) (topic_id : str) (topic : Topic)
  (user_message_content : str) : G unit :=
  gtry (stream_try g topic_id topic user_message_content)
       (stream_except topic_id).

Inductive response :=
| HTTPException (status_code : nat)
| StreamingResponse (events : list event).

(** What a request leaves behind: the answer, the directory, and the calls
    the pipeline received. *)
Record served := {
  answer : response;
  disk_after : filesystem;
  asked_after : list (list N * list Message);
}.

(** [post_message], with the stream read to its end.  [request_json] is
    [body.get("message")] of the parsed body, or what [request.json()]
    raised. *)
Definition post_message (g : globals) (topic_id : str)
  (request_json : outcome (option str)) (mishap : option (nat * exn))
  (fs : filesystem) : served :=
  match request_json with
  | Raise _ => {| answer := HTTPException 400; disk_after := fs; asked_after := [] |}
  | Ok user_message_content =>
    if negb (truthy_opt user_message_content)
    then {| answer := HTTPException 400; disk_after := fs; asked_after := [] |}
    else
      let user_message_content := default [] user_message_content in
      match load_topic topic_id fs with
      | None => {| answer := HTTPException 404; disk_after := fs; asked_after := [] |}
      | Some topic =>
        let user_message := {| role := lit "user"; content := user_message_content |} in
        let fs := snd (add_message_to_topic topic_id user_message fs) in
        let s := snd (stream_response g topic_id topic user_message_content
                        {| disk := fs; sent := []; asked := []; mishap := mishap |}) in
        {| answer := StreamingResponse (sent s); disk_after := disk s;
           asked_after := asked s |}
      end
  end.

End with_unicode.

End main.

(** ** main.py: the other endpoints *)

Module api.
Import storage graphrag_processor main.

(** What the server sees of an endpoint: a body, an [HTTPException], or an
    exception that escapes the handler. *)
Inductive reply (A : Type) :=
| Returns (body : A)
| HTTPError (status_code : nat) (detail : list N)
| Escapes (e : exn).
Arguments Returns {A} body.
Arguments HTTPError {A} status_code detail.
Arguments Escapes {A} e.

(** [health_check]: the response as its list of keys and values. *)
Definition health_check (g : globals) : list (list N * list N) :=
  let init_status :=
    if _initialized g then lit "initialized" else lit "not_initialized" in
  [(lit "status", lit "ok"); (lit "processor", lit "graphrag_local_search");
   (lit "rag_status", init_status)].

(** [lifespan], up to its [yield]: the engine is initialised when the
    application starts, from the globals of a fresh process. *)
Definition lifespan (cfg : settings) (h : host) : run :=
  initialize_rag cfg h {| vars := module_start; logged := [] |}.

Section with_unicode.
Context `{Unicode}.

(** [storage.list_topics] catches what it meets, so the handler of
    [get_topics] stays idle. *)
Definition get_topics (fs : filesystem) : reply (list TopicInfo) :=
  Returns (list_topics fs).

Definition create_topic (uuid4 : str) (name : option str) (fs : filesystem)
  : reply Topic * filesystem :=
  (Returns (fst (create_new_topic uuid4 name fs)),
   snd (create_new_topic uuid4 name fs)).

Definition get_topic_history (topic_id : str) (fs : filesystem) : reply Topic :=
  match load_topic topic_id fs with
  | None => HTTPError 404 (lit "Topic not found.")
  | Some topic => Returns topic
  end.

(** [delete_topic] (lines 171 to 190).  [storage._get_topic_path] is called
    outside any [try]: what it raises escapes. *)
Definition delete_topic (topic_id : str) (fs : filesystem)
  : reply (list N) * filesystem :=
  let deleted := fst (delete_topic_file topic_id fs) in
  let fs := snd (delete_topic_file topic_id fs) in
  let success :=
    Returns (lit "Topic " ++ topic_id ++ lit " deleted successfully.") in
  if negb deleted
  then match _get_topic_path topic_id with
       | Raise e => (Escapes e, fs)
       | Ok topic_path =>
         if os_path_exists topic_path fs
         then (HTTPError 500
                 (lit "Could not delete topic file for ID: " ++ topic_id
                  ++ lit ". Check backend logs for file system errors."), fs)
         else (success, fs)
       end
  else (success, fs).

End with_unicode.

End api.

(** ** convert_to_txt.py *)

Module convert_to_txt.

Inductive loader :=
| PyPDFLoader
| TextLoader
| UnstructuredWordDocumentLoader
| UnstructuredPowerPointLoader.

Definition SUPPORTED_EXTENSIONS : list (list N * loader) :=
  [ (lit ".pdf", PyPDFLoader);
    (lit ".txt", TextLoader);
    (lit ".md", TextLoader);
    (lit ".doc", UnstructuredWordDocumentLoader);
    (lit ".docx", UnstructuredWordDocumentLoader);
    (lit ".ppt", UnstructuredPowerPointLoader);
    (lit ".pptx", UnstructuredPowerPointLoader) ].

Definition IGNORED_EXTENSIONS : list (list N) :=
  [ lit ".jpg"; lit ".jpeg"; lit ".png"; lit ".gif"; lit ".bmp"; lit ".tiff";
    lit ".zip"; lit ".rar"; lit ".exe"; lit ".mp3"; lit ".mp4"; lit ".ipynb";
    lit ".pkl"; lit ".bin"; lit ".pt"; lit ".safetensors"; lit ".yaml";
    lit ".json"; lit ".env"; lit ".parquet"; lit ".log"; lit ".csv";
    lit ".html" ].

(** [dict.get] *)
Fixpoint dict_get {A} (d : list (list N * A)) (k : list N) : option A :=
  match d with
  | [] => None
  | (k', v) :: d' => if bool_decide (k' = k) then Some v else dict_get d' k
  end.

(** [s.rfind(c)] for a one-character [c]: the last index of [c] in [s], or
    [-1].  [i] is the index of the head of [s]. *)
Fixpoint rfind_from (i : Z) (c : N) (s : str) : Z :=
  match s with
  | [] => (-1)%Z
  | x :: s' =>
    let later := rfind_from (i + 1) c s' in
    if (0 <=? later)%Z then later else if x =? c then i else (-1)%Z
  end.

Definition rfind (c : N) (s : str) : Z := rfind_from 0 c s.

Definition SEP : N := 47.
Definition EXTSEP : N := 46.

(** [posixpath.basename]: [p[p.rfind('/') + 1:]] *)
Definition os_path_basename (p : str) : str :=
  drop (Z.to_nat (rfind SEP p + 1)) p.

(** [posixpath.splitext]: the extension starts at the last dot of the last
    component, unless that component has nothing but dots before it. *)
Definition os_path_splitext (p : str) : str * str :=
  let sepIndex := rfind SEP p in
  let dotIndex := rfind EXTSEP p in
  if (sepIndex <? dotIndex)%Z
  then let filenameIndex := Z.to_nat (sepIndex + 1) in
       let before := take (Z.to_nat dotIndex - filenameIndex) (drop filenameIndex p) in
       if existsb (fun x => negb (x =? EXTSEP)) before
       then (take (Z.to_nat dotIndex) p, drop (Z.to_nat dotIndex) p)
       else (p, [])
  else (p, []).

(** [posixpath.join] of two components *)
Definition os_path_join (a b : str) : str :=
  if startswith b [SEP] then b
  else if negb (truthy a) || endswith a [SEP] then a ++ b
  else a ++ [SEP] ++ b.

(** [sep.join(parts)] *)
Fixpoint str_join (sep : str) (parts : list str) : str :=
  match parts with
  | [] => []
  | [p] => p
  | p :: rest => p ++ sep ++ str_join sep rest
  end.

Inductive encoding := utf_8 | gbk.

(** The document loaders: [load cls enc path] is the list of the
    [page_content] of the documents [cls(path, ...).load()] returns, or what
    it raises; [enc] is the encoding handed to [TextLoader]. *)
Record loaders := {
  load : loader -> option encoding -> list N -> outcome (list (list N));
}.

Definition is_UnicodeDecodeError (e : exn) : bool :=
  match exn_type e with
  | OtherError name => String.eqb name "UnicodeDecodeError"
  | _ => false
  end.

Section with_unicode.
Context `{Unicode}.

(** Lines 110 to 116: the text of the documents, joined by two line feeds,
    or [None] when there is none. *)
Definition full_text_of (loaded_docs : list (list N)) : option str :=
  let full_text := str_join [10; 10] (List.filter truthy loaded_docs) in
  if negb (truthy full_text) then None else Some full_text.

(** [extract_text_from_file]; every handler logs and returns [None]. *)
Definition extract_text_from_file (h : loaders) (filepath : str) : option str :=
  let filename := os_path_basename filepath in
  if startswith filename (lit ".") then None
  else
    let ext := str_lower (snd (os_path_splitext filepath)) in
    if negb (truthy ext) then None
    else if bool_decide (ext ∈ IGNORED_EXTENSIONS) then None
    else
      match dict_get SUPPORTED_EXTENSIONS ext with
      | None => None
      | Some TextLoader =>
        match load h TextLoader (Some utf_8) filepath with
        | Ok loaded_docs => full_text_of loaded_docs
        | Raise e =>
          if is_UnicodeDecodeError e
          then match load h TextLoader (Some gbk) filepath with
               | Ok loaded_docs => full_text_of loaded_docs
               | Raise _ => None
               end
          else None
        end
      | Some loader_class =>
        match load h loader_class None filepath with
        | Ok loaded_docs => full_text_of loaded_docs
        | Raise _ => None
        end
      end.

End with_unicode.

(** A directory as [os.walk] reads it: its name, its subdirectories and its
    files.  The walk is over a tree that the conversion does not write into:
    the output directory lies outside the input directory. *)
#[warnings="-register-all"] Inductive tree :=
| Dir (dir_name : list N) (dirs : list tree) (files : list (list N)).

Definition name_of (t : tree) : str :=
  match t with Dir dir_name _ _ => dir_name end.

(** [os.walk(top)], top down, with the pruning of line 151: the directories
    whose name starts with a dot are not entered.  [root] is the path of
    [t]. *)
Fixpoint os_walk (root : str) (t : tree) : list (str * list str) :=
  match t with
  | Dir _ dirs files =>
    (root, files)
    :: (fix walk_dirs (ds : list tree) : list (str * list str) :=
          match ds with
          | [] => []
          | sub :: ds' =>
            (if negb (startswith (name_of sub) (lit "."))
             then os_walk (os_path_join root (name_of sub)) sub
             else [])
            ++ walk_dirs ds'
          end) dirs
  end.

(** The output directory: its text files by name, and the names that cannot
    be written ([open(path, 'w')] raises on them). *)
Record output := {
  texts : gmap (list N) (list N);
  locked_names : gset (list N);
}.

Record summary := {
  processed_files : nat;
  failed_files : nat;
  skipped_files : nat;
  files_encountered : nat;
  out : output;
}.

Section with_unicode.
Context `{Unicode}.

(** Lines 154 to 183: one turn of the inner loop. *)
Definition convert_file (h : loaders) (root : str) (s : summary) (filename : str)
  : summary :=
  let files_encountered := S (files_encountered s) in
  let filepath := os_path_join root filename in
  match extract_text_from_file h filepath with
  | Some extracted_text =>
    let base_filename := os_path_basename filepath in
    let output_filename := base_filename ++ lit ".txt" in
    if bool_decide (output_filename ∈ locked_names (out s))
    then {| processed_files := processed_files s;
            failed_files := S (failed_files s);
            skipped_files := skipped_files s;
            files_encountered := files_encountered;
            out := out s |}
    else {| processed_files := S (processed_files s);
            failed_files := failed_files s;
            skipped_files := skipped_files s;
            files_encountered := files_encountered;
            out := {| texts := <[output_filename := extracted_text]> (texts (out s));
                      locked_names := locked_names (out s) |} |}
  | None =>
    {| processed_files := processed_files s;
       failed_files := failed_files s;
       skipped_files := S (skipped_files s);
       files_encountered := files_encountered;
       out := out s |}
  end.

(** [convert_directory_to_txt]: [input] is the tree at [input_dir], or
    [None] when [input_dir] is no directory; [o] is the output directory
    once [os.makedirs] has made sure of it.  The result is the counters of
    the summary and the output directory, or [None] when the function
    returns at line 138. *)
Definition convert_directory_to_txt (h : loaders) (input_dir : str)
  (input : option tree) (o : output) : option summary :=
  match input with
  | None => None
  | Some t =>
    Some (foldl (fun s walked =>
                   foldl (convert_file h (fst walked)) s (snd walked))
                {| processed_files := 0; failed_files := 0; skipped_files := 0;
                   files_encountered := 0; out := o |}
                (os_walk input_dir t))
  end.

End with_unicode.

End convert_to_txt.

(** ** The Unicode tables restricted to ASCII

    An instance of [Unicode] that knows no letter, digit or white space above
    ASCII and lowers the letters A to Z only. *)

Definition ascii_lower (c : N) : N :=
  if (65 <=? c) && (c <=? 90) then c + 32 else c.

Definition ascii_text : Unicode :=
  {| unicode_isalnum := fun _ => false;
     unicode_isspace := fun _ => false;
     str_lower := map ascii_lower;
     alnum_not_space := fun _ _ => eq_refl |}.

(** ** The identifiers [uuid.uuid4] prints: 8-4-4-4-12 hexadecimal digits *)

Definition is_hex (c : N) : bool :=
  ((48 <=? c) && (c <=? 57)) || ((97 <=? c) && (c <=? 102)).

(** The characters of [s] from position [i] on: a dash at positions 8, 13,
    18 and 23, a hexadecimal digit elsewhere. *)
Fixpoint uuid_chars (i : nat) (s : list N) : bool :=
  match s with
  | [] => true
  | c :: s' =>
    (if bool_decide (i ∈ [8; 13; 18; 23]%nat) then c =? 45 else is_hex c)
    && uuid_chars (S i) s'
  end.

Definition is_uuid (s : list N) : bool :=
  (length s =? 36)%nat && uuid_chars 0 s.

(** ** Vocabulary of the statements *)

Module scenarios.
Import storage graphrag_processor main.

(** An engine given by its [search] method, and the globals once it is
    installed. *)
Definition engine_of (f : list N -> outcome SearchResult) : LocalSearch :=
  {| search := f |}.

Definition ready_with (e : LocalSearch) : globals :=
  {| _model_manager := true; _search_engine := Some e; _initialized := true |}.

(** The indexing command: absent from the path, or exiting with a status. *)
Definition command_missing : list (list N) -> outcome process :=
  fun _ => Raise (Exn FileNotFoundError (lit "graphrag")).

Definition command_exits (code : Z) : list (list N) -> outcome process :=
  fun _ => Ok {| stdout := []; stderr := []; returncode := code |}.

Definition index_command (root : str) : list str :=
  [lit "graphrag"; lit "index"; lit "--root"; root].

(** The indirection of a key through the environment, and its test. *)
Definition wrapped (var : str) : str := lit "${" ++ var ++ lit "}".

Definition is_wrapped (kv : str) : bool :=
  startswith kv (lit "${") && endswith kv (lit "}").

(** The identifier once [_get_topic_path] has dropped what is neither
    alphanumeric nor a dash nor an underscore. *)
Definition sanitized `{Unicode} (topic_id : str) : str :=
  List.filter safe_char topic_id.

(** [m] is the first message of role [r] in [ms]. *)
Definition first_of_role (r : str) (ms : list Message) (m : Message) : Prop :=
  exists older newer,
    ms = older ++ m :: newer /\ role m = r
    /\ Forall (fun m' => role m' <> r) older.

(** [p] shows [c] cut at 50 characters: the first 50 and an ellipsis when [c]
    is longer, [c] itself otherwise. *)
Definition cut_at_50 (c p : str) : Prop :=
  ((50 < length c)%nat -> p = take 50 c ++ lit "...")
  /\ ((length c <= 50)%nat -> p = c).

(** The preview as the specification words it: the first 50 characters of
    the first user message, else of the first assistant message, else
    empty; an ellipsis follows a message cut short. *)
Definition spec_preview (t : Topic) : str :=
  let cut (c : str) := take 50 c ++ (if (50 <? length c)%nat then lit "..." else []) in
  match first_content (lit "user") (messages t) with
  | Some c => cut c
  | None =>
    match first_content (lit "assistant") (messages t) with
    | Some c => cut c
    | None => []
    end
  end.

(** The entry [info] shows the topic [topic] as the listing should: under
    its identifier and its name, with the first user message cut at 50
    characters when that message is not empty; else the first assistant
    message cut at 50 characters when that one is not empty; else, when all
    messages are of role user or assistant, the text "New Topic". *)
Definition shows (topic : Topic) (info : TopicInfo) : Prop :=
  info_id info = id topic /\ info_name info = name topic
  /\ (forall u, first_of_role (lit "user") (messages topic) u ->
        content u <> [] -> cut_at_50 (content u) (preview info))
  /\ (forall a,
        (forall u, first_of_role (lit "user") (messages topic) u -> content u = []) ->
        first_of_role (lit "assistant") (messages topic) a ->
        content a <> [] -> cut_at_50 (content a) (preview info))
  /\ (Forall (fun m => role m = lit "user" \/ role m = lit "assistant")
             (messages topic) ->
      (forall u, first_of_role (lit "user") (messages topic) u -> content u = []) ->
      (forall a, first_of_role (lit "assistant") (messages topic) a -> content a = []) ->
      preview info = lit "New Topic").

(** A directory that holds the one topic [t], in the file its identifier
    names. *)
Definition single_topic (t : Topic) : filesystem :=
  {| chat_dir := {[ id t ++ lit ".json" := JsonTopic t ]}; readonly := ∅ |}.

Definition algebra : Topic :=
  {| id := lit "0b9c2c1e-5a51-4d09-9c57-3f1d2a6e8b47"; name := lit "Algebra";
     messages := [] |}.

(** A topic whose first user message is longer than 50 characters. *)
Definition calculus : Topic :=
  {| id := lit "7d3f9a52-0c1b-4e6a-8f2d-5b4c3a291e70"; name := lit "Calculus";
     messages :=
       [ {| role := lit "user";
            content := lit "What is a derivative, and how does it relate to the slope of a tangent line?" |};
         {| role := lit "assistant";
            content := lit "The derivative measures the rate of change." |} ] |}.

(** A topic of twelve messages, two more than the endpoint hands over. *)
Definition seminar : Topic :=
  {| id := lit "3c1e7a90-6b2d-4f58-a1c4-9e0d7b6f5a21"; name := lit "Seminar";
     messages :=
       [ {| role := lit "user"; content := lit "question 1" |};
         {| role := lit "assistant"; content := lit "answer 1" |};
         {| role := lit "user"; content := lit "question 2" |};
         {| role := lit "assistant"; content := lit "answer 2" |};
         {| role := lit "user"; content := lit "question 3" |};
         {| role := lit "assistant"; content := lit "answer 3" |};
         {| role := lit "user"; content := lit "question 4" |};
         {| role := lit "assistant"; content := lit "answer 4" |};
         {| role := lit "user"; content := lit "question 5" |};
         {| role := lit "assistant"; content := lit "answer 5" |};
         {| role := lit "user"; content := lit "question 6" |};
         {| role := lit "assistant"; content := lit "answer 6" |} ] |}.






(** The chunk events of a reply, one per character. *)
Definition chunk_events (reply : list N) : list event :=
  map (fun c => ev_chunk [c]) reply.


(** The file of [topic_id] holds a topic whose own identifier names that
    file, and the file can be rewritten. *)
Definition writable_topic `{Unicode} (topic_id : str) (topic : Topic)
  (fs : filesystem) : Prop :=
  load_topic topic_id fs = Some topic
  /\ sanitized (id topic) = sanitized topic_id
  /\ sanitized topic_id ++ lit ".json" ∉ readonly fs.

(** The topic once a message is appended to it. *)
Definition with_message (topic : Topic) (m : Message) : Topic :=
  {| id := id topic; name := name topic; messages := messages topic ++ [m] |}.

(** A state of the generator, field by field. *)
Definition mk (d : filesystem) (o : list event)
  (a : list (list N * list Message)) (mh : option (nat * exn)) : gen_state :=
  {| disk := d; sent := o; asked := a; mishap := mh |}.


(** Callers past the [try] statement: leaving the lock or returned. *)
Definition past_try (p : pc) : bool :=
  match p with at_release | finished => true | _ => false end.

Definition idle (p : pc) : bool :=
  match p with at_entry | finished => true | _ => false end.

Definition count (f : pc -> bool) (s : system) : nat :=
  length (List.filter f (callers s)).

(** How far the callers still are from returning: every step brings one
    caller closer. *)
Definition distance (p : pc) : nat :=
  match p with
  | at_entry => 5 | at_lock => 4 | at_recheck => 3 | at_try => 2
  | at_release => 1 | finished => 0
  end%nat.

Definition remaining (s : system) : nat :=
  foldr (fun p n => (distance p + n)%nat) 0%nat (callers s).

(** What holds of every state the callers can reach from globals [g]. *)
Record sound (cfg : settings) (g : globals) (n : nat) (s : system) : Prop := {
  all_callers : length (callers s) = n;
  one_holder : holders s = if locked s then 1%nat else 0%nat;
  once :
    (completed s = 0%nat /\ ready s = _initialized g)
    \/ (completed s = 1%nat /\ ready s = true /\ _initialized g = false);
  no_rerun : ready s = true -> Forall (fun p => p <> at_try) (callers s);
  attempts_bounded : (started s <= count past_try s)%nat;
  attempts_when_failing :
    ready s = false -> GRAPHRAG_AVAILABLE cfg = true ->
    started s = count past_try s;
  nothing_when_unavailable :
    GRAPHRAG_AVAILABLE cfg = false ->
    started s = 0%nat /\ Forall (fun p => idle p = true) (callers s);
}.

(** The step caller [i] takes in state [s], as a function: the state is
    left as it is when the caller waits for a held lock, has returned, or
    does not exist.  [h] is the host the [try] block meets if it runs. *)
Definition advance (cfg : settings) (h : host) (i : nat) (s : system) : system :=
  match callers s !! i with
  | Some at_entry =>
    if ready s || negb (GRAPHRAG_AVAILABLE cfg)
    then {| shared := if negb (GRAPHRAG_AVAILABLE cfg)
                      then log_unavailable (shared s) else shared s;
            locked := locked s; callers := <[i := finished]> (callers s);
            started := started s; completed := completed s |}
    else move i at_lock s
  | Some at_lock =>
    if locked s then s
    else {| shared := shared s; locked := true;
            callers := <[i := at_recheck]> (callers s);
            started := started s; completed := completed s |}
  | Some at_recheck => if ready s then move i at_release s else move i at_try s
  | Some at_try =>
    {| shared := init_attempt cfg h (shared s); locked := locked s;
       callers := <[i := at_release]> (callers s);
       started := S (started s);
       completed := if _initialized (vars (init_attempt cfg h (shared s)))
                    then S (completed s) else completed s |}
  | Some at_release =>
    {| shared := shared s; locked := false;
       callers := <[i := finished]> (callers s);
       started := started s; completed := completed s |}
  | Some finished | None => s
  end.

(** A schedule: the callers in the order the loop runs them, each with the
    host its [try] block would meet. *)
Definition schedule (cfg : settings) (turns : list (nat * host)) (s : system)
  : system :=
  foldl (fun s turn => advance cfg (snd turn) (fst turn) s) s turns.

(** Two callers, one after the other. *)
Definition one_after_the_other (h : host) : list (nat * host) :=
  map (fun i => (i, h)) [0; 0; 0; 0; 0; 1; 1; 1; 1; 1]%nat.

(** Two callers, the second arriving while the first holds the lock. *)
Definition second_arrives_meanwhile (h : host) : list (nat * host) :=
  map (fun i => (i, h)) [0; 1; 0; 1; 0; 0; 0; 1; 1; 1]%nat.

(** The property as the specification words it: once the callers of
    [initialize_rag] have all returned, exactly one initialisation sequence
    has executed; [executed] says how sequences are counted. *)
Definition exactly_one_initialisation (executed : system -> nat) : Prop :=
  forall cfg n s,
    (2 <= n)%nat -> reachable cfg module_start n s -> quiescent s ->
    executed s = 1%nat.

(** A host and settings with which every step of the initialisation
    succeeds, whatever the API keys resolve to: the artifacts are there, the
    collection is listed, both models are configured, and no call into the
    libraries raises. *)
Record healthy (cfg : settings) (h : host) (engine : LocalSearch) : Prop := {
  files_present : Forall (fun f => f ∈ output_dir h) required_files;
  parquet_reads : forall f, read_parquet h f = Ok tt;
  indexer_reads : forall k, read_indexer h k = Ok tt;
  store_connects : vector_store_connect h = Ok tt;
  collection_present :
    exists names, lancedb_table_names h = Ok names
                  /\ LANCEDB_COLLECTION_NAME ∈ names;
  chat_configured :
    truthy_opt (LLM_MODEL cfg) = true /\ truthy_opt (LLM_API_BASE cfg) = true;
  embedding_configured :
    truthy_opt (EMBEDDING_MODEL cfg) = true
    /\ truthy_opt (EMBEDDING_API_BASE cfg) = true;
  chat_model_built : forall k, get_or_create_chat_model h k = Ok tt;
  embedding_model_built : forall k, get_or_create_embedding_model h k = Ok tt;
  encoder_found : encoding_for_model h = Ok tt \/ get_encoding h = Ok tt;
  context_built : new_mixed_context h = Ok tt;
  engine_built : new_local_search h = Ok engine;
}.

(** Settings with both models configured and the chat key left to the
    environment variable [OPENAI_API_KEY]. *)
Definition sample_settings : settings :=
  {| GRAPHRAG_AVAILABLE := true;
     llm_api_key := Some (wrapped (lit "OPENAI_API_KEY"));
     LLM_MODEL := Some (lit "gpt-4o-mini");
     LLM_API_BASE := Some (lit "https://api.openai.com/v1");
     embedding_api_key := Some (lit "sk-embedding");
     EMBEDDING_MODEL := Some (lit "text-embedding-3-small");
     EMBEDDING_API_BASE := Some (lit "https://api.openai.com/v1") |}.

(** A host after a complete indexing run, with an empty environment. *)
Definition indexed_host (engine : LocalSearch) : host :=
  {| environ := ∅;
     output_dir := list_to_set required_files;
     read_parquet := fun _ => Ok tt;
     read_indexer := fun _ => Ok tt;
     vector_store_connect := Ok tt;
     lancedb_table_names := Ok [LANCEDB_COLLECTION_NAME];
     get_or_create_chat_model := fun _ => Ok tt;
     get_or_create_embedding_model := fun _ => Ok tt;
     encoding_for_model := Ok tt;
     get_encoding := Ok tt;
     new_mixed_context := Ok tt;
     new_local_search := Ok engine |}.

(** A host after a complete indexing run on which the construction of the
    engine raises: every step of the initialisation runs, and the last one
    fails. *)
Definition engineless_host : host :=
  {| environ := ∅;
     output_dir := list_to_set required_files;
     read_parquet := fun _ => Ok tt;
     read_indexer := fun _ => Ok tt;
     vector_store_connect := Ok tt;
     lancedb_table_names := Ok [LANCEDB_COLLECTION_NAME];
     get_or_create_chat_model := fun _ => Ok tt;
     get_or_create_embedding_model := fun _ => Ok tt;
     encoding_for_model := Ok tt;
     get_encoding := Ok tt;
     new_mixed_context := Ok tt;
     new_local_search := Raise (Exn TypeError (lit "unexpected keyword argument")) |}.

(** A host on which indexing never ran: no artifact in the output
    directory. *)
Definition bare_host : host :=
  {| environ := ∅;
     output_dir := ∅;
     read_parquet := fun f => Raise (Exn FileNotFoundError f);
     read_indexer := fun _ => Ok tt;
     vector_store_connect := Ok tt;
     lancedb_table_names := Ok [];
     get_or_create_chat_model := fun _ => Ok tt;
     get_or_create_embedding_model := fun _ => Ok tt;
     encoding_for_model := Ok tt;
     get_encoding := Ok tt;
     new_mixed_context := Ok tt;
     new_local_search := Raise (Exn (OtherError "ValueError") []) |}.



(** The statements of [m] raise nothing but exceptions of [P], provided the
    mishap of the run is one. *)
Definition raises_only {A} (P : exn -> Prop) (m : G A) : Prop :=
  forall s, (forall n e, mishap s = Some (n, e) -> P e) ->
  match m s with
  | (Ok _, s') => forall n e, mishap s' = Some (n, e) -> P e
  | (Raise e, _) => P e
  end.

(** The reply of a call of [query_rag], empty when the call raised. *)
Definition reply_of (result : outcome str) : str :=
  match result with Ok reply => reply | Raise _ => [] end.

(** The events of a stream that runs to its last chunk: the start event and
    the chunks of the reply. *)
Definition start_and_chunks (topic_id : str) (reply : str) : list event :=
  ev_start topic_id :: chunk_events reply.

(** *** Vocabulary of the further properties *)

(** Every topic file is named after the identifier stored in it. *)
Definition store_consistent `{Unicode} (fs : filesystem) : Prop :=
  forall path t,
    chat_dir fs !! path = Some (JsonTopic t) ->
    sanitized (id t) <> [] /\ path = sanitized (id t) ++ lit ".json".

(** The calls [add_message_to_topic(topic_id, m)] for the messages of [ms],
    one after the other. *)
Definition add_messages `{Unicode} (topic_id : str) (ms : list Message)
  (fs : filesystem) : filesystem :=
  foldl (fun fs m => snd (add_message_to_topic topic_id m fs)) fs ms.

(** Every [*.json] file of the directory is named by safe characters only,
    as the files the store writes are. *)
Definition tidy `{Unicode} (fs : filesystem) : Prop :=
  forall path,
    is_Some (chat_dir fs !! path) -> endswith path (lit ".json") = true ->
    sanitized (take (length path - 5) path) = take (length path - 5) path.

(** The entry of [list_topics] for a topic. *)
Definition entry_of `{Unicode} (topic : Topic) : TopicInfo :=
  {| info_id := id topic; info_name := name topic; preview := preview_of topic |}.

(** The key [list_topics] sorts by. *)
Definition sort_key `{Unicode} (t : TopicInfo) : list N := str_lower (info_name t).

(** [l] is in the order of [key]. *)
Definition in_order {A} (key : A -> list N) (l : list A) : Prop :=
  StronglySorted (fun x y => str_le (key x) (key y) = true) l.

(** The entries of [l] whose key is [k], in their order in [l]. *)
Definition with_key {A} (key : A -> list N) (k : list N) (l : list A) : list A :=
  List.filter (fun x => bool_decide (key x = k)) l.

(** The checks the [try] block of [initialize_rag] makes on its way: the
    artifacts, the collection, the configuration of both models, and the
    engine at the end. *)
Record passed (cfg : settings) (h : host) (engine : LocalSearch) : Prop := {
  passed_files : Forall (fun f => f ∈ output_dir h) required_files;
  passed_collection :
    exists names, lancedb_table_names h = Ok names
                  /\ LANCEDB_COLLECTION_NAME ∈ names;
  passed_chat :
    truthy_opt (LLM_MODEL cfg) = true /\ truthy_opt (LLM_API_BASE cfg) = true;
  passed_embedding :
    truthy_opt (EMBEDDING_MODEL cfg) = true
    /\ truthy_opt (EMBEDDING_API_BASE cfg) = true;
  passed_engine : new_local_search h = Ok engine;
}.

(** A schedule all of whose hosts are healthy for the engine [engine]. *)
Definition all_healthy (cfg : settings) (engine : LocalSearch)
  (turns : list (nat * host)) : Prop :=
  Forall (fun turn => healthy cfg (snd turn) engine) turns.

End scenarios.
Export scenarios.

(** ** Vocabulary of the conversion *)

Module conversions.
Import convert_to_txt.

(** The paths of the files the walk meets, in the order it meets them. *)
Definition encountered (input_dir : str) (t : tree) : list str :=
  concat (map (fun walked => map (os_path_join (fst walked)) (snd walked))
              (os_walk input_dir t)).

(** The name under which the text of [filepath] is saved. *)
Definition output_name (filepath : str) : str :=
  os_path_basename filepath ++ lit ".txt".

(** What becomes of a file: converted, extracted but not written, or
    skipped. *)
Inductive fate := converted | failed | skipped.

Global Instance fate_eq_dec : EqDecision fate.
Proof. solve_decision. Defined.

Definition fate_of `{Unicode} (h : loaders) (o : output) (filepath : str) : fate :=
  match extract_text_from_file h filepath with
  | Some _ =>
    if bool_decide (output_name filepath ∈ locked_names o) then failed
    else converted
  | None => skipped
  end.

Definition count_fate `{Unicode} (h : loaders) (o : output) (x : fate)
  (paths : list str) : nat :=
  length (List.filter (fun p => bool_decide (fate_of h o p = x)) paths).



(** A small tree: a hidden directory, a directory of notes, and files of
    several kinds at the top. *)
Definition sample_tree : tree :=
  Dir (lit "docs")
      [ Dir (lit ".git") [] [lit "config.txt"];
        Dir (lit "notes") [] [lit "week1.md"; lit "photo.png"; lit "readme.txt"] ]
      [ lit "readme.txt"; lit ".env"; lit "Makefile"; lit "slides.PPTX" ].

(** Loaders that find one page of text in every file. *)
Definition one_page : loaders :=
  {| load := fun _ _ path => Ok [lit "text of " ++ path] |}.

End conversions.

(** * Properties *)

(** ** The query pipeline *)

Module query_facts.
Import graphrag_processor.

(** An exception that is no [Exception] carries a class name of its own. *)
Lemma not_Exception_inv e :
  is_Exception e = false -> exists name, exn_type e = OtherError name.
Proof.
  unfold is_Exception. destruct (exn_type e); try discriminate. eauto.
Qed.

(** [query_rag] returns a reply that is not empty, or lets through what the
    engine raised when that is no [Exception]. *)
Lemma query_rag_cases g question history :
  (exists reply, query_rag g question history = Ok reply /\ reply <> [])
  \/ (exists engine e,
        _initialized g = true /\ _search_engine g = Some engine
        /\ search engine question = Raise e /\ is_Exception e = false
        /\ query_rag g question history = Raise e).
Proof.
  unfold query_rag.
  destruct (_initialized g);
    [|left; eexists; split; [reflexivity | discriminate]].
  destruct (_search_engine g) as [engine|];
    [|left; eexists; split; [reflexivity | discriminate]].
  destruct (search engine question) as [[|[[|c r]|]]|e] eqn:Hs;
    cbn [bind try_except truthy];
    try (left; eexists; split; [reflexivity | discriminate]).
  destruct (is_Exception e) eqn:He.
  - left. eexists. split; [reflexivity | discriminate].
  - right. exists engine, e. auto.
Qed.

(** [query_rag] returns whenever the engine raises nothing but instances of
    [Exception]. *)
Lemma query_rag_returns g question history :
  (forall engine e, _search_engine g = Some engine ->
     search engine question = Raise e -> is_Exception e = true) ->
  exists reply, query_rag g question history = Ok reply.
Proof.
  intros Hcalm.
  destruct (query_rag_cases g question history)
    as [(reply & Hr & _) | (engine & e & _ & He & Hs & Hx & _)]; [eauto|].
  rewrite (Hcalm engine e He Hs) in Hx. discriminate Hx.
Qed.

(** C5.  When the engine is not ready, that is [_initialized] is false or no
    engine handle is present, [query_rag] returns the fixed "engine not
    initialised" reply, whatever the question and the history; it does not
    raise. *)
Theorem query_rag_not_ready g question history :
  _initialized g = false \/ _search_engine g = None ->
  query_rag g question history = Ok NOT_INITIALIZED_REPLY.
Proof.
  intros [Hi | He]; unfold query_rag.
  - rewrite Hi. reflexivity.
  - rewrite He. destruct (_initialized g); reflexivity.
Qed.

Lemma query_rag_not_ready_witness :
  query_rag module_start (lit "What is a derivative?") None
  = Ok NOT_INITIALIZED_REPLY.
Proof.
  apply (query_rag_not_ready module_start (lit "What is a derivative?") None).
  left. reflexivity.
Defined.

(** The reply on an empty response is not the "query failed" reply with a
    category appended: with a ready engine whose [search] hands back an object
    with an empty [response], [query_rag] returns the "no clear answer" reply,
    which carries no error category. *)
Lemma query_rag_empty_response_carries_no_category :
  let g := ready_with (engine_of (fun _ => Ok (PyObject (Some [])))) in
  query_rag g (lit "q") None = Ok NO_ANSWER_REPLY
  /\ ~ (exists category,
         query_rag g (lit "q") None = Ok (QUERY_ERROR_REPLY ++ category)).
Proof.
  split; [reflexivity|].
  intros [category Hc]. vm_compute in Hc. discriminate Hc.
Qed.

(** C4 (amended).  With a ready engine: when [search] raises an instance of
    [Exception], [query_rag] returns the fixed "query failed" reply followed
    by the name of the exception class; when [search] hands back [None], an
    object without a [response] or with an empty one, it returns the fixed
    "no clear answer" reply, which names no category; when the response is
    not empty it is returned as it is.  No [Exception] of [search] reaches
    the caller.  What [search] raises outside [Exception], such as the
    [CancelledError] of a cancelled request, does reach the caller, as it
    was raised; [query_rag] raises in that case only. *)
Theorem query_rag_falls_back g engine question history :
  _initialized g = true ->
  _search_engine g = Some engine ->
  (forall e, search engine question = Raise e -> is_Exception e = true ->
     query_rag g question history
     = Ok (QUERY_ERROR_REPLY ++ class_name (exn_type e)))
  /\ (forall e, search engine question = Raise e -> is_Exception e = false ->
        query_rag g question history = Raise e)
  /\ (search engine question = Ok PyNone
      \/ search engine question = Ok (PyObject None)
      \/ search engine question = Ok (PyObject (Some [])) ->
      query_rag g question history = Ok NO_ANSWER_REPLY)
  /\ (forall response, response <> [] ->
        search engine question = Ok (PyObject (Some response)) ->
        query_rag g question history = Ok response)
  /\ (raises (query_rag g question history) = true <->
      exists e, search engine question = Raise e /\ is_Exception e = false).
Proof.
  intros Hi He. unfold query_rag. rewrite Hi, He.
  split; [|split; [|split; [|split]]].
  - intros e -> Hx. cbn [bind try_except]. rewrite Hx. reflexivity.
  - intros e -> Hx. cbn [bind try_except]. rewrite Hx. reflexivity.
  - intros [-> | [-> | ->]]; reflexivity.
  - intros [|c r] Hne ->; [congruence | reflexivity].
  - destruct (search engine question) as [[|[[|c r]|]]|e];
      cbn [bind try_except truthy raises];
      try (split; [discriminate | intros (e' & [=] & _)]).
    destruct (is_Exception e) eqn:Hx; cbn [raises].
    + split; [discriminate | intros (e' & [= <-] & Hx'); congruence].
    + split; [eauto | reflexivity].
Qed.

Lemma query_rag_falls_back_witness :
  let engine := engine_of (fun _ => Raise (Exn (OtherError "APIConnectionError") [])) in
  query_rag (ready_with engine) (lit "q") None
  = Ok (QUERY_ERROR_REPLY ++ lit "APIConnectionError").
Proof.
  intros engine.
  destruct (query_rag_falls_back (ready_with engine) engine (lit "q") None
              eq_refl eq_refl) as (Hraise & _).
  exact (Hraise _ eq_refl eq_refl).
Defined.

End query_facts.

(** ** Ingestion *)

Module ingestion_facts.
Import graphrag_processor.

(** A failed ingestion does reset a ready engine: with the engine initialised
    and its handle present, a trigger whose command is missing from the path
    raises to its caller and leaves [_initialized] false and the handle
    dropped. *)
Lemma failed_ingestion_drops_ready_engine :
  let engine := {| search := fun _ => Ok PyNone |} in
  let g := {| _model_manager := true; _search_engine := Some engine;
              _initialized := true |} in
  let after := trigger_ingestion command_missing (lit "./data") g in
  raises (fst after) = true
  /\ ~ (_initialized (snd after) = true
        /\ _search_engine (snd after) = Some engine).
Proof.
  split; [reflexivity|]. intros [Hi _]. discriminate Hi.
Qed.

(** C3 (amended).  [trigger_ingestion] clears the engine state before it
    starts the indexing command: whatever the command then does, the engine
    is left uninitialised with its handle dropped (the model manager is
    kept).  A failed run surfaces to the caller as a [RuntimeError]: command
    missing from the path, non-zero exit status, or any other instance of
    [Exception] the run raises; a run that exits with status zero returns
    normally.  What the run raises outside [Exception], such as the
    [CancelledError] of a cancelled task, reaches the caller as it is, not
    as a [RuntimeError]. *)
Theorem trigger_ingestion_resets_then_reports run_command root g :
  let after := trigger_ingestion run_command root g in
  (_initialized (snd after) = false
   /\ _search_engine (snd after) = None
   /\ _model_manager (snd after) = _model_manager g)
  /\ (forall e, run_command (index_command root) = Raise e ->
        is_Exception e = true ->
        exists text, fst after = Raise (Exn RuntimeError text))
  /\ (forall e, run_command (index_command root) = Raise e ->
        is_Exception e = false -> fst after = Raise e)
  /\ (forall p, run_command (index_command root) = Ok p ->
        returncode p <> 0%Z ->
        exists text, fst after = Raise (Exn RuntimeError text))
  /\ (forall p, run_command (index_command root) = Ok p ->
        returncode p = 0%Z -> fst after = Ok tt).
Proof.
  cbv zeta. unfold trigger_ingestion, index_command. cbn [fst snd].
  split; [auto|].
  split; [|split; [|split]].
  - intros e -> Hx. cbn [bind]. rewrite Hx.
    destruct (is_FileNotFoundError e); eauto.
  - intros e -> Hx. cbn [bind]. rewrite Hx.
    destruct (query_facts.not_Exception_inv e Hx) as [name Hname].
    unfold is_FileNotFoundError. rewrite Hname. reflexivity.
  - intros p -> Hne. cbn [bind].
    destruct (Z.eqb_spec (returncode p) 0) as [Heq|_]; [contradiction|].
    cbn [negb is_FileNotFoundError exn_type is_Exception]. eauto.
  - intros p -> Heq. cbn [bind]. rewrite Heq. reflexivity.
Qed.

Lemma trigger_ingestion_resets_then_reports_witness :
  let g := ready_with (engine_of (fun _ => Ok PyNone)) in
  let after := trigger_ingestion (command_exits 1) (lit "./data") g in
  (exists text, fst after = Raise (Exn RuntimeError text))
  /\ _initialized (snd after) = false /\ _search_engine (snd after) = None.
Proof.
  intros g after.
  destruct (trigger_ingestion_resets_then_reports (command_exits 1) (lit "./data") g)
    as ((Hi & He & _) & _ & _ & Hexit & _).
  split; [|split; [exact Hi | exact He]].
  apply (Hexit {| stdout := []; stderr := []; returncode := 1 |}).
  - reflexivity.
  - discriminate.
Defined.

(** The messages of the two failures the source singles out. *)
Lemma trigger_ingestion_failure_texts root g :
  fst (trigger_ingestion command_missing root g)
  = Raise (Exn RuntimeError (lit "'graphrag' command not found."))
  /\ fst (trigger_ingestion (command_exits 1) root g)
     = Raise (Exn RuntimeError
                (lit "Indexing trigger failed: GraphRAG indexing failed. Check logs above.")).
Proof. split; vm_compute; reflexivity. Qed.

End ingestion_facts.

(** ** API keys *)

Module api_key_facts.
Import graphrag_processor.

Lemma startswith_app p s : startswith (p ++ s) p = true.
Proof.
  induction p as [|c p IH]; simpl; [reflexivity|].
  rewrite N.eqb_refl. exact IH.
Qed.

Lemma endswith_app s p : endswith (s ++ p) p = true.
Proof. unfold endswith. rewrite rev_app_distr. apply startswith_app. Qed.

Lemma wrapped_is_wrapped var : is_wrapped (wrapped var) = true.
Proof.
  unfold is_wrapped, wrapped.
  rewrite startswith_app. rewrite (app_assoc _ var _).
  rewrite endswith_app. reflexivity.
Qed.

Lemma slice_wrapped var : slice_between 2 1 (wrapped var) = var.
Proof.
  unfold slice_between, wrapped.
  cbn [app drop length]. rewrite length_app. cbn [length].
  replace (S (S (length var + 1)) - 1 - 2)%nat with (length var) by lia.
  apply take_app_length.
Qed.

Lemma is_wrapped_inv kv : is_wrapped kv = true -> exists var, kv = wrapped var.
Proof.
  unfold is_wrapped, wrapped, endswith. intros Hw.
  apply andb_true_iff in Hw as [Hs He].
  destruct kv as [|a [|b rest]]; cbn [startswith] in Hs;
    rewrite ?andb_false_r in Hs; try discriminate Hs.
  apply andb_true_iff in Hs as [Ha Hs]. apply andb_true_iff in Hs as [Hb _].
  apply N.eqb_eq in Ha, Hb. subst a b.
  destruct rest as [|c rest _] using rev_ind.
  - discriminate He.
  - exists rest. cbn [app]. do 2 f_equal. f_equal.
    change (36 :: 123 :: rest ++ [c]) with ([36; 123] ++ rest ++ [c]) in He.
    rewrite !rev_app_distr in He. cbn [rev app startswith] in He.
    apply andb_true_iff in He as [Hc _]. apply N.eqb_eq in Hc. congruence.
Qed.

Lemma wrapped_truthy var : truthy (wrapped var) = true.
Proof. reflexivity. Qed.

Lemma resolve_wrapped env var :
  _resolve_api_key env (Some (wrapped var))
  = (env !! var,
     if negb (truthy_opt (env !! var))
     then [(ERROR, lit "API Key environment variable '" ++ var ++ lit "' not found!")]
     else []).
Proof.
  unfold _resolve_api_key.
  pose proof (wrapped_is_wrapped var) as Hw. unfold is_wrapped in Hw.
  rewrite wrapped_truthy. cbn [andb]. rewrite Hw.
  rewrite slice_wrapped. reflexivity.
Qed.

Lemma resolve_plain env kv :
  is_wrapped kv = false ->
  fst (_resolve_api_key env (Some kv))
  = if truthy_opt (env !! kv) then env !! kv else Some kv.
Proof.
  intros Hw. unfold _resolve_api_key. unfold is_wrapped in Hw.
  rewrite <- andb_assoc, Hw, andb_false_r.
  unfold os_getenv, py_str. destruct (truthy_opt (env !! kv)); reflexivity.
Qed.

Lemma init_try_healthy cfg h engine r :
  healthy cfg h engine ->
  exists r', init_try cfg h r = (Next tt, r')
    /\ vars r' = ready_with engine
    /\ (truthy_opt (fst (_resolve_api_key (environ h) (llm_api_key cfg))) = false ->
        (WARNING, lit "Chat API Key seems unresolved.") ∈ logged r').
Proof.
  intros [Hf Hp Hi Hs (names & Hn & Hin) [Hc1 Hc2] [He1 He2] Hcm Hem Henc Hctx Heng].
  unfold init_try.
  assert (Hmiss : List.filter (fun f => negb (exists_in_output h f)) required_files = []).
  { unfold required_files in *.
    repeat match goal with
           | H : Forall _ (_ :: _) |- _ => apply Forall_cons in H; destruct H
           end.
    unfold exists_in_output. cbn [List.filter].
    repeat match goal with
           | H : _ ∈ output_dir h |- _ => rewrite (bool_decide_eq_true_2 _ H); clear H
           end.
    cbn [negb]. reflexivity. }
  rewrite Hmiss.
  unfold mbind, mret, call, log, logs, return_, assign, when.
  rewrite !Hp, !Hi, Hs, Hn, (bool_decide_eq_true_2 _ Hin), Hc1, Hc2, He1, He2,
    Hcm, Hem, Hctx, Heng.
  cbn [negb orb].
  destruct (exists_in_output h COVARIATE_TABLE);
  destruct (truthy_opt (_resolve_api_key (environ h) (llm_api_key cfg)).1);
  destruct (truthy_opt (_resolve_api_key (environ h) (embedding_api_key cfg)).1);
  cbn [negb mret];
  (destruct Henc as [Henc|Henc];
   [rewrite Henc | destruct (encoding_for_model h); [|rewrite Henc]]);
  (eexists; split; [reflexivity|]; split; [reflexivity|]);
  cbn [logged vars]; intros Hu; try discriminate Hu;
  rewrite ?elem_of_app, ?list_elem_of_singleton; auto 10.
Qed.

Lemma init_attempt_healthy cfg h engine r :
  healthy cfg h engine ->
  vars (init_attempt cfg h r) = ready_with engine
  /\ (truthy_opt (fst (_resolve_api_key (environ h) (llm_api_key cfg))) = false ->
      (WARNING, lit "Chat API Key seems unresolved.") ∈ logged (init_attempt cfg h r)).
Proof.
  intros Hh. destruct (init_try_healthy cfg h engine r Hh) as (r' & Hr & Hv & Hl).
  unfold init_attempt. rewrite Hr. auto.
Qed.

Lemma indexed_host_healthy engine :
  healthy sample_settings (indexed_host engine) engine.
Proof.
  split; try reflexivity.
  - apply Forall_forall. intros f Hf.
    cbn [indexed_host output_dir]. apply elem_of_list_to_set. exact Hf.
  - exists [LANCEDB_COLLECTION_NAME]. split; [reflexivity | apply list_elem_of_here].
  - split; reflexivity.
  - split; reflexivity.
  - left. reflexivity.
Qed.

(** C9 (amended).  A configured value wrapped as [${VAR}] resolves to the
    value of the environment variable [VAR], and to nothing when [VAR] is
    unset; when it is unset or empty an error record is logged, and the
    initialisation goes on: on a healthy host it still reaches READY, with the
    warning that the chat key seems unresolved.  Any other value resolves to
    the environment variable of that very name when it is set and not empty,
    and to the value itself, as a literal key, otherwise. *)
Theorem resolve_api_key_cases env :
  (forall var,
     fst (_resolve_api_key env (Some (wrapped var))) = env !! var
     /\ (truthy_opt (env !! var) = false ->
         (ERROR, lit "API Key environment variable '" ++ var ++ lit "' not found!")
         ∈ snd (_resolve_api_key env (Some (wrapped var)))))
  /\ (forall kv, is_wrapped kv = false ->
        fst (_resolve_api_key env (Some kv))
        = if truthy_opt (env !! kv) then env !! kv else Some kv)
  /\ (forall cfg h engine r,
        environ h = env ->
        healthy cfg h engine ->
        _initialized (vars (init_attempt cfg h r)) = true
        /\ (truthy_opt (fst (_resolve_api_key env (llm_api_key cfg))) = false ->
            (WARNING, lit "Chat API Key seems unresolved.")
            ∈ logged (init_attempt cfg h r))).
Proof.
  split; [|split].
  - intros var. rewrite resolve_wrapped. cbn [fst snd]. split; [reflexivity|].
    intros ->. apply list_elem_of_here.
  - apply resolve_plain.
  - intros cfg h engine r <- Hh.
    destruct (init_attempt_healthy cfg h engine r Hh) as [Hv Hl].
    rewrite Hv. split; [reflexivity | exact Hl].
Qed.

Lemma resolve_api_key_cases_witness :
  let engine := engine_of (fun _ => Ok PyNone) in
  let start := {| vars := module_start; logged := [] |} in
  let after := init_attempt sample_settings (indexed_host engine) start in
  fst (_resolve_api_key ∅ (Some (wrapped (lit "OPENAI_API_KEY")))) = None
  /\ _initialized (vars after) = true
  /\ (WARNING, lit "Chat API Key seems unresolved.") ∈ logged after.
Proof.
  intros engine start after.
  destruct (resolve_api_key_cases ∅) as (Hw & _ & Hinit).
  destruct (Hw (lit "OPENAI_API_KEY")) as [Hvalue _].
  destruct (Hinit sample_settings (indexed_host engine) engine start eq_refl
              (indexed_host_healthy engine)) as [Hready Hwarn].
  split; [rewrite Hvalue; apply lookup_empty|].
  split; [exact Hready|].
  apply Hwarn. change (llm_api_key sample_settings)
    with (Some (wrapped (lit "OPENAI_API_KEY"))).
  rewrite Hvalue, lookup_empty. reflexivity.
Defined.

(** A key that names a set environment variable is not used as a literal:
    with [MY_KEY=secret] in the environment, the configured value [MY_KEY]
    resolves to [secret]. *)
Lemma plain_key_naming_a_variable_is_replaced :
  let env : gmap (list N) (list N) := {[ lit "MY_KEY" := lit "secret" ]} in
  fst (_resolve_api_key env (Some (lit "MY_KEY"))) = Some (lit "secret")
  /\ fst (_resolve_api_key env (Some (lit "MY_KEY"))) <> Some (lit "MY_KEY").
Proof. split; [vm_compute; reflexivity | vm_compute; discriminate]. Qed.

End api_key_facts.

(** ** The topic store *)

Module storage_facts.
Import storage.

Section with_unicode.
Context `{Unicode}.

Lemma ascii_space_small c : ascii_isspace c = true -> c <= 32.
Proof.
  unfold ascii_isspace.
  rewrite orb_true_iff, !andb_true_iff, !N.leb_le. lia.
Qed.

Lemma safe_char_large c :
  ascii_isalnum c || (c =? 45) || (c =? 95) = true -> 45 <= c.
Proof.
  unfold ascii_isalnum.
  rewrite !orb_true_iff, !andb_true_iff, !N.leb_le, !N.eqb_eq. lia.
Qed.

Lemma safe_char_not_space c : safe_char c = true -> isspace c = false.
Proof.
  unfold safe_char, isalnum, isspace.
  destruct (N.ltb_spec c 128) as [Hlt|Hge]; intros Hs.
  - apply safe_char_large in Hs.
    destruct (ascii_isspace c) eqn:Hsp; [|reflexivity].
    apply ascii_space_small in Hsp. lia.
  - destruct (N.eqb_spec c 45); [lia|]. destruct (N.eqb_spec c 95); [lia|].
    rewrite !orb_false_r in Hs. apply alnum_not_space. exact Hs.
Qed.

Lemma rstrip_safe s : Forall (fun c => safe_char c = true) s -> rstrip s = s.
Proof.
  intros Hs. unfold rstrip.
  destruct s as [|c s _] using rev_ind; [reflexivity|].
  rewrite rev_app_distr. cbn [rev app lstrip].
  apply Forall_app in Hs as [_ Hc]. inversion Hc as [|? ? Hc' _]; subst.
  rewrite (safe_char_not_space c Hc').
  change (c :: rev s) with ([c] ++ rev s).
  rewrite rev_app_distr, rev_involutive. reflexivity.
Qed.

Lemma sanitized_safe topic_id : Forall (fun c => safe_char c = true) (sanitized topic_id).
Proof.
  apply Forall_forall. intros c Hc. apply list_elem_of_In in Hc.
  apply filter_In in Hc. tauto.
Qed.

Lemma get_topic_path_spec topic_id :
  _get_topic_path topic_id
  = if truthy (sanitized topic_id) then Ok (sanitized topic_id ++ lit ".json")
    else Raise (Exn ValueError (lit "Invalid topic ID provided")).
Proof.
  unfold _get_topic_path. fold (sanitized topic_id).
  rewrite (rstrip_safe _ (sanitized_safe topic_id)).
  destruct (truthy (sanitized topic_id)); reflexivity.
Qed.

Lemma get_topic_path_raises topic_id :
  raises (_get_topic_path topic_id) = true <-> sanitized topic_id = [].
Proof.
  rewrite get_topic_path_spec.
  destruct (sanitized topic_id); cbn; split; congruence.
Qed.

Lemma sanitized_idem s : Forall (fun c => safe_char c = true) s -> sanitized s = s.
Proof.
  unfold sanitized. induction 1 as [|c s Hc _ IH]; [reflexivity|].
  cbn [List.filter]. rewrite Hc, IH. reflexivity.
Qed.


Lemma delete_topic_file_cases topic_id fs :
  delete_topic_file topic_id fs
  = match sanitized topic_id with
    | [] => (false, fs)
    | _ :: _ =>
      let path := sanitized topic_id ++ lit ".json" in
      match chat_dir fs !! path with
      | None => (true, fs)
      | Some _ =>
        if bool_decide (path ∈ readonly fs) then (false, fs)
        else (true, {| chat_dir := delete path (chat_dir fs);
                       readonly := readonly fs |})
      end
    end.
Proof.
  unfold delete_topic_file. rewrite get_topic_path_spec.
  destruct (sanitized topic_id) as [|c safe] eqn:Hs; [reflexivity|].
  cbn [truthy]. cbv zeta. set (path := (c :: safe) ++ _).
  unfold os_path_exists, os_remove.
  destruct (chat_dir fs !! path) as [f|] eqn:Hf.
  - rewrite bool_decide_eq_true_2 by eauto. cbn [negb].
    destruct (bool_decide (path ∈ readonly fs)); [reflexivity|].
    cbn [chat_dir]. rewrite lookup_delete_eq.
    rewrite bool_decide_eq_false_2 by (intros [? ?]; discriminate). reflexivity.
  - rewrite bool_decide_eq_false_2 by (intros [? ?]; discriminate). reflexivity.
Qed.

(** C8.  [delete_topic_file] is idempotent: a second call in succession
    returns what the first returned and changes nothing more.  Deleting a
    topic whose file is absent succeeds.  The result is false exactly when the
    identifier sanitizes to the empty string or the file still exists after
    the attempt; so for an identifier that does not sanitize to empty and a
    file the system lets go, both calls return true. *)
Theorem delete_topic_file_idempotent topic_id fs :
  let first := delete_topic_file topic_id fs in
  let second := delete_topic_file topic_id (snd first) in
  second = first
  /\ (forall path, _get_topic_path topic_id = Ok path ->
        os_path_exists path fs = false -> first = (true, fs))
  /\ (fst first = false <->
      sanitized topic_id = []
      \/ exists path, _get_topic_path topic_id = Ok path
                      /\ os_path_exists path (snd first) = true)
  /\ (sanitized topic_id <> [] ->
      sanitized topic_id ++ lit ".json" ∉ readonly fs ->
      fst first = true /\ fst second = true).
Proof.
  cbv zeta. rewrite !delete_topic_file_cases, get_topic_path_spec.
  destruct (sanitized topic_id) as [|c safe] eqn:Hs.
  { cbn [fst snd truthy]. repeat split; try congruence; try discriminate; auto. }
  cbv zeta. cbn [truthy]. set (path := (c :: safe) ++ _).
  unfold os_path_exists.
  destruct (chat_dir fs !! path) as [f|] eqn:Hf.
  - destruct (bool_decide (path ∈ readonly fs)) eqn:Hro;
      cbn [fst snd chat_dir readonly].
    + rewrite Hf, Hro. repeat split.
      * intros p [= <-]. rewrite bool_decide_eq_true_2 by eauto. discriminate.
      * intros _. right. exists path. split; [reflexivity|].
        apply bool_decide_eq_true_2. eauto.
      * apply bool_decide_eq_true_1 in Hro. contradiction.
      * apply bool_decide_eq_true_1 in Hro. contradiction.
    + rewrite lookup_delete_eq. repeat split.
      * intros p [= <-]. rewrite bool_decide_eq_true_2 by eauto. discriminate.
      * discriminate.
      * intros [Hnil | (p & [= <-] & Hex)]; [discriminate Hnil|].
        rewrite lookup_delete_eq in Hex.
        apply bool_decide_eq_true_1 in Hex. destruct Hex; discriminate.
  - cbn [fst snd]. rewrite Hf. repeat split.
    + discriminate.
    + intros [Hnil | (p & [= <-] & Hex)]; [discriminate Hnil|].
      rewrite Hf in Hex. apply bool_decide_eq_true_1 in Hex.
      destruct Hex; discriminate.
Qed.

Lemma hex_safe c : is_hex c = true -> safe_char c = true.
Proof.
  unfold is_hex, safe_char, isalnum, ascii_isalnum.
  rewrite orb_true_iff, !andb_true_iff, !N.leb_le. intros Hc.
  assert (Hlt : c < 128) by lia. apply N.ltb_lt in Hlt. rewrite Hlt.
  apply orb_true_iff. left. apply orb_true_iff. left.
  rewrite !orb_true_iff, !andb_true_iff, !N.leb_le. lia.
Qed.

Lemma dash_safe c : (c =? 45) = true -> safe_char c = true.
Proof.
  unfold safe_char. intros ->. rewrite orb_true_r. reflexivity.
Qed.

Lemma uuid_chars_safe i s :
  uuid_chars i s = true -> Forall (fun c => safe_char c = true) s.
Proof.
  revert i. induction s as [|c s IH]; intros i Hu; [constructor|].
  cbn [uuid_chars] in Hu. apply andb_true_iff in Hu as [Hc Hs].
  constructor; [|exact (IH _ Hs)].
  destruct (bool_decide _); [apply dash_safe | apply hex_safe]; exact Hc.
Qed.

Lemma uuid_sanitized u : is_uuid u = true -> sanitized u = u /\ u <> [].
Proof.
  unfold is_uuid. intros Hu. apply andb_true_iff in Hu as [Hlen Hc].
  split; [apply sanitized_idem, (uuid_chars_safe 0), Hc|].
  intros ->. discriminate Hlen.
Qed.

Lemma load_after_save topic fs :
  sanitized (id topic) <> [] ->
  sanitized (id topic) ++ lit ".json" ∉ readonly fs ->
  load_topic (id topic) (save_topic topic fs) = Some topic.
Proof.
  intros Hne Hro. unfold load_topic, save_topic.
  rewrite get_topic_path_spec.
  destruct (sanitized (id topic)) as [|c safe] eqn:Hs; [congruence|].
  cbn [truthy]. unfold write_json.
  rewrite bool_decide_eq_false_2 by exact Hro.
  unfold os_path_exists, read_json. cbn [chat_dir].
  rewrite lookup_insert_eq.
  rewrite bool_decide_eq_true_2 by eauto. reflexivity.
Qed.

(** C7.  For a valid (non-empty) name, [create_new_topic] followed by
    [load_topic] on the identifier of the returned topic gives back a topic
    of that exact name with no message, provided the save succeeded, that is
    the file of the fresh identifier could be written. *)
Theorem create_then_load uuid4 name fs :
  is_uuid uuid4 = true ->
  name <> [] ->
  uuid4 ++ lit ".json" ∉ readonly fs ->
  let created := create_new_topic uuid4 (Some name) fs in
  fst created = {| id := uuid4; name := name; messages := [] |}
  /\ load_topic (id (fst created)) (snd created)
     = Some {| id := uuid4; name := name; messages := [] |}.
Proof.
  intros Hu Hn Hro. cbv zeta. unfold create_new_topic.
  destruct name as [|c name]; [congruence|]. cbn [truthy fst snd].
  split; [reflexivity|].
  destruct (uuid_sanitized uuid4 Hu) as [Hs Hne].
  cbn [id].
  apply (load_after_save {| id := uuid4; name := c :: name; messages := [] |});
    cbn [id]; rewrite Hs; assumption.
Qed.


Lemma first_content_some r ms m :
  first_of_role r ms m -> first_content r ms = Some (content m).
Proof.
  intros (older & newer & -> & Hr & Ho).
  induction Ho as [|m' older Hm' _ IH]; cbn [app first_content].
  - rewrite bool_decide_eq_true_2 by exact Hr. reflexivity.
  - rewrite bool_decide_eq_false_2 by exact Hm'. exact IH.
Qed.

Lemma first_content_found r ms c :
  first_content r ms = Some c -> exists m, first_of_role r ms m /\ content m = c.
Proof.
  induction ms as [|m ms IH]; cbn [first_content]; [discriminate|].
  destruct (bool_decide (role m = r)) eqn:Hm.
  - intros [= <-]. exists m. split; [|reflexivity].
    exists [], ms. apply bool_decide_eq_true_1 in Hm. auto.
  - intros Hc. destruct (IH Hc) as (m' & (older & newer & -> & Hr & Ho) & Hm').
    exists m'. split; [|exact Hm'].
    exists (m :: older), newer. apply bool_decide_eq_false_1 in Hm. auto.
Qed.

Lemma first_content_falsy r ms :
  (forall m, first_of_role r ms m -> content m = []) ->
  truthy_opt (first_content r ms) = false.
Proof.
  intros Hall. destruct (first_content r ms) as [c|] eqn:Hc; [|reflexivity].
  destruct (first_content_found r ms c Hc) as (m & Hm & <-).
  rewrite (Hall m Hm). reflexivity.
Qed.

Lemma truthy_nonempty (c : list N) : c <> [] -> truthy c = true.
Proof. destruct c; [congruence | reflexivity]. Qed.

Lemma shorten_cut c : cut_at_50 c (shorten c).
Proof.
  unfold cut_at_50, shorten, slice_to. split; intros Hlen.
  - apply Nat.ltb_lt in Hlen. rewrite Hlen. reflexivity.
  - destruct (Nat.ltb_spec 50 (length c)); [lia|].
    rewrite app_nil_r. apply take_ge. exact Hlen.
Qed.

Lemma preview_of_cases topic :
  (forall u, first_of_role (lit "user") (messages topic) u -> content u <> [] ->
     preview_of topic = shorten (content u))
  /\ (forall a,
        (forall u, first_of_role (lit "user") (messages topic) u -> content u = []) ->
        first_of_role (lit "assistant") (messages topic) a -> content a <> [] ->
        preview_of topic = shorten (content a))
  /\ (Forall (fun m => role m = lit "user" \/ role m = lit "assistant")
             (messages topic) ->
      (forall u, first_of_role (lit "user") (messages topic) u -> content u = []) ->
      (forall a, first_of_role (lit "assistant") (messages topic) a -> content a = []) ->
      preview_of topic = lit "New Topic").
Proof.
  unfold preview_of. cbv zeta. split; [|split].
  - intros u Hu Hne. rewrite (first_content_some _ _ _ Hu).
    cbn [truthy_opt default]. rewrite (truthy_nonempty _ Hne). reflexivity.
  - intros a Hnou Ha Hne. rewrite (first_content_falsy _ _ Hnou).
    rewrite (first_content_some _ _ _ Ha).
    cbn [truthy_opt default]. rewrite (truthy_nonempty _ Hne).
    destruct (messages topic) as [|m0 ms] eqn:Hms; [|reflexivity].
    destruct Ha as ([|] & ? & ? & _); discriminate.
  - intros Hroles Hnou Hnoa. rewrite (first_content_falsy _ _ Hnou).
    rewrite (first_content_falsy _ _ Hnoa).
    destruct (messages topic) as [|m0 ms]; [reflexivity|].
    inversion Hroles as [|? ? [Hr | Hr] _]; subst.
    + rewrite (Hnou m0); [reflexivity|]. exists [], ms. auto.
    + rewrite (Hnoa m0); [reflexivity|]. exists [], ms. auto.
Qed.

Lemma elem_of_insert_by {A} (key : A -> str) x y l :
  y ∈ insert_by key x l <-> y = x \/ y ∈ l.
Proof.
  induction l as [|z l IH]; cbn [insert_by].
  - rewrite list_elem_of_singleton, elem_of_nil. tauto.
  - destruct (str_le (key x) (key z)).
    + rewrite elem_of_cons. tauto.
    + rewrite !elem_of_cons, IH. tauto.
Qed.

Lemma elem_of_sort_by {A} (key : A -> str) y l :
  y ∈ sort_by key l <-> y ∈ l.
Proof.
  unfold sort_by. induction l as [|x l IH]; cbn [foldr]; [reflexivity|].
  rewrite elem_of_insert_by, elem_of_cons, IH. reflexivity.
Qed.

Lemma elem_of_list_topics fs info :
  info ∈ list_topics fs <->
  exists filename, filename ∈ os_listdir fs /\ info ∈ list_entry fs filename.
Proof.
  unfold list_topics. rewrite elem_of_sort_by.
  rewrite list_elem_of_In, in_concat. split.
  - intros (l & Hl & Hinfo). apply in_map_iff in Hl as (filename & <- & Hf).
    exists filename. rewrite !list_elem_of_In. auto.
  - intros (filename & Hf & Hinfo). exists (list_entry fs filename).
    rewrite in_map_iff, <- list_elem_of_In. split; [|exact Hinfo].
    exists filename. rewrite <- list_elem_of_In. auto.
Qed.

Lemma elem_of_list_entry fs filename info :
  info ∈ list_entry fs filename ->
  exists topic_id topic,
    load_topic topic_id fs = Some topic
    /\ info = {| info_id := id topic; info_name := name topic;
                 preview := preview_of topic |}.
Proof.
  unfold list_entry. destruct (_ && _); [|intros []%elem_of_nil].
  cbv zeta. destruct (load_topic _ fs) as [topic|] eqn:Hl; [|intros []%elem_of_nil].
  intros ->%list_elem_of_singleton. eauto.
Qed.

Lemma json_is_not_corrupted filename :
  endswith filename (lit ".json") = true ->
  endswith filename (lit ".corrupted") = false.
Proof.
  unfold endswith. destruct (rev filename) as [|c r]; [discriminate|].
  cbn [rev app startswith]. intros Hj.
  apply andb_true_iff in Hj as [Hc _]. apply N.eqb_eq in Hc. subst c.
  reflexivity.
Qed.

(** Every file named [*.json] whose topic loads has its entry in the
    listing. *)
Lemma loadable_file_is_listed fs filename topic :
  filename ∈ os_listdir fs ->
  endswith filename (lit ".json") = true ->
  load_topic (take (length filename - 5) filename) fs = Some topic ->
  {| info_id := id topic; info_name := name topic;
     preview := preview_of topic |} ∈ list_topics fs.
Proof.
  intros Hf Hj Hl. apply elem_of_list_topics. exists filename.
  split; [exact Hf|]. unfold list_entry.
  rewrite Hj, (json_is_not_corrupted _ Hj). cbn [negb andb]. cbv zeta.
  rewrite Hl. apply list_elem_of_here.
Qed.

(** [load_topic] by the file it reads. *)
Lemma load_topic_file topic_id fs t :
  load_topic topic_id fs = Some t <->
  sanitized topic_id <> []
  /\ chat_dir fs !! (sanitized topic_id ++ lit ".json") = Some (JsonTopic t).
Proof.
  unfold load_topic. rewrite get_topic_path_spec.
  destruct (sanitized topic_id) as [|c safe]; cbn [truthy].
  - split; [discriminate | intros [[] _]; reflexivity].
  - unfold os_path_exists, read_json.
    destruct (chat_dir fs !! _) as [[t'|]|] eqn:Hf.
    + rewrite bool_decide_eq_true_2 by eauto. cbn [negb].
      split; [intros [= ->]; split; [discriminate | reflexivity]|].
      intros [_ [= ->]]. reflexivity.
    + rewrite bool_decide_eq_true_2 by eauto. cbn [negb].
      split; [discriminate | intros [_ [=]]].
    + rewrite bool_decide_eq_false_2 by (intros [? ?]; discriminate). cbn [negb].
      split; [discriminate | intros [_ [=]]].
Qed.

(** A topic that loads has its entry in the listing. *)
Lemma loaded_topic_is_listed topic_id topic fs :
  load_topic topic_id fs = Some topic -> entry_of topic ∈ list_topics fs.
Proof.
  intros Hl. apply load_topic_file in Hl as [Hne Hfile].
  apply (loadable_file_is_listed fs (sanitized topic_id ++ lit ".json")).
  - unfold os_listdir. apply list_elem_of_fmap.
    exists (sanitized topic_id ++ lit ".json", JsonTopic topic).
    split; [reflexivity|]. apply elem_of_map_to_list. exact Hfile.
  - apply api_key_facts.endswith_app.
  - rewrite length_app. cbn [length].
    replace (length (sanitized topic_id) + 5 - 5)%nat
      with (length (sanitized topic_id)) by lia.
    rewrite take_app_length. apply load_topic_file.
    rewrite (sanitized_idem _ (sanitized_safe topic_id)). auto.
Qed.

Lemma entry_shows topic : shows topic (entry_of topic).
Proof.
  unfold shows, entry_of. cbn [info_id info_name preview].
  destruct (preview_of_cases topic) as (Huser & Hassistant & Hnone).
  split; [reflexivity|]. split; [reflexivity|]. split; [|split].
  - intros u Hu Hne. rewrite (Huser u Hu Hne). apply shorten_cut.
  - intros a Hnou Ha Hne. rewrite (Hassistant a Hnou Ha Hne). apply shorten_cut.
  - exact Hnone.
Qed.

(** C6 (amended).  Every topic that loads has an entry in the listing of
    [list_topics], and every entry of the listing comes from a topic that
    loads.  The entry carries the identifier and the name of the topic, and
    its preview is: the first user message cut at 50 characters when that
    message is not empty; else the first assistant message cut at 50
    characters when that one is not empty; else, for a topic whose messages
    are all of role user or assistant (among them the topic without
    messages), the text "New Topic".  Cut at 50 characters means: the first 50
    characters and an ellipsis for a longer message, the whole message and no
    ellipsis otherwise. *)
Theorem list_topics_preview fs :
  (forall topic_id topic,
     load_topic topic_id fs = Some topic ->
     exists info, info ∈ list_topics fs /\ shows topic info)
  /\ (forall info,
        info ∈ list_topics fs ->
        exists topic_id topic,
          load_topic topic_id fs = Some topic /\ shows topic info).
Proof.
  split.
  - intros topic_id topic Hl. exists (entry_of topic).
    split; [exact (loaded_topic_is_listed _ _ _ Hl) | apply entry_shows].
  - intros info Hin. apply elem_of_list_topics in Hin as (filename & _ & Hin).
    apply elem_of_list_entry in Hin as (topic_id & topic & Hload & ->).
    exists topic_id, topic. split; [exact Hload | apply (entry_shows topic)].
Qed.

End with_unicode.

Lemma create_then_load_witness :
  let uuid4 := lit "0b9c2c1e-5a51-4d09-9c57-3f1d2a6e8b47" in
  let created :=
    create_new_topic (H := ascii_text) uuid4 (Some (lit "Algebra"))
      {| chat_dir := ∅; readonly := ∅ |} in
  load_topic (H := ascii_text) (id (fst created)) (snd created) = Some algebra.
Proof.
  intros uuid4 created.
  refine (proj2 (create_then_load (H := ascii_text) uuid4 (lit "Algebra")
                   {| chat_dir := ∅; readonly := ∅ |} _ _ _)).
  - vm_compute. reflexivity.
  - discriminate.
  - cbn [readonly]. apply not_elem_of_empty.
Defined.

Lemma delete_topic_file_idempotent_witness :
  let first := delete_topic_file (H := ascii_text) (id algebra) (single_topic algebra) in
  let second := delete_topic_file (H := ascii_text) (id algebra) (snd first) in
  fst first = true /\ fst second = true.
Proof.
  refine (proj2 (proj2 (proj2
            (delete_topic_file_idempotent (H := ascii_text) (id algebra)
               (single_topic algebra)))) _ _).
  - vm_compute. discriminate.
  - cbn [single_topic readonly]. apply not_elem_of_empty.
Defined.

(** The preview of a topic without messages is "New Topic", not the empty
    text the specification gives as the last resort. *)
Lemma new_topic_preview_is_not_empty :
  map preview (list_topics (H := ascii_text) (single_topic algebra))
  = [lit "New Topic"]
  /\ map preview (list_topics (H := ascii_text) (single_topic algebra))
     <> [spec_preview algebra].
Proof. split; [vm_compute; reflexivity | vm_compute; discriminate]. Qed.

Lemma list_topics_preview_witness :
  exists info,
    info ∈ list_topics (H := ascii_text) (single_topic calculus)
    /\ info_id info = id calculus
    /\ preview info = lit "What is a derivative, and how does it relate to th...".
Proof.
  destruct (proj1 (list_topics_preview (H := ascii_text) (single_topic calculus))
              (id calculus) calculus)
    as (info & Hin & Hid & _ & Huser & _).
  - vm_compute. reflexivity.
  - exists info. split; [exact Hin|]. split; [exact Hid|].
    refine (proj1 (Huser {| role := lit "user";
                            content := lit "What is a derivative, and how does it relate to the slope of a tangent line?" |}
                     _ _) _).
    + exists [], [ {| role := lit "assistant";
                     content := lit "The derivative measures the rate of change." |} ].
      split; [reflexivity|]. split; [reflexivity | constructor].
    + discriminate.
    + vm_compute. lia.
Defined.

End storage_facts.

(** ** The streaming adapter *)

Module stream_facts.
Import storage graphrag_processor main.

Lemma gbind_stmt {A B} (m : G A) (k : A -> G B) d o a mh :
  gbind (stmt m) k (mk d o a mh)
  = match mh with
    | Some (O, e) => (Raise e, mk d o a None)
    | Some (S n, e) => gbind m k (mk d o a (Some (n, e)))
    | None => gbind m k (mk d o a None)
    end.
Proof. destruct mh as [[[|n] e]|]; reflexivity. Qed.

Lemma stmt_last {A} (m : G A) d o a mh :
  stmt m (mk d o a mh)
  = match mh with
    | Some (O, e) => (Raise e, mk d o a None)
    | Some (S n, e) => m (mk d o a (Some (n, e)))
    | None => m (mk d o a None)
    end.
Proof. destruct mh as [[[|n] e]|]; reflexivity. Qed.

Lemma gbind_gret {A B} (x : A) (k : A -> G B) s : gbind (gret x) k s = k x s.
Proof. reflexivity. Qed.

Lemma gbind_yield {B} ev (k : unit -> G B) d o a mh :
  gbind (yield ev) k (mk d o a mh) = k tt (mk d (o ++ [ev]) a mh).
Proof. reflexivity. Qed.

Lemma gbind_sleep {B} (k : unit -> G B) s : gbind sleep k s = k tt s.
Proof. reflexivity. Qed.

Lemma gbind_store {A B} (f : filesystem -> A * filesystem) (k : A -> G B) d o a mh :
  gbind (store f) k (mk d o a mh) = k (fst (f d)) (mk (snd (f d)) o a mh).
Proof. unfold gbind, store, mk. cbn [disk sent asked mishap]. destruct (f d); reflexivity. Qed.

Lemma gbind_query {B} g q h (k : str -> G B) d o a mh reply :
  query_rag g q (Some h) = Ok reply ->
  gbind (await_query_rag g q h) k (mk d o a mh) = k reply (mk d o (a ++ [(q, h)]) mh).
Proof. intros Hq. unfold gbind, await_query_rag, mk. cbn [disk sent asked mishap]. rewrite Hq. reflexivity. Qed.

Lemma gbind_assoc {A B C} (m : G A) (k : A -> G B) (k' : B -> G C) s :
  gbind (gbind m k) k' s = gbind m (fun x => gbind (k x) k') s.
Proof. unfold gbind. destruct (m s) as [[x|e] s']; reflexivity. Qed.

Lemma yield_run ev d o a mh :
  yield ev (mk d o a mh) = (Ok tt, mk d (o ++ [ev]) a mh).
Proof. reflexivity. Qed.


Ltac run :=
  repeat first
    [ rewrite gbind_assoc | rewrite gbind_gret | rewrite gbind_yield
    | rewrite gbind_sleep | rewrite gbind_store | rewrite gbind_stmt
    | rewrite stmt_last | rewrite yield_run ];
  cbn [fst snd].

Lemma loop_run reply : forall buf d o a mh,
  match for_each reply send_char buf (mk d o a mh) with
  | (Ok b, s') =>
    b = buf ++ reply /\ disk s' = d /\ asked s' = a
    /\ sent s' = o ++ chunk_events reply
  | (Raise _, s') =>
    disk s' = d /\ asked s' = a
    /\ exists k, sent s' = o ++ chunk_events (take k reply)
  end.
Proof.
  induction reply as [|c reply IH]; intros buf d o a mh.
  - cbn. rewrite !app_nil_r. auto.
  - assert (Hnext : forall mh',
      match for_each reply send_char (buf ++ [c]) (mk d (o ++ [ev_chunk [c]]) a mh') with
      | (Ok b, s') =>
        b = buf ++ c :: reply /\ disk s' = d /\ asked s' = a
        /\ sent s' = o ++ chunk_events (c :: reply)
      | (Raise _, s') =>
        disk s' = d /\ asked s' = a
        /\ exists k, sent s' = o ++ chunk_events (take k (c :: reply))
      end).
    { intros mh'. specialize (IH (buf ++ [c]) d (o ++ [ev_chunk [c]]) a mh').
      destruct (for_each reply send_char _ _) as [[b|e] s'].
      - destruct IH as (-> & Hd & Ha & Hs). rewrite <- !app_assoc in *. auto.
      - destruct IH as (Hd & Ha & k & Hs). split; [exact Hd|]. split; [exact Ha|].
        exists (S k). rewrite Hs, <- app_assoc. reflexivity. }
    assert (Hstop0 : exists k : nat, o = o ++ chunk_events (take k (c :: reply))).
    { exists 0%nat. rewrite app_nil_r. reflexivity. }
    assert (Hstop1 : exists k : nat,
               o ++ [ev_chunk [c]] = o ++ chunk_events (take k (c :: reply))).
    { exists 1%nat. reflexivity. }
    cbn [for_each]. unfold send_char at 1. run.
    destruct mh as [[[|[|[|n]]] e]|]; run; cbn [mk disk asked sent];
      first [ apply Hnext | auto ].
Qed.

Lemma raises_only_gret {A} P (x : A) : raises_only P (gret x).
Proof. intros s Hs. exact Hs. Qed.

Lemma raises_only_yield P ev : raises_only P (yield ev).
Proof. intros s Hs. exact Hs. Qed.

Lemma raises_only_sleep P : raises_only P sleep.
Proof. intros s Hs. exact Hs. Qed.

Lemma raises_only_store {A} P (f : filesystem -> A * filesystem) :
  raises_only P (store f).
Proof. intros s Hs. unfold store. destruct (f (disk s)). exact Hs. Qed.

Lemma raises_only_gbind {A B} P (m : G A) (k : A -> G B) :
  raises_only P m -> (forall x, raises_only P (k x)) -> raises_only P (gbind m k).
Proof.
  intros Hm Hk s Hs. unfold gbind. specialize (Hm s Hs).
  destruct (m s) as [[x|e] s']; [apply Hk; exact Hm | exact Hm].
Qed.

Lemma raises_only_tick P : raises_only P tick.
Proof.
  intros s Hs. unfold tick. destruct (mishap s) as [[[|n] e]|] eqn:Hmh.
  - exact (Hs _ _ eq_refl).
  - cbn [mishap]. intros n' e' [= <- <-]. exact (Hs _ _ eq_refl).
  - rewrite Hmh. discriminate.
Qed.

Lemma raises_only_stmt {A} P (m : G A) : raises_only P m -> raises_only P (stmt m).
Proof.
  intros Hm. unfold stmt. apply raises_only_gbind; [apply raises_only_tick|].
  intros _. exact Hm.
Qed.

Lemma raises_only_for_each {A B} P (body : B -> A -> G B) xs :
  (forall acc x, raises_only P (body acc x)) ->
  forall acc, raises_only P (for_each xs body acc).
Proof.
  intros Hbody. induction xs as [|x xs IH]; intros acc; cbn [for_each].
  - apply raises_only_gret.
  - apply raises_only_gbind; [apply Hbody | exact IH].
Qed.

Lemma raises_only_query P g q h :
  (forall e, query_rag g q (Some h) = Raise e -> P e) ->
  raises_only P (await_query_rag g q h).
Proof.
  intros Hq s Hs. unfold await_query_rag.
  destruct (query_rag g q (Some h)) as [reply|e]; [exact Hs | apply Hq; reflexivity].
Qed.

(** The statements of a block, one after the other. *)
Ltac raises_only :=
  repeat lazymatch goal with
         | |- raises_only _ (stmt _) => apply raises_only_stmt
         | |- raises_only _ (gbind _ _) => apply raises_only_gbind; [|intros ?]
         | |- raises_only _ (for_each _ _ _) =>
           apply raises_only_for_each; intros ? ?
         | |- raises_only _ (gret _) => apply raises_only_gret
         | |- raises_only _ (yield _) => apply raises_only_yield
         | |- raises_only _ sleep => apply raises_only_sleep
         | |- raises_only _ (store _) => apply raises_only_store
         | |- raises_only _ (send_char _ _) => unfold send_char
         end.

Lemma gbind_query_raises {B} g q h (k : str -> G B) d o a mh e :
  query_rag g q (Some h) = Raise e ->
  gbind (await_query_rag g q h) k (mk d o a mh)
  = (Raise e, mk d o (a ++ [(q, h)]) mh).
Proof.
  intros Hq. unfold gbind, await_query_rag, mk. cbn [disk sent asked mishap].
  rewrite Hq. reflexivity.
Qed.

Section with_unicode.
Context `{Unicode}.

(** What the [try] block raises is the exception of the mishap or what
    [query_rag] raised. *)
Lemma stream_try_raises g topic_id topic q d o a mh e s' :
  stream_try g topic_id topic q (mk d o a mh) = (Raise e, s') ->
  (exists n, mh = Some (n, e))
  \/ query_rag g q (Some (slice_last 10 (messages topic))) = Raise e.
Proof.
  intros Hrun.
  set (P := fun e => (exists n, mh = Some (n, e))
                     \/ query_rag g q (Some (slice_last 10 (messages topic))) = Raise e).
  assert (Hall : raises_only P (stream_try g topic_id topic q)).
  { unfold stream_try. raises_only.
    apply raises_only_query. intros e' He'. right. exact He'. }
  specialize (Hall (mk d o a mh)). rewrite Hrun in Hall. apply Hall.
  cbn [mk mishap]. intros n e' ->. left. eauto.
Qed.

(** The [try] block of [stream_response], from any state.  When it raises,
    the events sent so far are a prefix of the start event and the chunks of
    the reply, and the reply was stored only if all of them were sent. *)
Lemma stream_try_cases g topic_id topic q d o a mh :
  let hist := slice_last 10 (messages topic) in
  let result := query_rag g q (Some hist) in
  let d1 := snd (add_message_to_topic topic_id
                   {| role := lit "assistant"; content := reply_of result |} d) in
  let whole := start_and_chunks topic_id (reply_of result) in
  match stream_try g topic_id topic q (mk d o a mh) with
  | (Ok _, s') =>
    raises result = false
    /\ disk s' = d1 /\ asked s' = a ++ [(q, hist)]
    /\ sent s' = o ++ whole ++ [ev_end topic_id (history_of (load_topic topic_id d1))]
  | (Raise _, s') =>
    (asked s' = a ++ [(q, hist)] \/ (asked s' = a /\ mh <> None))
    /\ ((disk s' = d /\ exists k, sent s' = o ++ take k whole)
        \/ (raises result = false /\ disk s' = d1 /\ sent s' = o ++ whole))
  end.
Proof.
  intros hist result d1 whole. unfold stream_try. run.
  destruct (query_rag g q (Some hist)) as [reply|eq] eqn:Hq.
  - (* the pipeline replies *)
    cbn [reply_of] in d1, whole. unfold start_and_chunks in whole.
    assert (Hloop : forall mh',
      match
        (for_each reply send_char [] ;;
         ai_message <- stmt (gret {| role := lit "assistant"; content := reply |}) ;;
         stmt (store (add_message_to_topic topic_id ai_message)) ;;
         updated_topic <- stmt (store (fun fs => (load_topic topic_id fs, fs))) ;;
         history_json <- stmt (gret (history_of updated_topic)) ;;
         stmt (yield (ev_end topic_id history_json)))%gen
          (mk d (o ++ [ev_start topic_id]) (a ++ [(q, hist)]) mh')
      with
      | (Ok _, s') =>
        raises result = false
        /\ disk s' = d1 /\ asked s' = a ++ [(q, hist)]
        /\ sent s' = o ++ whole
                      ++ [ev_end topic_id (history_of (load_topic topic_id d1))]
      | (Raise _, s') =>
        (asked s' = a ++ [(q, hist)] \/ (asked s' = a /\ mh <> None))
        /\ ((disk s' = d /\ exists k, sent s' = o ++ take k whole)
            \/ (raises result = false /\ disk s' = d1 /\ sent s' = o ++ whole))
      end).
    { intros mh'.
      pose proof (loop_run reply [] d (o ++ [ev_start topic_id]) (a ++ [(q, hist)]) mh')
        as Hrun.
      unfold gbind at 1.
      destruct (for_each reply send_char [] _) as [[b|e'] [d' o' a' mh'']];
        cbn [disk asked sent] in Hrun.
      - destruct Hrun as (_ & -> & -> & ->).
        assert (Hall : exists k,
                   (o ++ [ev_start topic_id]) ++ chunk_events reply = o ++ take k whole).
        { exists (length whole). rewrite firstn_all, <- app_assoc. reflexivity. }
        assert (Hwhole : (o ++ [ev_start topic_id]) ++ chunk_events reply = o ++ whole)
          by (rewrite <- app_assoc; reflexivity).
        fold (mk d ((o ++ [ev_start topic_id]) ++ chunk_events reply)
                (a ++ [(q, hist)]) mh'').
        destruct mh'' as [[[|[|[|[|[|n]]]]] e'']|]; run; cbn [mk disk asked sent];
          fold d1; unfold result; rewrite ?Hq; cbn [raises];
          first
            [ split; [reflexivity|]; split; [reflexivity|]; split; [reflexivity|];
              rewrite Hwhole, <- app_assoc; reflexivity
            | split; [left; reflexivity|]; left; split; [reflexivity | exact Hall]
            | split; [left; reflexivity|]; right; split; [reflexivity|];
              split; [reflexivity | exact Hwhole] ].
      - destruct Hrun as (-> & -> & k & ->). split; [left; reflexivity|].
        left. split; [reflexivity|].
        exists (S k). rewrite <- app_assoc. unfold whole, chunk_events.
        cbn [take app]. rewrite firstn_map. reflexivity. }
    destruct mh as [[[|[|[|[|n]]]] e]|]; run;
      try rewrite (gbind_query _ _ _ _ _ _ _ _ _ Hq); run;
      try apply Hloop; cbn [mk disk asked sent];
      (split; [first [left; reflexivity
                     | right; split; [reflexivity | discriminate]]|]);
      left; (split; [reflexivity|]).
    + exists 0%nat. rewrite app_nil_r. reflexivity.
    + exists 1%nat. reflexivity.
    + exists 1%nat. reflexivity.
    + exists 1%nat. reflexivity.
  - (* the pipeline raises *)
    cbn [reply_of] in d1, whole. unfold start_and_chunks in whole.
    cbn [chunk_events map] in whole.
    destruct mh as [[[|[|[|n]]] e]|]; run;
      try rewrite (gbind_query_raises _ _ _ _ _ _ _ _ _ Hq);
      cbn [mk disk asked sent].
    + split; [right; split; [reflexivity | discriminate]|].
      left. split; [reflexivity|]. exists 0%nat. rewrite app_nil_r. reflexivity.
    + split; [right; split; [reflexivity | discriminate]|].
      left. split; [reflexivity|]. exists 1%nat. reflexivity.
    + split; [right; split; [reflexivity | discriminate]|].
      left. split; [reflexivity|]. exists 1%nat. reflexivity.
    + split; [left; reflexivity|].
      left. split; [reflexivity|]. exists 1%nat. reflexivity.
    + split; [left; reflexivity|].
      left. split; [reflexivity|]. exists 1%nat. reflexivity.
Qed.

Lemma load_topic_spec topic_id fs t :
  load_topic topic_id fs = Some t <->
  sanitized topic_id <> []
  /\ chat_dir fs !! (sanitized topic_id ++ lit ".json") = Some (JsonTopic t).
Proof. exact (storage_facts.load_topic_file topic_id fs t). Qed.

Lemma add_message_persists topic_id topic m fs :
  writable_topic topic_id topic fs ->
  fst (add_message_to_topic topic_id m fs) = Some (with_message topic m)
  /\ writable_topic topic_id (with_message topic m)
       (snd (add_message_to_topic topic_id m fs)).
Proof.
  intros (Hload & Hid & Hro). unfold add_message_to_topic. rewrite Hload.
  cbn [fst snd]. fold (with_message topic m). split; [reflexivity|].
  apply load_topic_spec in Hload as [Hne Hfile].
  unfold writable_topic, save_topic.
  rewrite storage_facts.get_topic_path_spec. cbn [with_message id]. rewrite Hid.
  rewrite (storage_facts.truthy_nonempty _ Hne).
  unfold write_json. rewrite bool_decide_eq_false_2 by exact Hro.
  split; [|split; [reflexivity | exact Hro]].
  apply load_topic_spec. split; [exact Hne|]. cbn [chat_dir].
  apply lookup_insert_eq.
Qed.

(** Every run of [stream_response]: the [try] block runs to its end; or an
    [Exception] of the mishap sends it to the handler, which stores the
    apology and sends the error and the end event; or an exception that is
    no [Exception] ends the generator where it was raised. *)
Lemma stream_response_cases g topic_id topic q d o a mh :
  let hist := slice_last 10 (messages topic) in
  let result := query_rag g q (Some hist) in
  let d1 := snd (add_message_to_topic topic_id
                   {| role := lit "assistant"; content := reply_of result |} d) in
  let sorry := {| role := lit "assistant"; content := ERROR_REPLY |} in
  let whole := start_and_chunks topic_id (reply_of result) in
  let s' := snd (stream_response g topic_id topic q (mk d o a mh)) in
  (asked s' = a ++ [(q, hist)] \/ (asked s' = a /\ mh <> None))
  /\ ((raises result = false /\ disk s' = d1 /\ asked s' = a ++ [(q, hist)]
       /\ sent s' = o ++ whole
                     ++ [ev_end topic_id (history_of (load_topic topic_id d1))])
      \/ (exists n e dd k,
            mh = Some (n, e) /\ is_Exception e = true
            /\ (dd = d \/ (raises result = false /\ dd = d1 /\ k = length whole))
            /\ disk s' = snd (add_message_to_topic topic_id sorry dd)
            /\ sent s' = o ++ take k whole
                  ++ [ev_error ERROR_REPLY;
                      ev_end topic_id (history_of (load_topic topic_id (disk s')))])
      \/ (exists e k,
            is_Exception e = false
            /\ ((exists n, mh = Some (n, e)) \/ result = Raise e)
            /\ (disk s' = d \/ (raises result = false /\ disk s' = d1
                                /\ k = length whole))
            /\ sent s' = o ++ take k whole)).
Proof.
  intros hist result d1 sorry whole. cbv zeta. unfold stream_response, gtry.
  pose proof (stream_try_cases g topic_id topic q d o a mh) as Hrun.
  cbv zeta in Hrun. fold hist result d1 whole in Hrun.
  destruct (stream_try g topic_id topic q (mk d o a mh))
    as [[[]|e] [d' o' a' mh']] eqn:Htry; cbn [disk asked sent] in Hrun.
  - cbn [snd disk asked sent]. destruct Hrun as (Hr & Hd & Ha & Hs).
    split; [left; exact Ha|]. left. auto.
  - destruct Hrun as (Ha & Hshape).
    assert (Hsent : exists dd k,
               (dd = d \/ (raises result = false /\ dd = d1 /\ k = length whole))
               /\ d' = dd /\ o' = o ++ take k whole).
    { destruct Hshape as [(-> & k & ->) | (Hr & -> & ->)].
      - exists d, k. auto.
      - exists d1, (length whole). rewrite firstn_all. auto 10. }
    destruct Hsent as (dd & k & Hdd & -> & ->).
    pose proof (stream_try_raises _ _ _ _ _ _ _ _ _ _ Htry) as Hsource.
    fold hist result in Hsource.
    destruct (is_Exception e) eqn:Hx.
    + assert (Hmh : exists n, mh = Some (n, e)).
      { destruct Hsource as [Hmh | Hqe]; [exact Hmh|]. exfalso.
        destruct (query_facts.query_rag_cases g q (Some hist))
          as [(reply & Hr & _) | (engine & e0 & _ & _ & _ & Hx0 & Hr)];
          fold result in Hr; rewrite Hr in Hqe; [discriminate Hqe|].
        injection Hqe as ->. congruence. }
      destruct Hmh as [n Hmh].
      unfold stream_except. cbv zeta.
      fold (mk dd (o ++ take k whole) a' mh'). run. cbn [snd mk disk asked sent].
      split; [exact Ha|]. right. left. exists n, e, dd, k.
      rewrite <- !app_assoc. cbn [app]. auto 10.
    + cbn [snd disk asked sent]. split; [exact Ha|]. right. right.
      exists e, k. split; [exact Hx|]. split; [exact Hsource|].
      split; [|reflexivity].
      destruct Hdd as [-> | (Hr & -> & ->)]; auto.
Qed.












Lemma length_slice_last {A} n (l : list A) :
  length (slice_last n l) = Nat.min n (length l).
Proof. unfold slice_last. rewrite length_drop. lia. Qed.

Lemma slice_last_suffix {A} n (l : list A) :
  l = take (length l - n) l ++ slice_last n l.
Proof. unfold slice_last. symmetry. apply take_drop. Qed.

(** The topics the store creates are of the kind the endpoint can write
    to: a fresh topic names its own file, and appending keeps it so. *)
Lemma created_topic_is_writable uuid4 name fs :
  is_uuid uuid4 = true ->
  uuid4 ++ lit ".json" ∉ readonly fs ->
  writable_topic uuid4 (fst (create_new_topic uuid4 name fs))
    (snd (create_new_topic uuid4 name fs)).
Proof.
  intros Hu Hro. destruct (storage_facts.uuid_sanitized uuid4 Hu) as [Hs Hne].
  unfold create_new_topic. cbv zeta. cbn [fst snd].
  set (topic := {| id := uuid4; name := _; messages := [] |}).
  assert (Hro' : sanitized uuid4 ++ lit ".json" ∉ readonly fs)
    by (rewrite Hs; exact Hro).
  split; [|split].
  - apply (storage_facts.load_after_save topic); cbn [topic id]; [rewrite Hs|];
      assumption.
  - reflexivity.
  - unfold save_topic. rewrite storage_facts.get_topic_path_spec. cbn [topic id].
    rewrite (storage_facts.truthy_nonempty _ (eq_ind_r (fun l => l <> []) Hne Hs)).
    unfold write_json. rewrite bool_decide_eq_false_2 by exact Hro'.
    exact Hro'.
Qed.


Lemma post_message_stream g topic_id topic q mishap fs :
  load_topic topic_id fs = Some topic -> q <> [] ->
  let user_message := {| role := lit "user"; content := q |} in
  let fs1 := snd (add_message_to_topic topic_id user_message fs) in
  let s := snd (stream_response g topic_id topic q (mk fs1 [] [] mishap)) in
  post_message g topic_id (Ok (Some q)) mishap fs
  = {| answer := StreamingResponse (sent s); disk_after := disk s;
       asked_after := asked s |}.
Proof.
  intros Hload Hq. cbv zeta. unfold post_message.
  change (default [] (Some q)) with q.
  cbn [truthy_opt]. rewrite (storage_facts.truthy_nonempty _ Hq).
  cbn [negb]. rewrite Hload. reflexivity.
Qed.

(** What a request leaves in the file of a topic that can be written: the
    messages it held, the user message, and what the stream stored after
    it. *)
Lemma stored_after_request g topic_id topic q mishap fs :
  writable_topic topic_id topic fs ->
  q <> [] ->
  exists tail,
    load_topic topic_id (disk_after (post_message g topic_id (Ok (Some q)) mishap fs))
    = Some {| id := id topic; name := name topic;
              messages := messages topic
                ++ {| role := lit "user"; content := q |} :: tail |}.
Proof.
  intros Hw Hq. rewrite (post_message_stream _ _ _ _ _ _ (proj1 Hw) Hq).
  cbn [disk_after].
  set (user_message := {| role := lit "user"; content := q |}).
  set (sorry := {| role := lit "assistant"; content := ERROR_REPLY |}).
  set (fs1 := snd (add_message_to_topic topic_id user_message fs)).
  set (result := query_rag g q (Some (slice_last 10 (messages topic)))).
  set (ai_message := {| role := lit "assistant"; content := reply_of result |}).
  assert (Hw1 : writable_topic topic_id (with_message topic user_message) fs1)
    by (apply add_message_persists; exact Hw).
  destruct (add_message_persists topic_id _ ai_message fs1 Hw1) as [_ Hw2].
  destruct (add_message_persists topic_id _ sorry fs1 Hw1) as [_ Hw3].
  destruct (add_message_persists topic_id _ sorry _ Hw2) as [_ Hw4].
  assert (Hshow : forall t tail,
            messages t = (messages topic ++ [user_message]) ++ tail ->
            id t = id topic -> name t = name topic ->
            Some t = Some {| id := id topic; name := name topic;
                             messages := messages topic ++ user_message :: tail |}).
  { intros [i n ms] tail Hm Hi Hn. cbn in *. subst.
    rewrite <- app_assoc. reflexivity. }
  destruct (stream_response_cases g topic_id topic q fs1 [] [] mishap)
    as [_ [(_ & Hd & _) | [(n & e & dd & k & _ & _ & Hdd & Hd & _)
                          | (e & k & _ & _ & Hd & _)]]];
    cbv zeta in Hd; fold result ai_message sorry in Hd.
  - exists [ai_message]. rewrite Hd, (proj1 Hw2). apply Hshow; reflexivity.
  - cbv zeta in Hdd. fold result ai_message in Hdd.
    destruct Hdd as [-> | (_ & -> & _)]; rewrite Hd.
    + exists [sorry]. rewrite (proj1 Hw3). apply Hshow; reflexivity.
    + exists [ai_message; sorry]. rewrite (proj1 Hw4). apply Hshow;
        [cbn [with_message messages]; rewrite <- !app_assoc|..]; reflexivity.
  - destruct Hd as [-> | (_ & -> & _)].
    + exists []. rewrite (proj1 Hw1). apply Hshow;
        [cbn [with_message messages]; rewrite app_nil_r|..]; reflexivity.
    + exists [ai_message]. rewrite (proj1 Hw2). apply Hshow; reflexivity.
Qed.


(** C10.  The pipeline is called at most once per request, exactly once when
    nothing raises before the call, with the question of the request and a
    history that is the last ten messages of the topic as loaded before the
    user message was appended, all of them when there are fewer: a suffix of
    the stored messages, in their stored order, of length the smaller of 10
    and their number.  The user message of the request is saved on its own
    before the query and sits right after that suffix in the stored topic, so
    the history never holds it. *)
Theorem history_is_the_last_ten_before_the_request g topic_id topic q mishap fs :
  load_topic topic_id fs = Some topic ->
  q <> [] ->
  let r := post_message g topic_id (Ok (Some q)) mishap fs in
  exists older history,
    messages topic = older ++ history
    /\ length history = Nat.min 10 (length (messages topic))
    /\ (asked_after r = [] \/ asked_after r = [(q, history)])
    /\ (mishap = None -> asked_after r = [(q, history)])
    /\ (sanitized (id topic) = sanitized topic_id ->
        sanitized topic_id ++ lit ".json" ∉ readonly fs ->
        exists stored newer,
          load_topic topic_id (disk_after r) = Some stored
          /\ messages stored
             = older ++ history ++ {| role := lit "user"; content := q |} :: newer).
Proof.
  intros Hload Hq. cbv zeta.
  exists (take (length (messages topic) - 10) (messages topic)),
    (slice_last 10 (messages topic)).
  pose proof (slice_last_suffix 10 (messages topic)) as Hsplit.
  split; [exact Hsplit|]. split; [apply length_slice_last|].
  set (history := slice_last 10 (messages topic)) in *.
  assert (Hasked :
    asked_after (post_message g topic_id (Ok (Some q)) mishap fs) = [(q, history)]
    \/ (asked_after (post_message g topic_id (Ok (Some q)) mishap fs) = []
        /\ mishap <> None)).
  { rewrite (post_message_stream _ _ _ _ _ _ Hload Hq). cbn [asked_after].
    destruct (stream_response_cases g topic_id topic q
                (snd (add_message_to_topic topic_id
                        {| role := lit "user"; content := q |} fs)) [] [] mishap)
      as [Ha _]. exact Ha. }
  split; [destruct Hasked as [Ha | [Ha _]]; auto|].
  split; [intros ->; destruct Hasked as [Ha | [_ Hne]]; [exact Ha | congruence]|].
  intros Hid Hro.
  destruct (stored_after_request g topic_id topic q mishap fs) as [tail Hl];
    [split; [exact Hload | auto] | exact Hq|].
  eexists _, tail. split; [exact Hl|]. cbn [messages].
  rewrite Hsplit at 1. rewrite <- app_assoc. reflexivity.
Qed.

End with_unicode.



Lemma history_is_the_last_ten_before_the_request_witness :
  let r := post_message (H := ascii_text) module_start (id seminar)
             (Ok (Some (lit "question 7"))) None (single_topic seminar) in
  asked_after r = [(lit "question 7", drop 2 (messages seminar))].
Proof.
  intros r.
  destruct (history_is_the_last_ten_before_the_request (H := ascii_text)
              module_start (id seminar) seminar (lit "question 7") None
              (single_topic seminar))
    as (older & history & Hsplit & Hlen & _ & Hasked & _).
  - vm_compute. reflexivity.
  - discriminate.
  - unfold r. rewrite (Hasked eq_refl). do 3 f_equal.
    assert (Holder : length older = 2%nat).
    { apply (f_equal (@length Message)) in Hsplit.
      rewrite length_app, Hlen in Hsplit. cbn in Hsplit. lia. }
    rewrite Hsplit, <- Holder. symmetry. apply drop_app_length.
Defined.

End stream_facts.

(** ** The engine life cycle *)

Module lifecycle_facts.
Import graphrag_processor.

Lemma count_insert (f : pc -> bool) (l : list pc) i a b :
  l !! i = Some a ->
  (length (List.filter f (<[i := b]> l)) + (if f a then 1 else 0)
   = length (List.filter f l) + (if f b then 1 else 0))%nat.
Proof.
  revert i. induction l as [|x l IH]; intros [|i] Hi; try discriminate Hi.
  - injection Hi as ->. cbn [list_insert insert List.filter].
    destruct (f a), (f b); cbn [length]; lia.
  - cbn in Hi. specialize (IH i Hi).
    change (<[S i := b]> (x :: l)) with (x :: <[i := b]> l).
    cbn [List.filter]. destruct (f x); cbn [length]; lia.
Qed.

Lemma count_none (f : pc -> bool) (l : list pc) :
  length (List.filter f l) = 0%nat -> Forall (fun p => f p = false) l.
Proof.
  induction l as [|x l IH]; [constructor|].
  cbn [List.filter]. destruct (f x) eqn:Hx; [discriminate|].
  intros Hl. constructor; auto.
Qed.

Lemma count_all (f : pc -> bool) (l : list pc) :
  Forall (fun p => f p = true) l -> length (List.filter f l) = length l.
Proof.
  induction 1 as [|x l Hx _ IH]; [reflexivity|].
  cbn [List.filter]. rewrite Hx. cbn [length]. rewrite IH. reflexivity.
Qed.

Lemma remaining_insert (l : list pc) i a b :
  l !! i = Some a ->
  (foldr (fun p n => distance p + n) 0 (<[i := b]> l) + distance a
   = foldr (fun p n => distance p + n) 0 l + distance b)%nat.
Proof.
  revert i. induction l as [|x l IH]; intros [|i] Hi; try discriminate Hi.
  - injection Hi as ->. cbn [list_insert insert foldr]. lia.
  - cbn in Hi. specialize (IH i Hi).
    change (<[S i := b]> (x :: l)) with (x :: <[i := b]> l).
    cbn [foldr]. lia.
Qed.

(** Every step brings the callers closer to returning. *)
Lemma step_decreases cfg i s s' :
  step cfg i s s' -> (remaining s' < remaining s)%nat.
Proof.
  unfold remaining.
  destruct 1 as [s Hi ?|s Hi ?|s Hi ?|s Hi ?|s Hi ?|h s Hi|s Hi];
    cbn [callers move];
    match goal with
    | |- context [<[i := ?b]> _] =>
      pose proof (remaining_insert (callers s) i _ b Hi) as Hr
    end;
    cbn [distance] in Hr; lia.
Qed.

Lemma count_zero (f : pc -> bool) (l : list pc) :
  Forall (fun p => f p = false) l -> length (List.filter f l) = 0%nat.
Proof.
  induction 1 as [|x l Hx _ IH]; [reflexivity|].
  cbn [List.filter]. rewrite Hx. exact IH.
Qed.

Lemma boot_sound cfg g n : sound cfg g n (boot g n).
Proof.
  assert (Hentry : Forall (fun p => p = at_entry) (replicate n at_entry))
    by (apply Forall_replicate; reflexivity).
  assert (Hcount : forall f, f at_entry = false ->
                     length (List.filter f (replicate n at_entry)) = 0%nat).
  { intros f Hf. apply count_zero. eapply Forall_impl; [exact Hentry|].
    intros p ->. exact Hf. }
  split; unfold holders, count, ready; cbn [boot callers locked started completed
                                             shared vars].
  - apply length_replicate.
  - apply Hcount. reflexivity.
  - left. auto.
  - intros _. eapply Forall_impl; [exact Hentry|]. intros p ->. discriminate.
  - lia.
  - intros _ _. symmetry. apply Hcount. reflexivity.
  - intros _. split; [reflexivity|].
    eapply Forall_impl; [exact Hentry|]. intros p ->. reflexivity.
Qed.

Lemma holder_is_alone (l : list pc) i a :
  length (List.filter holds_lock l) = 1%nat -> l !! i = Some a ->
  holds_lock a = true ->
  Forall (fun p => holds_lock p = false) (<[i := finished]> l).
Proof.
  intros Hone Hi Ha. apply count_none.
  pose proof (count_insert holds_lock l i a finished Hi) as Hc.
  rewrite Ha in Hc. cbn [holds_lock] in Hc. lia.
Qed.

Lemma vars_entry_return (b : bool) r :
  vars (if b then log_unavailable r else r) = vars r.
Proof. destruct b; reflexivity. Qed.

Lemma not_idle_when_unavailable (l : list pc) i a :
  Forall (fun p => idle p = true) l -> l !! i = Some a -> idle a = true.
Proof. intros Hl Hi. exact (proj1 (Forall_lookup _ l) Hl i a Hi). Qed.

Lemma step_sound cfg g n i s s' :
  sound cfg g n s -> step cfg i s s' -> sound cfg g n s'.
Proof.
  intros [Hlen Hhold Honce Hno Hbound Hfail Hun] Hstep.
  unfold holders, count, ready in *.
  destruct Hstep as [s Hi Hc|s Hi Hc|s Hi Hc|s Hi Hc|s Hi Hc|h s Hi|s Hi].
  all: pose proof (fun b => count_insert holds_lock (callers s) i _ b Hi) as Hh.
  all: pose proof (fun b => count_insert past_try (callers s) i _ b Hi) as Hp.
  all: cbn [holds_lock past_try] in Hh, Hp.
  all: assert (Hidle : GRAPHRAG_AVAILABLE cfg = false ->
                       forall a, callers s !! i = Some a -> idle a = true)
         by (intros Hu a Ha;
             exact (not_idle_when_unavailable _ _ _ (proj2 (Hun Hu)) Ha)).
  all: unfold ready in *.
  all: split; unfold holders, count, ready, move;
       cbn [callers locked started completed shared vars];
       rewrite ?vars_entry_return.
  all: try (rewrite length_insert; exact Hlen).
  all: try exact Honce.
  all: try (intros Hr; apply Forall_insert; [exact (Hno Hr) | discriminate]).
  (* entry, returning *)
  - specialize (Hh finished). cbn in Hh. lia.
  - specialize (Hp finished). cbn in Hp. lia.
  - intros Hr Ha. rewrite Hr, Ha in Hc. discriminate Hc.
  - intros Hu. destruct (Hun Hu) as [Hs Hall]. split; [exact Hs|].
    apply Forall_insert; [exact Hall | reflexivity].
  (* entry, going for the lock *)
  - specialize (Hh at_lock). cbn in Hh. lia.
  - specialize (Hp at_lock). cbn in Hp. lia.
  - intros Hr Ha. specialize (Hp at_lock). cbn in Hp.
    rewrite (Hfail Hr Ha). lia.
  - intros Hu. rewrite Hu in Hc. rewrite orb_true_r in Hc. discriminate Hc.
  (* acquiring *)
  - specialize (Hh at_recheck). cbn in Hh. rewrite Hc in Hhold. lia.
  - specialize (Hp at_recheck). cbn in Hp. lia.
  - intros Hr Ha. specialize (Hp at_recheck). cbn in Hp.
    rewrite (Hfail Hr Ha). lia.
  - intros Hu. discriminate (Hidle Hu _ Hi).
  (* re-check, READY *)
  - specialize (Hh at_release). cbn in Hh. lia.
  - specialize (Hp at_release). cbn in Hp. lia.
  - intros Hr. rewrite Hr in Hc. discriminate Hc.
  - intros Hu. discriminate (Hidle Hu _ Hi).
  (* re-check, not READY *)
  - specialize (Hh at_try). cbn in Hh. lia.
  - intros Hr. rewrite Hr in Hc. discriminate Hc.
  - specialize (Hp at_try). cbn in Hp. lia.
  - intros Hr Ha. specialize (Hp at_try). cbn in Hp.
    rewrite (Hfail Hr Ha). lia.
  - intros Hu. discriminate (Hidle Hu _ Hi).
  (* the try block *)
  - specialize (Hh at_release). cbn in Hh. lia.
  - assert (Hnot : _initialized (vars (shared s)) = false).
    { destruct (_initialized (vars (shared s))) eqn:Hr; [|reflexivity].
      exfalso. exact (proj1 (Forall_lookup _ _) (Hno eq_refl) i _ Hi eq_refl). }
    destruct Honce as [[Hz Hg] | (_ & Hr & _)]; [|congruence].
    rewrite Hnot in Hg.
    destruct (_initialized (vars (init_attempt cfg h (shared s)))); auto.
  - intros _.
    assert (Hone : length (List.filter holds_lock (callers s)) = 1%nat).
    { specialize (Hh finished). cbn in Hh. destruct (locked s); lia. }
    pose proof (holder_is_alone _ _ _ Hone Hi eq_refl) as Halone.
    rewrite <- (list_insert_insert_eq (callers s) i at_release finished).
    apply Forall_insert; [|discriminate].
    eapply Forall_impl; [exact Halone|]. intros p Hpp ->. discriminate Hpp.
  - specialize (Hp at_release). cbn in Hp. lia.
  - intros _ Ha. specialize (Hp at_release). cbn in Hp.
    assert (Hnot : _initialized (vars (shared s)) = false).
    { destruct (_initialized (vars (shared s))) eqn:Hr; [|reflexivity].
      exfalso. exact (proj1 (Forall_lookup _ _) (Hno eq_refl) i _ Hi eq_refl). }
    rewrite (Hfail Hnot Ha). lia.
  - intros Hu. discriminate (Hidle Hu _ Hi).
  (* releasing *)
  - specialize (Hh finished). cbn in Hh. destruct (locked s); lia.
  - specialize (Hp finished). cbn in Hp. lia.
  - intros Hr Ha. specialize (Hp finished). cbn in Hp.
    rewrite (Hfail Hr Ha). lia.
  - intros Hu. discriminate (Hidle Hu _ Hi).
Qed.

Lemma reachable_sound cfg g n s : reachable cfg g n s -> sound cfg g n s.
Proof.
  unfold reachable. revert s. apply rtc_ind_r; [apply boot_sound|].
  intros s s' _ [i Hstep] IH. exact (step_sound _ _ _ _ _ _ IH Hstep).
Qed.

(** A step is the one [advance] computes. *)
Lemma step_advance cfg i s s' :
  step cfg i s s' -> exists h, s' = advance cfg h i s.
Proof.
  destruct 1 as [s Hi Hc|s Hi Hc|s Hi Hc|s Hi Hc|s Hi Hc|h s Hi|s Hi];
    try (exists h); try (exists bare_host); unfold advance; rewrite Hi, ?Hc;
    reflexivity.
Qed.

Lemma advance_step cfg h i s :
  advance cfg h i s = s \/ step cfg i s (advance cfg h i s).
Proof.
  unfold advance. destruct (callers s !! i) as [[| | | | |]|] eqn:Hi; auto.
  - right. destruct (ready s || negb (GRAPHRAG_AVAILABLE cfg)) eqn:Hc.
    + apply step_entry_return; assumption.
    + apply step_entry_go; assumption.
  - destruct (locked s) eqn:Hl; [auto|]. right. apply step_acquire; assumption.
  - right. destruct (ready s) eqn:Hr.
    + apply step_recheck_return; assumption.
    + apply step_recheck_go; assumption.
  - right. apply step_try. assumption.
  - right. apply step_release. assumption.
Qed.

Lemma schedule_reachable cfg g n turns : forall s,
  reachable cfg g n s -> reachable cfg g n (schedule cfg turns s).
Proof.
  unfold schedule.
  induction turns as [|[i h] turns IH]; intros s Hs; [exact Hs|].
  cbn [foldl fst snd]. apply IH.
  destruct (advance_step cfg h i s) as [-> | Hstep]; [exact Hs|].
  eapply rtc_r; [exact Hs | exists i; exact Hstep].
Qed.

Lemma waiting_caller_is_blocked cfg i s s' :
  locked s = true -> callers s !! i = Some at_lock -> ~ step cfg i s s'.
Proof.
  intros Hl Hi Hstep. inversion Hstep; subst; congruence.
Qed.

Lemma progress cfg g n s :
  sound cfg g n s -> ~ quiescent s -> exists s', any_step cfg s s'.
Proof.
  intros Hs Hq. unfold quiescent in Hq.
  apply not_Forall_Exists in Hq; [|intros p; apply _].
  apply Exists_exists in Hq as (p & Hp & Hne).
  apply list_elem_of_lookup in Hp as [i Hi].
  assert (Hmove : forall j q, callers s !! j = Some q -> q <> finished ->
                    (q = at_lock -> locked s = false) ->
                    exists s', any_step cfg s s').
  { intros j q Hj Hq Hl.
    destruct (advance_step cfg bare_host j s) as [Hsame | Hstep];
      [|exists (advance cfg bare_host j s), j; exact Hstep].
    exfalso. unfold advance in Hsame. rewrite Hj in Hsame.
    destruct q; try congruence.
    - destruct (ready s || negb (GRAPHRAG_AVAILABLE cfg));
        apply (f_equal callers) in Hsame; cbn [callers move] in Hsame;
        apply (f_equal (fun l => l !! j)) in Hsame;
        rewrite list_lookup_insert_eq in Hsame
          by (apply lookup_lt_Some in Hj; exact Hj); congruence.
    - rewrite (Hl eq_refl) in Hsame.
      apply (f_equal locked) in Hsame. cbn in Hsame. rewrite (Hl eq_refl) in Hsame.
      discriminate.
    - destruct (ready s);
        apply (f_equal callers) in Hsame; cbn [callers move] in Hsame;
        apply (f_equal (fun l => l !! j)) in Hsame;
        rewrite list_lookup_insert_eq in Hsame
          by (apply lookup_lt_Some in Hj; exact Hj); congruence.
    - apply (f_equal callers) in Hsame; cbn [callers] in Hsame;
        apply (f_equal (fun l => l !! j)) in Hsame;
        rewrite list_lookup_insert_eq in Hsame
          by (apply lookup_lt_Some in Hj; exact Hj); congruence.
    - apply (f_equal callers) in Hsame; cbn [callers] in Hsame;
        apply (f_equal (fun l => l !! j)) in Hsame;
        rewrite list_lookup_insert_eq in Hsame
          by (apply lookup_lt_Some in Hj; exact Hj); congruence. }
  destruct (decide (p = at_lock /\ locked s = true)) as [[-> Hl]|Hfree].
  - (* the lock is held: its holder can move *)
    pose proof (one_holder _ _ _ _ Hs) as Hh. rewrite Hl in Hh. unfold holders in Hh.
    destruct (List.filter holds_lock (callers s)) as [|q qs] eqn:Hf;
      [discriminate Hh|].
    assert (Hin : In q (List.filter holds_lock (callers s)))
      by (rewrite Hf; left; reflexivity).
    apply filter_In in Hin as [Hin Hq].
    apply list_elem_of_In, list_elem_of_lookup in Hin as [j Hj].
    apply (Hmove j q Hj); intros ->; discriminate Hq.
  - apply (Hmove i p Hi Hne). intros ->.
    destruct (locked s) eqn:Hl; [|reflexivity]. exfalso. apply Hfree. auto.
Qed.

Lemma quiescent_outcome cfg g n s :
  sound cfg g n s -> quiescent s ->
  locked s = false
  /\ (ready s = true -> _initialized g = false -> completed s = 1%nat)
  /\ (ready s = false ->
      completed s = 0%nat /\ (GRAPHRAG_AVAILABLE cfg = true -> started s = n)).
Proof.
  intros [Hlen Hhold Honce Hno Hbound Hfail Hun] Hq. unfold quiescent in Hq.
  split; [|split].
  - unfold holders in Hhold. rewrite count_zero in Hhold.
    + destruct (locked s); [discriminate Hhold | reflexivity].
    + eapply Forall_impl; [exact Hq|]. intros p ->. reflexivity.
  - intros Hr Hg. destruct Honce as [[_ Hs] | [Hc _]]; [congruence | exact Hc].
  - intros Hr. split.
    + destruct Honce as [[Hc _] | (_ & Hs & _)]; [exact Hc | congruence].
    + intros Ha. rewrite (Hfail Hr Ha). unfold count. rewrite count_all.
      * exact Hlen.
      * eapply Forall_impl; [exact Hq|]. intros p ->. reflexivity.
Qed.

(** C2 (amended).  In every state that concurrent callers of
    [initialize_rag] can reach: at most one caller is inside the locked
    region, and the lock is held exactly then; at most one initialisation
    sequence completes, and from an uninitialised start the state is READY
    exactly when one has; once READY no caller is about to run the sequence.
    A caller that finds READY at entry returns at once, touching neither the
    lock nor the globals; a caller that arrives while the lock is held cannot
    move before the release, and its first step after acquiring is the second
    test of the state.  Some caller can always move until all have returned,
    and every step brings that closer.  When all have returned the lock is
    free and all see the one shared state: READY with exactly one completed
    sequence, or not READY with none completed, in which case (the modules
    being available) every one of the [n] callers has run the sequence and
    failed. *)
Theorem initialization_is_exclusive cfg g n s :
  reachable cfg g n s ->
  ((holders s <= 1)%nat /\ (locked s = true <-> holders s = 1%nat))
  /\ ((completed s <= 1)%nat
      /\ (_initialized g = false -> (ready s = true <-> completed s = 1%nat)))
  /\ (ready s = true -> Forall (fun p => p <> at_try) (callers s))
  /\ (forall i s', GRAPHRAG_AVAILABLE cfg = true -> ready s = true ->
        callers s !! i = Some at_entry -> step cfg i s s' ->
        s' = move i finished s)
  /\ (forall i s', locked s = true -> callers s !! i = Some at_lock ->
        ~ step cfg i s s')
  /\ (forall i s', callers s !! i = Some at_recheck -> step cfg i s s' ->
        s' = move i (if ready s then at_release else at_try) s)
  /\ (~ quiescent s -> exists s', any_step cfg s s')
  /\ (forall s', any_step cfg s s' -> (remaining s' < remaining s)%nat)
  /\ (quiescent s ->
      locked s = false
      /\ (ready s = true -> _initialized g = false -> completed s = 1%nat)
      /\ (ready s = false ->
          completed s = 0%nat
          /\ (GRAPHRAG_AVAILABLE cfg = true -> started s = n))).
Proof.
  intros Hr. pose proof (reachable_sound _ _ _ _ Hr) as Hs.
  pose proof (one_holder _ _ _ _ Hs) as Hhold.
  pose proof (once _ _ _ _ Hs) as Honce.
  split; [|split; [|split; [|split; [|split; [|split; [|split; [|split]]]]]]].
  - split; [rewrite Hhold; destruct (locked s); lia|]. split.
    + intros Hl. rewrite Hhold, Hl. reflexivity.
    + intros Hh. rewrite Hhold in Hh.
      destruct (locked s); [reflexivity | discriminate].
  - split; [destruct Honce as [[-> _] | [-> _]]; lia|]. intros Hg. split.
    + intros Hready. destruct Honce as [[_ Hi] | [Hc _]]; [congruence | exact Hc].
    + intros Hc. destruct Honce as [[Hz _] | (_ & Hready & _)]; [lia | exact Hready].
  - exact (no_rerun _ _ _ _ Hs).
  - intros i s' Ha Hready Hi Hstep.
    destruct (step_advance _ _ _ _ Hstep) as [h ->].
    unfold advance. rewrite Hi, Hready, Ha. reflexivity.
  - intros i s' Hl Hi. exact (waiting_caller_is_blocked cfg i s s' Hl Hi).
  - intros i s' Hi Hstep.
    destruct (step_advance _ _ _ _ Hstep) as [h ->].
    unfold advance. rewrite Hi. destruct (ready s); reflexivity.
  - exact (progress _ _ _ _ Hs).
  - intros s' [i Hstep]. exact (step_decreases _ _ _ _ Hstep).
  - exact (quiescent_outcome _ _ _ _ Hs).
Qed.

Lemma boot_reachable cfg g n : reachable cfg g n (boot g n).
Proof. apply rtc_refl. Qed.

(** When initialisation fails it runs once per caller, not once: on a host
    where the construction of the engine raises, two callers, one after the
    other, both run the [try] block up to that last step and both fail; two
    sequences were started and none completed, so neither count is one. *)
Lemma failing_initialisation_runs_once_per_caller :
  let s := schedule sample_settings (one_after_the_other engineless_host)
             (boot module_start 2) in
  reachable sample_settings module_start 2 s
  /\ quiescent s /\ started s = 2%nat /\ completed s = 0%nat
  /\ ready s = false /\ _model_manager (vars (shared s)) = true
  /\ ~ exactly_one_initialisation started
  /\ ~ exactly_one_initialisation completed.
Proof.
  intros s.
  assert (Hr : reachable sample_settings module_start 2 s)
    by apply schedule_reachable, boot_reachable.
  assert (Hq : quiescent s) by (vm_compute; repeat constructor).
  assert (Hs : started s = 2%nat) by (vm_compute; reflexivity).
  assert (Hc : completed s = 0%nat) by (vm_compute; reflexivity).
  split; [exact Hr|]. split; [exact Hq|]. split; [exact Hs|]. split; [exact Hc|].
  split; [vm_compute; reflexivity|]. split; [vm_compute; reflexivity|].
  split; intros Hclaim;
    specialize (Hclaim sample_settings 2%nat s (le_n 2) Hr Hq); congruence.
Qed.

Lemma initialization_is_exclusive_witness :
  let engine := engine_of (fun _ => Ok PyNone) in
  let s := schedule sample_settings (second_arrives_meanwhile (indexed_host engine))
             (boot module_start 2) in
  quiescent s /\ ready s = true /\ started s = 1%nat
  /\ completed s = 1%nat /\ locked s = false.
Proof.
  intros engine s.
  assert (Hr : reachable sample_settings module_start 2 s)
    by apply schedule_reachable, boot_reachable.
  assert (Hq : quiescent s) by (vm_compute; repeat constructor).
  assert (Hready : ready s = true) by (vm_compute; reflexivity).
  assert (Hs : started s = 1%nat) by (vm_compute; reflexivity).
  destruct (initialization_is_exclusive sample_settings module_start 2 s Hr)
    as (_ & _ & _ & _ & _ & _ & _ & _ & Hend).
  destruct (Hend Hq) as (Hfree & Hdone & _).
  exact (conj Hq (conj Hready (conj Hs (conj (Hdone Hready eq_refl) Hfree)))).
Defined.

End lifecycle_facts.

(** ** Text, further *)

Module text_laws.

Lemma str_le_refl a : str_le a a = true.
Proof.
  induction a as [|x a IH]; [reflexivity|].
  cbn [str_le]. rewrite N.ltb_irrefl. exact IH.
Qed.

Lemma str_le_total a : forall b, str_le a b = false -> str_le b a = true.
Proof.
  induction a as [|x a IH]; intros [|y b]; cbn [str_le]; try discriminate;
    try reflexivity.
  destruct (N.ltb_spec x y) as [Hxy|Hxy]; [discriminate|].
  destruct (N.ltb_spec y x) as [Hyx|Hyx]; [reflexivity|].
  apply IH.
Qed.

Lemma str_le_trans a : forall b c,
  str_le a b = true -> str_le b c = true -> str_le a c = true.
Proof.
  induction a as [|x a IH]; intros [|y b] [|z c]; cbn [str_le];
    try discriminate; try reflexivity.
  destruct (N.ltb_spec x y) as [Hxy|Hxy].
  - intros _. destruct (N.ltb_spec y z) as [Hyz|Hyz].
    + intros _. destruct (N.ltb_spec x z); [reflexivity | lia].
    + destruct (N.ltb_spec z y) as [Hzy|Hzy]; [discriminate|].
      intros _. destruct (N.ltb_spec x z); [reflexivity | lia].
  - destruct (N.ltb_spec y x) as [Hyx|Hyx]; [discriminate|].
    assert (x = y) by lia. subst y. intros Hab.
    destruct (N.ltb_spec x z) as [Hxz|Hxz]; [reflexivity|].
    destruct (N.ltb_spec z x) as [Hzx|Hzx]; [discriminate|].
    apply IH. exact Hab.
Qed.

Lemma startswith_inv p : forall s, startswith s p = true -> exists r, s = p ++ r.
Proof.
  induction p as [|c p IH]; intros s; [exists s; reflexivity|].
  destruct s as [|d s]; cbn [startswith]; [discriminate|].
  intros [Hc Hs]%andb_true_iff. apply N.eqb_eq in Hc as ->.
  destruct (IH s Hs) as [r ->]. exists r. reflexivity.
Qed.

Lemma endswith_inv s p : endswith s p = true -> exists r, s = r ++ p.
Proof.
  unfold endswith. intros [r Hr]%startswith_inv. exists (rev r).
  rewrite <- (rev_involutive s), Hr, rev_app_distr, rev_involutive. reflexivity.
Qed.

Lemma stem_json filename :
  endswith filename (lit ".json") = true ->
  take (length filename - 5) filename ++ lit ".json" = filename.
Proof.
  intros [r ->]%endswith_inv. rewrite length_app. cbn [length].
  replace (length r + 5 - 5)%nat with (length r) by lia.
  rewrite take_app_length. reflexivity.
Qed.

Lemma stem_of_path (s : list N) :
  take (length (s ++ lit ".json") - 5) (s ++ lit ".json") = s.
Proof.
  rewrite length_app. cbn [length].
  replace (length s + 5 - 5)%nat with (length s) by lia.
  apply take_app_length.
Qed.

End text_laws.

(** ** The topic store, further *)

Module store_laws.
Import storage text_laws.

Section sorting.
Context {A : Type} (key : A -> list N).

Lemma insert_by_perm x l : insert_by key x l ≡ₚ x :: l.
Proof.
  induction l as [|y l IH]; cbn [insert_by]; [reflexivity|].
  destruct (str_le (key x) (key y)); [reflexivity|].
  rewrite IH. apply Permutation_swap.
Qed.

Lemma sort_by_perm l : sort_by key l ≡ₚ l.
Proof.
  unfold sort_by. induction l as [|x l IH]; cbn [foldr]; [reflexivity|].
  rewrite insert_by_perm, IH. reflexivity.
Qed.

Lemma insert_by_in_order x l : in_order key l -> in_order key (insert_by key x l).
Proof.
  unfold in_order. induction 1 as [|y l Hl IH Hy]; cbn [insert_by].
  - repeat constructor.
  - destruct (str_le (key x) (key y)) eqn:Hxy.
    + constructor; [constructor; assumption|]. constructor; [exact Hxy|].
      eapply Forall_impl; [exact Hy|]. intros z Hz. cbn beta in *.
      exact (str_le_trans _ _ _ Hxy Hz).
    + constructor; [exact IH|].
      rewrite (insert_by_perm x l). constructor; [|exact Hy].
      apply str_le_total. exact Hxy.
Qed.

Lemma sort_by_in_order l : in_order key (sort_by key l).
Proof.
  unfold sort_by. induction l as [|x l IH]; cbn [foldr].
  - constructor.
  - apply insert_by_in_order. exact IH.
Qed.

Lemma insert_by_with_key k x l :
  with_key key k (insert_by key x l) = with_key key k (x :: l).
Proof.
  unfold with_key. induction l as [|y l IH]; cbn [insert_by]; [reflexivity|].
  destruct (str_le (key x) (key y)) eqn:Hxy; [reflexivity|].
  cbn [List.filter] in *. rewrite IH.
  destruct (bool_decide (key x = k)) eqn:Hx; [|reflexivity].
  destruct (bool_decide (key y = k)) eqn:Hy; [|reflexivity].
  apply bool_decide_eq_true_1 in Hx, Hy. rewrite Hx, Hy, str_le_refl in Hxy.
  discriminate Hxy.
Qed.

Lemma sort_by_with_key k l : with_key key k (sort_by key l) = with_key key k l.
Proof.
  unfold sort_by. induction l as [|x l IH]; cbn [foldr]; [reflexivity|].
  rewrite insert_by_with_key. unfold with_key in *. cbn [List.filter].
  rewrite IH. reflexivity.
Qed.

End sorting.

Section with_unicode.
Context `{Unicode}.

(** X1.  [list_topics] returns the entries of the loadable [*.json] files of
    the directory, each file once, in the order of their lower-cased names;
    entries of equal key keep the order in which the directory listed them
    (the sort is stable). *)
Theorem list_topics_sorted_and_stable fs :
  in_order sort_key (list_topics fs)
  /\ list_topics fs ≡ₚ concat (map (list_entry fs) (os_listdir fs))
  /\ (forall k,
        with_key sort_key k (list_topics fs)
        = with_key sort_key k (concat (map (list_entry fs) (os_listdir fs)))).
Proof.
  unfold list_topics. cbv zeta. fold sort_key. split; [|split].
  - apply sort_by_in_order.
  - apply sort_by_perm.
  - intros k. apply sort_by_with_key.
Qed.

(** X2.  The path [_get_topic_path] returns is the safe characters of the
    identifier followed by [.json]: it is never the bare extension, and it
    holds no path separator, no dot, no NUL and no white space before the
    extension, so it names a file of the chat-history directory itself. *)
Theorem topic_path_is_confined topic_id path :
  _get_topic_path topic_id = Ok path ->
  path = sanitized topic_id ++ lit ".json"
  /\ sanitized topic_id <> []
  /\ Forall (fun c => c <> 47 /\ c <> 92 /\ c <> 46 /\ c <> 0 /\ isspace c = false)
            (sanitized topic_id).
Proof.
  rewrite storage_facts.get_topic_path_spec.
  destruct (sanitized topic_id) as [|c safe] eqn:Hs; cbn [truthy]; [discriminate|].
  intros [= <-]. split; [reflexivity|]. split; [discriminate|].
  rewrite <- Hs.
  eapply Forall_impl; [apply storage_facts.sanitized_safe|].
  intros x Hx. cbn beta in Hx.
  pose proof (storage_facts.safe_char_not_space x Hx) as Hsp.
  assert (Hne : forall d, d < 128 -> ascii_isalnum d = false -> d <> 45 ->
                  d <> 95 -> x <> d).
  { intros d Hd Ha H45 H95 ->. unfold safe_char, isalnum in Hx.
    apply N.ltb_lt in Hd. rewrite Hd, Ha in Hx.
    apply orb_true_iff in Hx as [Hx|Hx];
      [apply orb_true_iff in Hx as [Hx|Hx]; [discriminate|]|];
      apply N.eqb_eq in Hx; contradiction. }
  repeat split; try exact Hsp; apply Hne; (reflexivity || lia || discriminate).
Qed.

Lemma same_sanitized_same_path a b :
  sanitized a = sanitized b -> _get_topic_path a = _get_topic_path b.
Proof. intros Hab. rewrite !storage_facts.get_topic_path_spec, Hab. reflexivity. Qed.

(** X3.  Identifiers that differ only in characters [_get_topic_path] drops
    name the same topic: loading, deleting and appending treat them alike. *)
Theorem identifiers_alias a b fs :
  sanitized a = sanitized b ->
  load_topic a fs = load_topic b fs
  /\ delete_topic_file a fs = delete_topic_file b fs
  /\ (forall m, add_message_to_topic a m fs = add_message_to_topic b m fs).
Proof.
  intros Hab. pose proof (same_sanitized_same_path a b Hab) as Hp.
  assert (Hl : load_topic a fs = load_topic b fs)
    by (unfold load_topic; rewrite Hp; reflexivity).
  split; [exact Hl|]. split.
  - unfold delete_topic_file. rewrite Hp. reflexivity.
  - intros m. unfold add_message_to_topic. rewrite Hl. reflexivity.
Qed.

(** X4.  [load_topic] fails closed: an identifier without a safe character,
    a missing file and a file that does not decode as a topic all give
    [None], never an exception; any other file gives the topic it holds. *)
Theorem load_topic_fails_closed topic_id fs :
  (sanitized topic_id = [] -> load_topic topic_id fs = None)
  /\ (chat_dir fs !! (sanitized topic_id ++ lit ".json") = None ->
      load_topic topic_id fs = None)
  /\ (chat_dir fs !! (sanitized topic_id ++ lit ".json") = Some Corrupt ->
      load_topic topic_id fs = None)
  /\ (forall t, sanitized topic_id <> [] ->
        chat_dir fs !! (sanitized topic_id ++ lit ".json") = Some (JsonTopic t) ->
        load_topic topic_id fs = Some t).
Proof.
  assert (Hnone : forall o, (forall t, o <> Some t) -> o = None :> option Topic).
  { intros [t|] Ho; [destruct (Ho t eq_refl) | reflexivity]. }
  split; [|split; [|split]].
  - intros Hs. apply Hnone. intros t Ht.
    apply stream_facts.load_topic_spec in Ht as [Hne _]. contradiction.
  - intros Hf. apply Hnone. intros t Ht.
    apply stream_facts.load_topic_spec in Ht as [_ Hfile]. congruence.
  - intros Hf. apply Hnone. intros t Ht.
    apply stream_facts.load_topic_spec in Ht as [_ Hfile]. congruence.
  - intros t Hne Hf. apply stream_facts.load_topic_spec. auto.
Qed.

Lemma add_messages_app topic_id ms1 ms2 fs :
  add_messages topic_id (ms1 ++ ms2) fs
  = add_messages topic_id ms2 (add_messages topic_id ms1 fs).
Proof. unfold add_messages. apply foldl_app. Qed.

(** X5.  Messages appended by successive calls of [add_message_to_topic]
    are stored after the messages the topic had, in the order of the calls;
    identifier and name stay as they were. *)
Theorem appends_keep_call_order topic_id ms : forall topic fs,
  writable_topic topic_id topic fs ->
  load_topic topic_id (add_messages topic_id ms fs)
  = Some {| id := id topic; name := name topic;
            messages := messages topic ++ ms |}.
Proof.
  induction ms as [|m ms IH]; intros topic fs Hw.
  - cbn. rewrite app_nil_r. destruct Hw as [Hl _]. rewrite Hl.
    destruct topic; reflexivity.
  - change (add_messages topic_id (m :: ms) fs)
      with (add_messages topic_id ms (snd (add_message_to_topic topic_id m fs))).
    destruct (stream_facts.add_message_persists topic_id topic m fs Hw) as [_ Hw'].
    rewrite (IH _ _ Hw'). cbn [with_message id name messages].
    rewrite <- app_assoc. reflexivity.
Qed.

Lemma add_message_to_absent topic_id m fs :
  load_topic topic_id fs = None ->
  add_message_to_topic topic_id m fs = (None, fs).
Proof. intros Hl. unfold add_message_to_topic. rewrite Hl. reflexivity. Qed.

Lemma save_topic_other_path topic fs path :
  path <> sanitized (id topic) ++ lit ".json" ->
  chat_dir (save_topic topic fs) !! path = chat_dir fs !! path.
Proof.
  intros Hne. unfold save_topic. rewrite storage_facts.get_topic_path_spec.
  destruct (truthy (sanitized (id topic))); [|reflexivity].
  unfold write_json. destruct (bool_decide _); [reflexivity|].
  cbn [chat_dir]. apply lookup_insert_ne. congruence.
Qed.

Lemma save_topic_readonly topic fs : readonly (save_topic topic fs) = readonly fs.
Proof.
  unfold save_topic. destruct (_get_topic_path (id topic)); [|reflexivity].
  unfold write_json. destruct (bool_decide _); reflexivity.
Qed.

Lemma load_topic_by_file a fs fs' :
  chat_dir fs' !! (sanitized a ++ lit ".json")
  = chat_dir fs !! (sanitized a ++ lit ".json") ->
  load_topic a fs' = load_topic a fs.
Proof.
  intros Hf.
  destruct (load_topic a fs) as [t|] eqn:Hl.
  - apply stream_facts.load_topic_spec in Hl as [Hne Hfile].
    apply stream_facts.load_topic_spec. rewrite Hf. auto.
  - destruct (load_topic a fs') as [t|] eqn:Hl'; [|reflexivity].
    apply stream_facts.load_topic_spec in Hl' as [Hne Hfile].
    rewrite Hf in Hfile.
    assert (Hsome : load_topic a fs = Some t)
      by (apply stream_facts.load_topic_spec; auto).
    congruence.
Qed.

(** X6.  Appending to a topic (whose file is named after the identifier it
    stores) and deleting a topic leave every topic of a different sanitized
    identifier as it was. *)
Theorem other_topics_are_untouched a b fs :
  sanitized a <> sanitized b ->
  (forall m topic,
     load_topic a fs = Some topic -> sanitized (id topic) = sanitized a ->
     load_topic b (snd (add_message_to_topic a m fs)) = load_topic b fs)
  /\ load_topic b (snd (delete_topic_file a fs)) = load_topic b fs.
Proof.
  intros Hab.
  assert (Hpath : sanitized b ++ lit ".json" <> sanitized a ++ lit ".json").
  { intros Heq. apply app_inv_tail in Heq. congruence. }
  split.
  - intros m topic Hl Hid. unfold add_message_to_topic. rewrite Hl. cbn [snd].
    apply load_topic_by_file. apply save_topic_other_path. cbn [id].
    rewrite Hid. exact Hpath.
  - apply load_topic_by_file. rewrite storage_facts.delete_topic_file_cases.
    destruct (sanitized a) as [|c safe] eqn:Hs; [reflexivity|]. cbv zeta.
    destruct (chat_dir fs !! _); [|reflexivity].
    destruct (bool_decide _); [reflexivity|]. cbn [snd chat_dir].
    apply lookup_delete_ne. congruence.
Qed.

(** X7.  After [delete_topic_file] has returned true the topic no longer
    loads and its file is no longer in the directory. *)
Theorem deleted_topic_is_gone topic_id fs :
  fst (delete_topic_file topic_id fs) = true ->
  load_topic topic_id (snd (delete_topic_file topic_id fs)) = None
  /\ sanitized topic_id ++ lit ".json" ∉ os_listdir (snd (delete_topic_file topic_id fs)).
Proof.
  rewrite storage_facts.delete_topic_file_cases.
  destruct (sanitized topic_id) as [|c safe] eqn:Hs; [discriminate|]. cbv zeta.
  set (path := (c :: safe) ++ _).
  assert (Hgone : forall fs', chat_dir fs' !! path = None ->
            load_topic topic_id fs' = None /\ path ∉ os_listdir fs').
  { intros fs' Hf. split.
    - destruct (load_topic topic_id fs') as [t|] eqn:Hl; [|reflexivity].
      apply stream_facts.load_topic_spec in Hl as [_ Hfile].
      rewrite Hs in Hfile. fold path in Hfile. congruence.
    - unfold os_listdir. intros Hin.
      apply list_elem_of_fmap in Hin as ([p f] & -> & Hin).
      apply elem_of_map_to_list in Hin. cbn in Hf. congruence. }
  destruct (chat_dir fs !! path) as [f|] eqn:Hf.
  - destruct (bool_decide (path ∈ readonly fs)); [discriminate|].
    intros _. cbn [snd]. apply Hgone. cbn [chat_dir]. apply lookup_delete_eq.
  - intros _. cbn [snd]. apply Hgone. exact Hf.
Qed.

Lemma save_topic_consistent topic fs :
  store_consistent fs -> store_consistent (save_topic topic fs).
Proof.
  intros Hc path t Hf.
  destruct (decide (path = sanitized (id topic) ++ lit ".json")) as [->|Hne].
  - revert Hf. unfold save_topic. rewrite storage_facts.get_topic_path_spec.
    destruct (sanitized (id topic)) as [|c safe] eqn:Hs; cbn [truthy].
    + intros Hf. destruct (Hc _ _ Hf) as [Hne Hp].
      split; [exact Hne | exact Hp].
    + unfold write_json. destruct (bool_decide _).
      * intros Hf. apply (Hc _ _ Hf).
      * cbn [chat_dir]. rewrite lookup_insert_eq. intros [= <-].
        rewrite Hs. split; [discriminate | reflexivity].
  - rewrite save_topic_other_path in Hf by exact Hne. apply (Hc _ _ Hf).
Qed.

(** X8.  The store keeps every topic file named after the identifier stored
    in it: this holds of the empty directory, and creating a topic, appending
    a message and deleting a topic preserve it.  In such a directory a loaded
    topic carries the identifier it was asked by, up to the dropped
    characters. *)
Theorem store_stays_consistent fs :
  store_consistent {| chat_dir := ∅; readonly := readonly fs |}
  /\ (store_consistent fs ->
      (forall uuid4 name, store_consistent (snd (create_new_topic uuid4 name fs)))
      /\ (forall topic_id m,
            store_consistent (snd (add_message_to_topic topic_id m fs)))
      /\ (forall topic_id, store_consistent (snd (delete_topic_file topic_id fs)))
      /\ (forall topic_id topic,
            load_topic topic_id fs = Some topic ->
            sanitized (id topic) = sanitized topic_id)).
Proof.
  split.
  - intros path t Hf. cbn in Hf. rewrite lookup_empty in Hf. discriminate.
  - intros Hc. split; [|split; [|split]].
    + intros uuid4 name. unfold create_new_topic. cbv zeta. cbn [snd].
      apply save_topic_consistent, Hc.
    + intros topic_id m. unfold add_message_to_topic.
      destruct (load_topic topic_id fs); cbn [snd];
        [apply save_topic_consistent|]; exact Hc.
    + intros topic_id. rewrite storage_facts.delete_topic_file_cases.
      destruct (sanitized topic_id) as [|c safe]; [exact Hc|]. cbv zeta.
      destruct (chat_dir fs !! _); [|exact Hc].
      destruct (bool_decide _); [exact Hc|]. cbn [snd].
      intros path t Hf. cbn [chat_dir] in Hf.
      apply lookup_delete_Some in Hf as [_ Hf]. apply (Hc _ _ Hf).
    + intros topic_id topic Hl.
      apply stream_facts.load_topic_spec in Hl as [_ Hf].
      destruct (Hc _ _ Hf) as [_ Hp]. apply app_inv_tail in Hp. congruence.
Qed.

Lemma list_entry_by_file fs fs' filename :
  (endswith filename (lit ".json") = true ->
   chat_dir fs' !! (sanitized (take (length filename - 5) filename) ++ lit ".json")
   = chat_dir fs !! (sanitized (take (length filename - 5) filename) ++ lit ".json")) ->
  list_entry fs' filename = list_entry fs filename.
Proof.
  intros Hf. unfold list_entry.
  destruct (endswith filename (lit ".json")); [|reflexivity].
  cbn [andb]. destruct (negb _); [|reflexivity]. cbv zeta.
  rewrite (load_topic_by_file _ fs fs' (Hf eq_refl)). reflexivity.
Qed.

Lemma length_list_topics fs :
  length (list_topics fs) = length (concat (map (list_entry fs) (os_listdir fs))).
Proof. unfold list_topics. apply Permutation_length, sort_by_perm. Qed.

(** X9.  In a directory whose [*.json] files are named by safe characters,
    creating a topic under a fresh identifier adds exactly one entry to the
    listing, with the preview "New Topic", and keeps all others; a topic
    created without a name, or with an empty one, is called "Topic n" where
    n is one more than the number of topics listed before. *)
Theorem created_topic_is_listed_once uuid4 name fs :
  is_uuid uuid4 = true ->
  chat_dir fs !! (uuid4 ++ lit ".json") = None ->
  uuid4 ++ lit ".json" ∉ readonly fs ->
  tidy fs ->
  let created := create_new_topic uuid4 name fs in
  list_topics (snd created)
  ≡ₚ {| info_id := uuid4; info_name := models.name (fst created);
        preview := lit "New Topic" |} :: list_topics fs
  /\ length (list_topics (snd created)) = S (length (list_topics fs))
  /\ (truthy_opt name = false ->
      models.name (fst created)
      = lit "Topic " ++ text_of (pretty (S (length (list_topics fs)))))
  /\ tidy (snd created).
Proof.
  intros Hu Hfresh Hro Htidy. cbv zeta.
  destruct (storage_facts.uuid_sanitized uuid4 Hu) as [Hs Hne].
  unfold create_new_topic. cbv zeta. cbn [fst snd].
  set (topic := {| id := uuid4; name := _; messages := [] |}).
  set (path := uuid4 ++ lit ".json") in *.
  assert (Hsave : save_topic topic fs
                  = {| chat_dir := <[path := JsonTopic topic]> (chat_dir fs);
                       readonly := readonly fs |}).
  { unfold save_topic. rewrite storage_facts.get_topic_path_spec. cbn [topic id].
    rewrite Hs, (storage_facts.truthy_nonempty _ Hne). fold path.
    unfold write_json. rewrite bool_decide_eq_false_2 by exact Hro. reflexivity. }
  rewrite Hsave. set (fs' := {| chat_dir := _; readonly := _ |}).
  assert (Hdir : os_listdir fs' ≡ₚ path :: os_listdir fs).
  { unfold os_listdir, fs'. cbn [chat_dir].
    rewrite (map_to_list_insert _ _ _ Hfresh). reflexivity. }
  assert (Hnew : list_entry fs' path
                 = [ {| info_id := uuid4; info_name := models.name topic;
                        preview := lit "New Topic" |} ]).
  { unfold list_entry, path.
    rewrite api_key_facts.endswith_app. 
    rewrite (storage_facts.json_is_not_corrupted _ (api_key_facts.endswith_app _ _)).
    cbn [andb negb]. cbv zeta. rewrite stem_of_path.
    assert (Hl : load_topic uuid4 fs' = Some topic).
    { apply stream_facts.load_topic_spec. rewrite Hs. split; [exact Hne|].
      unfold fs'. cbn [chat_dir]. apply lookup_insert_eq. }
    rewrite Hl. reflexivity. }
  assert (Hold : Forall (fun f => list_entry fs' f = list_entry fs f) (os_listdir fs)).
  { apply Forall_forall. intros f Hf. apply list_entry_by_file. intros Hj.
    assert (Hin : is_Some (chat_dir fs !! f)).
    { unfold os_listdir in Hf. apply list_elem_of_fmap in Hf as [[f' x] [-> Hx]].
      apply elem_of_map_to_list in Hx. cbn [fst]. eauto. }
    rewrite (Htidy f Hin Hj), (stem_json f Hj).
    unfold fs'. cbn [chat_dir]. apply lookup_insert_ne.
    intros <-. rewrite Hfresh in Hin. destruct Hin; discriminate. }
  assert (Hperm : list_topics fs'
                  ≡ₚ {| info_id := uuid4; info_name := models.name topic;
                        preview := lit "New Topic" |} :: list_topics fs).
  { unfold list_topics. rewrite !sort_by_perm, Hdir. cbn [map concat].
    rewrite Hnew. cbn [app]. constructor.
    rewrite (map_ext_Forall _ _ Hold). reflexivity. }
  split; [exact Hperm|]. split; [rewrite Hperm; reflexivity|]. split.
  - intros Hname. unfold topic. cbn [models.name].
    rewrite Nat.add_1_r.
    destruct name as [[|c n]|]; try reflexivity. discriminate Hname.
  - intros p Hp Hj. unfold fs' in Hp. cbn [chat_dir] in Hp.
    destruct (decide (p = path)) as [->|Hneq].
    + unfold path. rewrite stem_of_path. exact Hs.
    + rewrite lookup_insert_ne in Hp by congruence. exact (Htidy p Hp Hj).
Qed.

(** X10.  In such a directory, deleting a topic that loads and whose file
    can be removed takes exactly its entry out of the listing. *)
Theorem deleted_topic_leaves_the_listing topic_id topic fs :
  tidy fs ->
  load_topic topic_id fs = Some topic ->
  sanitized topic_id ++ lit ".json" ∉ readonly fs ->
  list_topics fs
  ≡ₚ entry_of topic
     :: list_topics (snd (delete_topic_file topic_id fs))
  /\ length (list_topics (snd (delete_topic_file topic_id fs)))
     = pred (length (list_topics fs))
  /\ tidy (snd (delete_topic_file topic_id fs)).
Proof.
  intros Htidy Hload Hro.
  apply stream_facts.load_topic_spec in Hload as [Hne Hfile].
  rewrite storage_facts.delete_topic_file_cases.
  destruct (sanitized topic_id) as [|c safe] eqn:Hs; [congruence|]. cbv zeta.
  rewrite <- Hs in *. set (path := sanitized topic_id ++ _) in *.
  rewrite Hfile, (bool_decide_eq_false_2 _ Hro). cbn [snd].
  set (fs' := {| chat_dir := _; readonly := _ |}).
  assert (Hdir : os_listdir fs ≡ₚ path :: os_listdir fs').
  { unfold os_listdir, fs'. cbn [chat_dir].
    rewrite <- (map_to_list_delete _ _ _ Hfile). reflexivity. }
  assert (Hold : list_entry fs path
                 = [ entry_of topic ]).
  { unfold list_entry, path.
    rewrite api_key_facts.endswith_app.
    rewrite (storage_facts.json_is_not_corrupted _ (api_key_facts.endswith_app _ _)).
    cbn [andb negb]. cbv zeta. rewrite stem_of_path.
    assert (Hl : load_topic (sanitized topic_id) fs = Some topic).
    { apply stream_facts.load_topic_spec.
      rewrite (storage_facts.sanitized_idem _ (storage_facts.sanitized_safe topic_id)).
      split; [exact Hne | exact Hfile]. }
    rewrite Hl. reflexivity. }
  assert (Hrest : Forall (fun f => list_entry fs f = list_entry fs' f) (os_listdir fs')).
  { apply Forall_forall. intros f Hf. symmetry. apply list_entry_by_file. intros Hj.
    assert (Hin : chat_dir fs' !! f = chat_dir fs !! f /\ is_Some (chat_dir fs !! f)).
    { unfold os_listdir in Hf. apply list_elem_of_fmap in Hf as [[f' x] [-> Hx]].
      apply elem_of_map_to_list in Hx. cbn [fst]. unfold fs' in *. cbn [chat_dir] in *.
      apply lookup_delete_Some in Hx as [Hneq Hx].
      rewrite lookup_delete_ne by exact Hneq. split; [reflexivity | eauto]. }
    destruct Hin as [Heq Hin].
    rewrite (Htidy f Hin Hj), (stem_json f Hj). exact Heq. }
  assert (Hperm : list_topics fs
                  ≡ₚ entry_of topic :: list_topics fs').
  { unfold list_topics. rewrite !sort_by_perm, Hdir. cbn [map concat].
    rewrite Hold. cbn [app]. constructor.
    rewrite (map_ext_Forall _ _ Hrest). reflexivity. }
  split; [exact Hperm|]. split; [rewrite Hperm; reflexivity|].
  intros p Hp Hj. apply Htidy; [|exact Hj].
  unfold fs' in Hp. cbn [chat_dir] in Hp.
  destruct Hp as [x Hx]. apply lookup_delete_Some in Hx as [_ Hx]. eauto.
Qed.

Lemma save_topic_fails_silently topic fs :
  sanitized (id topic) = [] \/ sanitized (id topic) ++ lit ".json" ∈ readonly fs ->
  save_topic topic fs = fs.
Proof.
  intros Hbad. unfold save_topic. rewrite storage_facts.get_topic_path_spec.
  destruct (sanitized (id topic)) as [|c safe] eqn:Hs; [reflexivity|].
  cbn [truthy]. destruct Hbad as [Hnil | Hro]; [discriminate Hnil|].
  unfold write_json. rewrite (bool_decide_eq_true_2 _ Hro). reflexivity.
Qed.

(** X27.  A write that fails is swallowed.  When the file of a topic cannot
    be rewritten, [add_message_to_topic] still returns the topic with the
    message appended, and the directory is as before: the message is lost.
    When the identifier drawn for a new topic has no safe character or its
    file cannot be written, [create_new_topic] still returns a topic, stores
    nothing, and the topic does not load afterwards. *)
Theorem failed_writes_are_silent fs :
  (forall topic_id topic m,
     load_topic topic_id fs = Some topic ->
     sanitized (id topic) ++ lit ".json" ∈ readonly fs ->
     add_message_to_topic topic_id m fs = (Some (with_message topic m), fs))
  /\ (forall uuid4 name,
        sanitized uuid4 = [] \/ sanitized uuid4 ++ lit ".json" ∈ readonly fs ->
        snd (create_new_topic uuid4 name fs) = fs
        /\ id (fst (create_new_topic uuid4 name fs)) = uuid4
        /\ (chat_dir fs !! (sanitized uuid4 ++ lit ".json") = None ->
            load_topic uuid4 (snd (create_new_topic uuid4 name fs)) = None)).
Proof.
  split.
  - intros topic_id topic m Hl Hro. unfold add_message_to_topic. rewrite Hl.
    fold (with_message topic m). rewrite save_topic_fails_silently; [reflexivity|].
    right. exact Hro.
  - intros uuid4 name Hbad. unfold create_new_topic. cbv zeta. cbn [fst snd id].
    rewrite save_topic_fails_silently by exact Hbad.
    split; [reflexivity|]. split; [reflexivity|]. intros Hnone.
    destruct (load_topic uuid4 fs) as [t|] eqn:Hl; [|reflexivity].
    apply stream_facts.load_topic_spec in Hl as [_ Hf]. congruence.
Qed.

End with_unicode.

Lemma topic_path_is_confined_witness :
  lit "etcpasswd.json"
  = sanitized (H := ascii_text) (lit "../../etc/passwd") ++ lit ".json".
Proof.
  refine (proj1 (topic_path_is_confined (H := ascii_text) (lit "../../etc/passwd")
                   (lit "etcpasswd.json") _)).
  vm_compute. reflexivity.
Defined.

Lemma identifiers_alias_witness :
  load_topic (H := ascii_text) (lit "../7d3f9a52-0c1b-4e6a-8f2d-5b4c3a291e70.json")
    (single_topic calculus)
  = load_topic (H := ascii_text) (lit "7d3f9a52-0c1b-4e6a-8f2d-5b4c3a291e70json")
      (single_topic calculus).
Proof.
  refine (proj1 (identifiers_alias (H := ascii_text) _ _ (single_topic calculus) _)).
  vm_compute. reflexivity.
Defined.

Lemma load_topic_fails_closed_witness :
  load_topic (H := ascii_text) (lit "../..") (single_topic calculus) = None.
Proof.
  refine (proj1 (load_topic_fails_closed (H := ascii_text) (lit "../..")
                   (single_topic calculus)) _).
  vm_compute. reflexivity.
Defined.

Lemma calculus_is_writable :
  writable_topic (H := ascii_text) (id calculus) calculus (single_topic calculus).
Proof.
  split; [vm_compute; reflexivity|]. split; [vm_compute; reflexivity|].
  cbn [single_topic readonly]. apply not_elem_of_empty.
Qed.

Lemma appends_keep_call_order_witness :
  let question := {| role := lit "user"; content := lit "And an integral?" |} in
  let answer := {| role := lit "assistant"; content := lit "The area under a curve." |} in
  load_topic (H := ascii_text) (id calculus)
    (add_messages (H := ascii_text) (id calculus) [question; answer]
       (single_topic calculus))
  = Some {| id := id calculus; name := name calculus;
            messages := messages calculus ++ [question; answer] |}.
Proof.
  intros question answer.
  exact (appends_keep_call_order (H := ascii_text) (id calculus) [question; answer]
           calculus (single_topic calculus) calculus_is_writable).
Defined.

Lemma other_topics_are_untouched_witness :
  load_topic (H := ascii_text) (id calculus)
    (snd (delete_topic_file (H := ascii_text) (id algebra) (single_topic calculus)))
  = load_topic (H := ascii_text) (id calculus) (single_topic calculus).
Proof.
  refine (proj2 (other_topics_are_untouched (H := ascii_text) (id algebra)
                   (id calculus) (single_topic calculus) _)).
  vm_compute. discriminate.
Defined.

Lemma deleted_topic_is_gone_witness :
  load_topic (H := ascii_text) (id calculus)
    (snd (delete_topic_file (H := ascii_text) (id calculus) (single_topic calculus)))
  = None.
Proof.
  refine (proj1 (deleted_topic_is_gone (H := ascii_text) (id calculus)
                   (single_topic calculus) _)).
  vm_compute. reflexivity.
Defined.

Lemma single_topic_consistent t :
  sanitized (H := ascii_text) (id t) = id t -> id t <> [] ->
  store_consistent (H := ascii_text) (single_topic t).
Proof.
  intros Hs Hne path t' Hf. unfold single_topic in Hf. cbn [chat_dir] in Hf.
  apply lookup_singleton_Some in Hf as [<- [= <-]]. rewrite Hs. auto.
Qed.

Lemma single_topic_tidy t :
  sanitized (H := ascii_text) (id t) = id t -> tidy (H := ascii_text) (single_topic t).
Proof.
  intros Hs path [f Hf] _. unfold single_topic in Hf. cbn [chat_dir] in Hf.
  apply lookup_singleton_Some in Hf as [<- _]. rewrite stem_of_path. exact Hs.
Qed.

Lemma store_stays_consistent_witness :
  sanitized (H := ascii_text) (id calculus)
  = sanitized (H := ascii_text) (lit "{7d3f9a52-0c1b-4e6a-8f2d-5b4c3a291e70}").
Proof.
  refine (proj2 (proj2 (proj2 (proj2 (store_stays_consistent (H := ascii_text)
            (single_topic calculus)) _))) _ calculus _).
  - apply single_topic_consistent; [vm_compute; reflexivity | discriminate].
  - vm_compute. reflexivity.
Defined.

Lemma created_topic_is_listed_once_witness :
  let created := create_new_topic (H := ascii_text) (id algebra) None
                   (single_topic calculus) in
  length (list_topics (H := ascii_text) (snd created)) = 2%nat
  /\ name (fst created) = lit "Topic 2".
Proof.
  intros created.
  destruct (created_topic_is_listed_once (H := ascii_text) (id algebra) None
              (single_topic calculus)) as (_ & Hlen & Hname & _).
  - vm_compute. reflexivity.
  - vm_compute. reflexivity.
  - cbn [single_topic readonly]. apply not_elem_of_empty.
  - apply single_topic_tidy. vm_compute. reflexivity.
  - split; [exact Hlen | exact (Hname eq_refl)].
Defined.

Lemma deleted_topic_leaves_the_listing_witness :
  length (list_topics (H := ascii_text)
            (snd (delete_topic_file (H := ascii_text) (id calculus)
                    (single_topic calculus))))
  = 0%nat.
Proof.
  destruct (deleted_topic_leaves_the_listing (H := ascii_text) (id calculus) calculus
              (single_topic calculus)) as (_ & Hlen & _).
  - apply single_topic_tidy. vm_compute. reflexivity.
  - vm_compute. reflexivity.
  - cbn [single_topic readonly]. apply not_elem_of_empty.
  - exact Hlen.
Defined.

Lemma failed_writes_are_silent_witness :
  let fs := {| chat_dir := chat_dir (single_topic calculus);
               readonly := {[ id calculus ++ lit ".json" ]} |} in
  let m := {| role := lit "user"; content := lit "And an integral?" |} in
  add_message_to_topic (H := ascii_text) (id calculus) m fs
  = (Some (with_message calculus m), fs).
Proof.
  intros fs m.
  refine (proj1 (failed_writes_are_silent (H := ascii_text) fs)
            (id calculus) calculus m _ _).
  - vm_compute. reflexivity.
  - vm_compute. reflexivity.
Defined.

End store_laws.

(** ** Starting the engine *)

Module startup_laws.
Import graphrag_processor api.

Lemma nothing_missing (p : list N -> bool) (l : list (list N)) :
  List.filter (fun f => negb (p f)) l = [] -> Forall (fun f => p f = true) l.
Proof.
  induction l as [|x l IH]; [constructor|]. cbn [List.filter].
  destruct (p x) eqn:Hx; cbn [negb]; [|discriminate].
  intros Hl. constructor; auto.
Qed.

Lemma mbind_assoc {A B C} (m : M A) (k : A -> M B) (k' : B -> M C) r :
  mbind (mbind m k) k' r = mbind m (fun x => mbind (k x) k') r.
Proof. unfold mbind. destruct (m r) as [[a| |e] r']; reflexivity. Qed.

Lemma mbind_call {A B} (o : outcome A) (k : A -> M B) r :
  mbind (call o) k r = match o with Ok a => k a r | Raise e => (Raised e, r) end.
Proof. destruct o; reflexivity. Qed.

Lemma mbind_mret {A B} (a : A) (k : A -> M B) r : mbind (mret a) k r = k a r.
Proof. reflexivity. Qed.

Lemma mbind_when_log {B} (b : bool) l text (k : unit -> M B) r :
  mbind (when b (log l text)) k r
  = k tt {| vars := vars r;
            logged := logged r ++ (if b then [(l, text)] else []) |}.
Proof.
  destruct b; [reflexivity|]. cbn [when]. rewrite mbind_mret, app_nil_r.
  destruct r; reflexivity.
Qed.

(** One statement of the [try] block, run on the state at hand; [post] is
    what is being shown of the outcome. *)
Ltac mstep post :=
  lazymatch goal with
  | |- post (mbind (mbind ?m ?k) ?k' ?r) =>
    refine (eq_ind_r post _ (mbind_assoc m k k' r))
  | |- post (mbind (log ?l ?t) ?k ?r) =>
    change (post (k tt {| vars := vars r; logged := logged r ++ [(l, t)] |}))
  | |- post (mbind (logs ?l) ?k ?r) =>
    change (post (k tt {| vars := vars r; logged := logged r ++ l |}))
  | |- post (mbind (assign ?f) ?k ?r) =>
    change (post (k tt {| vars := f (vars r); logged := logged r |}))
  | |- post (mbind (mret ?a) ?k ?r) => change (post (k a r))
  | |- post (mbind return_ ?k ?r) => change (post (Return_, r))
  | |- post (mbind (when ?b (log ?l ?t)) ?k ?r) =>
    refine (eq_ind_r post _ (mbind_when_log b l t k r))
  end; cbv beta.

Ltac msteps post := repeat mstep post.

(** A leaf: the block has returned or raised. *)
Ltac mleaf post :=
  unfold post;
  cbn [vars logged set_model_manager set_search_engine set_initialized
       _initialized _search_engine _model_manager];
  split; [split; reflexivity | first [exact I | eexists; apply last_snoc]].

(** A call into a library: it raises, or the block goes on. *)
Ltac mcall post :=
  lazymatch goal with
  | |- post (mbind (call ?o) ?k ?r) =>
    let Ho := fresh "Ho" in
    refine (eq_ind_r post _ (mbind_call o k r));
    destruct o eqn:Ho; [|mleaf post]; msteps post
  end.

(** The [try] block reaches its end only past every check, and then the
    globals are READY with the engine just built; when it returns early or
    raises, [_initialized] and the engine handle are as it found them, and an
    early return has logged an error last. *)
Lemma init_try_outcome cfg h r :
  match init_try cfg h r with
  | (Next _, r') =>
    exists engine, passed cfg h engine /\ vars r' = ready_with engine
  | (Return_, r') =>
    (_initialized (vars r') = _initialized (vars r)
     /\ _search_engine (vars r') = _search_engine (vars r))
    /\ exists text, last (logged r') = Some (ERROR, text)
  | (Raised _, r') =>
    (_initialized (vars r') = _initialized (vars r)
     /\ _search_engine (vars r') = _search_engine (vars r))
    /\ True
  end.
Proof.
  set (post := fun res : flow unit * run =>
    match res with
    | (Next _, r') =>
      exists engine, passed cfg h engine /\ vars r' = ready_with engine
    | (Return_, r') =>
      (_initialized (vars r') = _initialized (vars r)
       /\ _search_engine (vars r') = _search_engine (vars r))
      /\ exists text, last (logged r') = Some (ERROR, text)
    | (Raised _, r') =>
      (_initialized (vars r') = _initialized (vars r)
       /\ _search_engine (vars r') = _search_engine (vars r))
      /\ True
    end).
  change (post (init_try cfg h r)).
  unfold init_try. cbv zeta.
  generalize (_resolve_api_key (environ h) (llm_api_key cfg))
             (_resolve_api_key (environ h) (embedding_api_key cfg)).
  intros kc ke.
  destruct (List.filter (fun f => negb (exists_in_output h f)) required_files)
    eqn:Hmiss; msteps post; [|mleaf post].
  apply nothing_missing in Hmiss.
  msteps post.
  mcall post.
  do 4 mcall post.
  destruct (exists_in_output h COVARIATE_TABLE); msteps post; [do 2 mcall post|].
  all: do 5 mcall post.
  all: destruct (lancedb_table_names h) as [names|] eqn:Hnames; msteps post;
       [|mleaf post].
  all: destruct (bool_decide (LANCEDB_COLLECTION_NAME ∈ names)) eqn:Hcoll;
       cbv beta iota delta [negb]; msteps post; [|mleaf post].
  all: msteps post.
  all: destruct (truthy_opt (LLM_MODEL cfg)) eqn:Hcm; cbv beta iota delta [negb orb]; msteps post;
       [|mleaf post].
  all: destruct (truthy_opt (LLM_API_BASE cfg)) eqn:Hcb; cbv beta iota delta [negb orb]; msteps post;
       [|mleaf post].
  all: mcall post.
  all: msteps post.
  all: destruct (truthy_opt (EMBEDDING_MODEL cfg)) eqn:Hem; cbv beta iota delta [negb orb]; msteps post;
       [|mleaf post].
  all: destruct (truthy_opt (EMBEDDING_API_BASE cfg)) eqn:Heb; cbn [negb orb];
       msteps post; [|mleaf post].
  all: mcall post.
  all: destruct (encoding_for_model h); cbv beta iota; msteps post; [|mcall post].
  all: mcall post.
  all: refine (eq_ind_r post _ (mbind_call _ _ _));
       destruct (new_local_search h) as [engine|] eqn:Heng; [|mleaf post].
  all: msteps post; unfold post, assign; exists engine; split;
       [|cbn [vars set_initialized set_search_engine set_model_manager
              _model_manager _search_engine _initialized]; reflexivity].
  all: split; auto.
  all: try (eapply Forall_impl; [exact Hmiss|]; intros f Hf; cbn beta in Hf;
            unfold exists_in_output in Hf; apply bool_decide_eq_true_1 in Hf;
            exact Hf).
  all: exists names; split; [exact Hnames|]; exact (bool_decide_eq_true_1 _ Hcoll).
Qed.

Lemma init_attempt_outcome cfg h r :
  (exists engine, passed cfg h engine
                  /\ vars (init_attempt cfg h r) = ready_with engine)
  \/ (_initialized (vars r) = false ->
      _initialized (vars (init_attempt cfg h r)) = false
      /\ _search_engine (vars (init_attempt cfg h r)) = _search_engine (vars r)
      /\ exists text, last (logged (init_attempt cfg h r)) = Some (ERROR, text)).
Proof.
  pose proof (init_try_outcome cfg h r) as Hrun. unfold init_attempt.
  destruct (init_try cfg h r) as [[[]| |e] r'].
  - left. exact Hrun.
  - right. intros Hr. destruct Hrun as [[Hi He] Hlog].
    rewrite Hi, He. auto.
  - right. intros _. destruct Hrun as [[_ He] _]. cbn [vars logged set_initialized
      _initialized _search_engine].
    split; [reflexivity|]. split; [exact He|]. eexists. apply last_snoc.
Qed.

(** X11.  [initialize_rag] is all or nothing, and it fails aloud.  Called
    when READY it leaves the globals alone.  Called when not READY it either
    ends READY, and then the modules are available, the artifacts and the
    collection were found, both models are configured and the engine
    installed is the one just built; or it ends not READY with the engine
    handle as it was, and the last record of the log is an error. *)
Theorem initialize_rag_all_or_nothing cfg h r :
  let r' := initialize_rag cfg h r in
  (_initialized (vars r) = true -> vars r' = vars r)
  /\ (_initialized (vars r) = false ->
      (exists engine,
         GRAPHRAG_AVAILABLE cfg = true /\ passed cfg h engine
         /\ vars r' = ready_with engine)
      \/ (_initialized (vars r') = false
          /\ _search_engine (vars r') = _search_engine (vars r)
          /\ exists text, last (logged r') = Some (ERROR, text))).
Proof.
  cbv zeta. unfold initialize_rag, init_locked. split.
  - intros ->. cbn [orb]. destruct (GRAPHRAG_AVAILABLE cfg); reflexivity.
  - intros Hr. rewrite Hr. cbn [orb].
    destruct (GRAPHRAG_AVAILABLE cfg); cbn [negb].
    + destruct (init_attempt_outcome cfg h r) as [(engine & Hp & Hv) | Hfail].
      * left. exists engine. auto.
      * right. exact (Hfail Hr).
    + right. unfold log_unavailable. cbn [vars logged].
      split; [exact Hr|]. split; [reflexivity|]. eexists. apply last_snoc.
Qed.

Lemma initialize_rag_all_or_nothing_witness :
  let r := {| vars := module_start; logged := [] |} in
  vars (initialize_rag sample_settings bare_host r) = module_start
  /\ exists text,
       last (logged (initialize_rag sample_settings bare_host r))
       = Some (ERROR, text).
Proof.
  intros r.
  destruct (initialize_rag_all_or_nothing sample_settings bare_host r)
    as [_ Hcold].
  destruct (Hcold eq_refl) as [(engine & _ & Hp & _) | (Hi & He & Hlog)].
  - exfalso. destruct Hp as [Hf _ _ _ _].
    apply Forall_cons in Hf as [Hin _].
    cbn [bare_host output_dir] in Hin. revert Hin. apply not_elem_of_empty.
  - split; [vm_compute; reflexivity | exact Hlog].
Defined.

(** X12.  What the health endpoint reports after startup.  Either the
    engine is READY, [rag_status] is [initialized], and the startup found the
    modules, the artifacts and the collection, both models configured, and
    built the engine now installed; or [rag_status] is [not_initialized], no
    engine is installed, every query gets the "not initialised" reply, and
    the last record of the startup log is an error. *)
Theorem health_reports_the_startup cfg h :
  (exists engine,
     GRAPHRAG_AVAILABLE cfg = true /\ passed cfg h engine
     /\ vars (lifespan cfg h) = ready_with engine
     /\ health_check (vars (lifespan cfg h))
        = [(lit "status", lit "ok"); (lit "processor", lit "graphrag_local_search");
           (lit "rag_status", lit "initialized")])
  \/ (_search_engine (vars (lifespan cfg h)) = None
      /\ health_check (vars (lifespan cfg h))
         = [(lit "status", lit "ok"); (lit "processor", lit "graphrag_local_search");
            (lit "rag_status", lit "not_initialized")]
      /\ (forall q hist,
            query_rag (vars (lifespan cfg h)) q hist = Ok NOT_INITIALIZED_REPLY)
      /\ exists text, last (logged (lifespan cfg h)) = Some (ERROR, text)).
Proof.
  unfold lifespan, initialize_rag, init_locked. cbn [vars module_start _initialized orb].
  set (r := {| vars := module_start; logged := [] |}).
  assert (Hdown : forall r',
            _initialized (vars r') = false ->
            _search_engine (vars r') = None ->
            (exists text, last (logged r') = Some (ERROR, text)) ->
            _search_engine (vars r') = None
            /\ health_check (vars r')
               = [(lit "status", lit "ok");
                  (lit "processor", lit "graphrag_local_search");
                  (lit "rag_status", lit "not_initialized")]
            /\ (forall q hist, query_rag (vars r') q hist = Ok NOT_INITIALIZED_REPLY)
            /\ exists text, last (logged r') = Some (ERROR, text)).
  { intros r' Hi He Hlog. split; [exact He|]. split.
    - unfold health_check. rewrite Hi. reflexivity.
    - split; [|exact Hlog]. intros q hist. unfold query_rag. rewrite Hi. reflexivity. }
  destruct (GRAPHRAG_AVAILABLE cfg); cbn [negb].
  - destruct (init_attempt_outcome cfg h r) as [(engine & Hp & Hv) | Hfail].
    + left. exists engine. rewrite Hv. auto.
    + right. destruct (Hfail eq_refl) as (Hi & He & Hlog). apply Hdown; auto.
  - right. apply Hdown; [reflexivity | reflexivity|].
    unfold log_unavailable. cbn [logged]. eexists. apply last_snoc.
Qed.

Lemma query_rag_down g q hist :
  _initialized g = false -> query_rag g q hist = Ok NOT_INITIALIZED_REPLY.
Proof. intros Hg. unfold query_rag. rewrite Hg. reflexivity. Qed.

(** X13.  [query_rag] returns a reply whenever the engine raises nothing
    but instances of [Exception]; it raises only what the engine raised
    outside [Exception], such as a [CancelledError], and lets that through
    as it is.  A reply is never the empty string, and the chat history it is
    handed plays no part in the outcome. *)
Theorem query_rag_reply_is_never_empty g q hist :
  (forall reply, query_rag g q hist = Ok reply -> reply <> [])
  /\ ((forall engine e, _search_engine g = Some engine ->
         search engine q = Raise e -> is_Exception e = true) ->
      exists reply, query_rag g q hist = Ok reply)
  /\ (forall e, query_rag g q hist = Raise e ->
        is_Exception e = false
        /\ exists engine,
             _initialized g = true /\ _search_engine g = Some engine
             /\ search engine q = Raise e)
  /\ (forall hist', query_rag g q hist' = query_rag g q hist).
Proof.
  split; [|split; [|split]].
  - intros reply Hr.
    destruct (query_facts.query_rag_cases g q hist)
      as [(reply' & Hr' & Hne) | (engine & e & _ & _ & _ & _ & Hr')];
      rewrite Hr' in Hr; [injection Hr as <-; exact Hne | discriminate Hr].
  - apply query_facts.query_rag_returns.
  - intros e Hr.
    destruct (query_facts.query_rag_cases g q hist)
      as [(reply' & Hr' & _) | (engine & e' & Hi & He & Hs & Hx & Hr')];
      rewrite Hr' in Hr; [discriminate Hr|].
    injection Hr as <-. split; [exact Hx|]. exists engine. auto.
  - reflexivity.
Qed.

(** X14.  After [trigger_ingestion], whatever the indexing command did,
    the engine is down: every query gets the "not initialised" reply and the
    health endpoint reports [not_initialized], until [initialize_rag] runs
    again; on a healthy host that call installs the engine it builds and the
    health endpoint reports [initialized]. *)
Theorem engine_stays_down_after_ingestion run_command root g :
  let g' := snd (trigger_ingestion run_command root g) in
  (forall q hist, query_rag g' q hist = Ok NOT_INITIALIZED_REPLY)
  /\ (lit "rag_status", lit "not_initialized") ∈ health_check g'
  /\ (forall cfg h engine r,
        vars r = g' -> GRAPHRAG_AVAILABLE cfg = true -> healthy cfg h engine ->
        vars (initialize_rag cfg h r) = ready_with engine
        /\ (lit "rag_status", lit "initialized")
           ∈ health_check (vars (initialize_rag cfg h r))).
Proof.
  cbv zeta. unfold trigger_ingestion. cbn [snd]. split; [|split].
  - intros q hist. apply query_rag_down. reflexivity.
  - unfold health_check. cbn [_initialized]. set_solver.
  - intros cfg h engine r Hr Ha Hh.
    assert (Hv : vars (initialize_rag cfg h r) = ready_with engine).
    { unfold initialize_rag, init_locked. rewrite Hr, Ha. cbn [_initialized orb negb].
      exact (proj1 (api_key_facts.init_attempt_healthy cfg h engine r Hh)). }
    split; [exact Hv|]. rewrite Hv. unfold health_check. cbn [ready_with _initialized].
    set_solver.
Qed.

Lemma engine_stays_down_after_ingestion_witness :
  let old := engine_of (fun _ => Ok PyNone) in
  let new := engine_of (fun _ => Ok (PyObject (Some (lit "42")))) in
  let g' := snd (trigger_ingestion (command_exits 0) (lit "./data") (ready_with old)) in
  vars (initialize_rag sample_settings (indexed_host new) {| vars := g'; logged := [] |})
  = ready_with new.
Proof.
  intros old new g'.
  refine (proj1 (proj2 (proj2 (engine_stays_down_after_ingestion (command_exits 0)
            (lit "./data") (ready_with old)))
            sample_settings (indexed_host new) new {| vars := g'; logged := [] |}
            eq_refl eq_refl _)).
  apply api_key_facts.indexed_host_healthy.
Defined.

(** X26.  Missing artifacts stop the startup before anything is loaded:
    when one of the five required files is not in the output directory,
    [initialize_rag] logs the two errors and returns with the globals as they
    were, whatever the libraries of the host would have done. *)
Theorem missing_artifacts_stop_the_startup cfg h r :
  GRAPHRAG_AVAILABLE cfg = true ->
  _initialized (vars r) = false ->
  ~ Forall (fun f => f ∈ output_dir h) required_files ->
  initialize_rag cfg h r
  = {| vars := vars r;
       logged := logged r
         ++ [ (ERROR, lit "Missing required GraphRAG output files");
              (ERROR, lit "Please run the 'graphrag index' command first.") ] |}.
Proof.
  intros Ha Hr Hmiss. unfold initialize_rag, init_locked, init_attempt.
  rewrite Hr, Ha. cbn [orb negb]. unfold init_try. cbv zeta.
  destruct (List.filter (fun f => negb (exists_in_output h f)) required_files)
    as [|f missing] eqn:Hf.
  - exfalso. apply Hmiss. apply nothing_missing in Hf.
    eapply Forall_impl; [exact Hf|]. intros f Hx. cbn beta in Hx.
    unfold exists_in_output in Hx. exact (bool_decide_eq_true_1 _ Hx).
  - unfold mbind at 1. unfold mbind at 1.
    cbn [log return_ mbind logged vars]. rewrite <- app_assoc. reflexivity.
Qed.

Lemma missing_artifacts_stop_the_startup_witness :
  vars (initialize_rag sample_settings bare_host {| vars := module_start; logged := [] |})
  = module_start.
Proof.
  refine (f_equal vars
            (missing_artifacts_stop_the_startup sample_settings bare_host
               {| vars := module_start; logged := [] |} eq_refl eq_refl _)).
  intros Hall. apply Forall_cons in Hall as [Hin _].
  cbn [bare_host output_dir] in Hin. revert Hin. apply not_elem_of_empty.
Defined.

End startup_laws.

(** ** The engine life cycle, further *)

Module lifecycle_laws.
Import graphrag_processor lifecycle_facts.

(** X15.  Once READY, the engine is never replaced by a caller of
    [initialize_rag]: no step of any caller changes the globals or starts
    another initialisation sequence, and with the modules available the log
    stays as it is too. *)
Theorem ready_engine_is_never_replaced cfg g n s s' :
  reachable cfg g n s ->
  ready s = true ->
  any_step cfg s s' ->
  vars (shared s') = vars (shared s)
  /\ started s' = started s
  /\ (GRAPHRAG_AVAILABLE cfg = true -> shared s' = shared s).
Proof.
  intros Hreach Hready [i Hstep].
  pose proof (no_rerun _ _ _ _ (reachable_sound _ _ _ _ Hreach) Hready) as Hno.
  destruct Hstep as [s Hi Hc|s Hi Hc|s Hi Hc|s Hi Hc|s Hi Hc|h s Hi|s Hi];
    cbn [shared started move]; auto.
  - destruct (GRAPHRAG_AVAILABLE cfg); cbn [negb]; auto.
    split; [reflexivity|]. split; [reflexivity | discriminate].
  - exfalso. rewrite Forall_forall in Hno.
    apply (Hno at_try); [|reflexivity].
    eapply list_elem_of_lookup_2. exact Hi.
Qed.

Lemma ready_engine_is_never_replaced_witness :
  let engine := engine_of (fun _ => Ok PyNone) in
  let s := boot (ready_with engine) 2 in
  vars (shared (advance sample_settings bare_host 0 s)) = ready_with engine.
Proof.
  intros engine s.
  refine (proj1 (ready_engine_is_never_replaced sample_settings (ready_with engine)
                   2 s _ (boot_reachable _ _ _) eq_refl _)).
  exists 0%nat. apply step_entry_return; reflexivity.
Defined.

Lemma advance_healthy cfg engine h i s :
  GRAPHRAG_AVAILABLE cfg = true ->
  healthy cfg h engine ->
  started s = completed s
  /\ (vars (shared s) = module_start \/ vars (shared s) = ready_with engine) ->
  started (advance cfg h i s) = completed (advance cfg h i s)
  /\ (vars (shared (advance cfg h i s)) = module_start
      \/ vars (shared (advance cfg h i s)) = ready_with engine).
Proof.
  intros Ha Hh [Hsc Hv]. unfold advance.
  destruct (callers s !! i) as [[| | | | |]|]; auto.
  - rewrite Ha. cbn [negb]. destruct (ready s || false); cbn [started completed shared move]; auto.
  - destruct (locked s); cbn [started completed shared]; auto.
  - destruct (ready s); cbn [started completed shared move]; auto.
  - cbn [started completed shared].
    rewrite (proj1 (api_key_facts.init_attempt_healthy cfg h engine (shared s) Hh)).
    cbn [ready_with _initialized]. auto.
Qed.

Lemma schedule_healthy cfg engine turns : forall s,
  GRAPHRAG_AVAILABLE cfg = true ->
  all_healthy cfg engine turns ->
  started s = completed s
  /\ (vars (shared s) = module_start \/ vars (shared s) = ready_with engine) ->
  started (schedule cfg turns s) = completed (schedule cfg turns s)
  /\ (vars (shared (schedule cfg turns s)) = module_start
      \/ vars (shared (schedule cfg turns s)) = ready_with engine).
Proof.
  unfold schedule, all_healthy.
  induction turns as [|[i h] turns IH]; intros s Ha Hall Hs; [exact Hs|].
  apply Forall_cons in Hall as [Hh Hall]. cbn [foldl fst snd].
  apply IH; [exact Ha | exact Hall|]. apply (advance_healthy cfg engine); assumption.
Qed.

(** X16.  On healthy hosts the initialisation sequence runs exactly once:
    when the callers of a schedule started from a fresh process have all
    returned, one sequence was entered, it completed, and the globals are
    READY with the engine it built. *)
Theorem healthy_hosts_are_initialised_once cfg engine n turns :
  GRAPHRAG_AVAILABLE cfg = true ->
  (1 <= n)%nat ->
  all_healthy cfg engine turns ->
  quiescent (schedule cfg turns (boot module_start n)) ->
  started (schedule cfg turns (boot module_start n)) = 1%nat
  /\ completed (schedule cfg turns (boot module_start n)) = 1%nat
  /\ vars (shared (schedule cfg turns (boot module_start n))) = ready_with engine.
Proof.
  intros Ha Hn Hall Hq.
  set (s := schedule cfg turns (boot module_start n)) in *.
  assert (Hsound : sound cfg module_start n s).
  { apply reachable_sound. apply schedule_reachable. apply boot_reachable. }
  destruct (schedule_healthy cfg engine turns (boot module_start n) Ha Hall)
    as [Hsc Hv]; [cbn; auto|]. fold s in Hsc, Hv.
  destruct (quiescent_outcome _ _ _ _ Hsound Hq) as (_ & Hone & Hnone).
  destruct (ready s) eqn:Hready.
  - specialize (Hone eq_refl eq_refl). rewrite Hsc, Hone.
    split; [reflexivity|]. split; [reflexivity|].
    destruct Hv as [Hv | Hv]; [|exact Hv].
    unfold ready in Hready. rewrite Hv in Hready. discriminate Hready.
  - destruct (Hnone eq_refl) as [Hc Hs]. specialize (Hs Ha). lia.
Qed.

Lemma healthy_hosts_are_initialised_once_witness :
  let engine := engine_of (fun _ => Ok PyNone) in
  let turns := second_arrives_meanwhile (indexed_host engine) in
  started (schedule sample_settings turns (boot module_start 2)) = 1%nat.
Proof.
  intros engine turns.
  refine (proj1 (healthy_hosts_are_initialised_once sample_settings engine 2 turns
                   eq_refl _ _ _)).
  - lia.
  - unfold turns, second_arrives_meanwhile, all_healthy.
    apply Forall_forall. intros turn Hin.
    apply list_elem_of_In, in_map_iff in Hin as (i & <- & _).
    apply api_key_facts.indexed_host_healthy.
  - vm_compute. repeat constructor.
Defined.

End lifecycle_laws.

(** ** The streaming adapter, further *)

Module exchange_laws.
Import storage graphrag_processor main stream_facts.





Section with_unicode.
Context `{Unicode}.



(** X25.  The first question asked in a topic becomes its preview: after a
    topic is created and a message is posted to it, whether the exchange
    succeeds or fails, the listing shows the topic under its name with the
    question cut at 50 characters. *)
Theorem first_question_becomes_the_preview g uuid4 name q mishap fs :
  is_uuid uuid4 = true ->
  uuid4 ++ lit ".json" ∉ readonly fs ->
  q <> [] ->
  let created := create_new_topic uuid4 name fs in
  let r := post_message g uuid4 (Ok (Some q)) mishap (snd created) in
  {| info_id := uuid4; info_name := models.name (fst created); preview := shorten q |}
  ∈ list_topics (disk_after r).
Proof.
  intros Hu Hro Hq. cbv zeta.
  pose proof (created_topic_is_writable uuid4 name fs Hu Hro) as Hw.
  destruct (stored_after_request g uuid4 _ q mishap _ Hw Hq) as [tail Hl].
  apply storage_facts.loaded_topic_is_listed in Hl. unfold entry_of in Hl.
  cbn [id models.name] in Hl.
  replace (shorten q) with
    (preview_of
       {| id := id (fst (create_new_topic uuid4 name fs));
          name := models.name (fst (create_new_topic uuid4 name fs));
          messages := messages (fst (create_new_topic uuid4 name fs))
            ++ {| role := lit "user"; content := q |} :: tail |}); [exact Hl|].
  unfold preview_of. cbv zeta. cbn [messages create_new_topic fst app first_content role].
  rewrite bool_decide_eq_true_2 by reflexivity.
  cbn [truthy_opt content]. rewrite (storage_facts.truthy_nonempty _ Hq). reflexivity.
Qed.

End with_unicode.



Lemma first_question_becomes_the_preview_witness :
  let created := create_new_topic (H := ascii_text) (id algebra) None
                   (single_topic calculus) in
  let r := post_message (H := ascii_text) module_start (id algebra)
             (Ok (Some (lit "What is a group?"))) None (snd created) in
  {| info_id := id algebra; info_name := lit "Topic 2";
     preview := lit "What is a group?" |}
  ∈ list_topics (H := ascii_text) (disk_after r).
Proof.
  intros created r.
  refine (first_question_becomes_the_preview (H := ascii_text) module_start
            (id algebra) None (lit "What is a group?") None (single_topic calculus)
            _ _ _).
  - vm_compute. reflexivity.
  - cbn [single_topic readonly]. apply not_elem_of_empty.
  - discriminate.
Defined.

End exchange_laws.

(** ** The other endpoints *)

Module endpoint_laws.
Import storage graphrag_processor main api.

Section with_unicode.
Context `{Unicode}.

(** X19.  The answers of the delete endpoint.  It reports success exactly
    when the file of the topic is gone afterwards, whether it was removed now
    or absent before, and the topic then answers 404; it answers 500 and
    changes nothing when the file is there and cannot be removed; and for an
    identifier without a safe character the [ValueError] of
    [_get_topic_path] escapes the handler. *)
Theorem delete_topic_answers topic_id fs :
  let path := sanitized topic_id ++ lit ".json" in
  match delete_topic topic_id fs with
  | (Returns _, fs') =>
    sanitized topic_id <> []
    /\ chat_dir fs' = delete path (chat_dir fs)
    /\ readonly fs' = readonly fs
    /\ get_topic_history topic_id fs' = HTTPError 404 (lit "Topic not found.")
  | (HTTPError status_code _, fs') =>
    status_code = 500%nat /\ fs' = fs
    /\ sanitized topic_id <> []
    /\ path ∈ readonly fs /\ is_Some (chat_dir fs !! path)
  | (Escapes e, fs') =>
    e = Exn ValueError (lit "Invalid topic ID provided") /\ fs' = fs
    /\ sanitized topic_id = []
  end.
Proof.
  cbv zeta. unfold delete_topic. cbv zeta.
  rewrite storage_facts.delete_topic_file_cases, storage_facts.get_topic_path_spec.
  destruct (sanitized topic_id) as [|c safe] eqn:Hs.
  { cbn [fst snd negb truthy]. auto. }
  cbv zeta. cbn [truthy]. set (path := (c :: safe) ++ _).
  assert (Hgone : forall fs',
            chat_dir fs' !! path = None ->
            get_topic_history topic_id fs' = HTTPError 404 (lit "Topic not found.")).
  { intros fs' Hnone. unfold get_topic_history.
    destruct (load_topic topic_id fs') as [t|] eqn:Hl; [|reflexivity].
    apply stream_facts.load_topic_spec in Hl as [_ Hl]. rewrite Hs in Hl.
    fold path in Hl. congruence. }
  destruct (chat_dir fs !! path) as [f|] eqn:Hf.
  - destruct (bool_decide (path ∈ readonly fs)) eqn:Hro; cbn [fst snd negb].
    + unfold os_path_exists. rewrite Hf.
      rewrite bool_decide_eq_true_2 by eauto.
      apply bool_decide_eq_true_1 in Hro.
      split; [reflexivity|]. split; [reflexivity|]. split; [discriminate|].
      split; [exact Hro | eauto].
    + split; [discriminate|]. split; [reflexivity|]. split; [reflexivity|].
      apply Hgone. cbn [chat_dir]. apply lookup_delete_eq.
  - cbn [fst snd negb].
    split; [discriminate|]. split; [symmetry; apply delete_id; exact Hf|].
    split; [reflexivity|]. apply Hgone. exact Hf.
Qed.

(** X20.  The message endpoint answers 400 exactly when the body does not
    parse or carries no non-empty message, and 404 exactly when the message
    is there and the topic does not load; in both cases the directory is
    left as it was and the pipeline is not called. *)
Theorem post_message_rejections g topic_id request_json mishap fs :
  let r := post_message g topic_id request_json mishap fs in
  (answer r = HTTPException 400
   <-> ~ exists q, request_json = Ok (Some q) /\ q <> [])
  /\ (answer r = HTTPException 404
      <-> exists q, request_json = Ok (Some q) /\ q <> []
                    /\ load_topic topic_id fs = None)
  /\ (forall status_code, answer r = HTTPException status_code ->
        (status_code = 400%nat \/ status_code = 404%nat)
        /\ disk_after r = fs /\ asked_after r = []).
Proof.
  cbv zeta. unfold post_message.
  destruct request_json as [[[|c q]|]|e]; cbn [truthy_opt truthy negb answer].
  - split; [|split].
    + split; [intros _ (q & [= <-] & Hq); congruence | reflexivity].
    + split; [discriminate | intros (q & [= <-] & Hq & _); congruence].
    + intros code [= <-]. auto.
  - destruct (load_topic topic_id fs) as [topic|] eqn:Hl; cbn [answer].
    + split; [|split].
      * split; [discriminate|]. intros Hno. exfalso. apply Hno.
        exists (c :: q). split; [reflexivity | discriminate].
      * split; [discriminate | intros (q' & _ & _ & Hnone); discriminate].
      * discriminate.
    + split; [|split].
      * split; [discriminate|]. intros Hno. exfalso. apply Hno.
        exists (c :: q). split; [reflexivity | discriminate].
      * split; [|reflexivity]. intros _. exists (c :: q).
        split; [reflexivity|]. split; [discriminate | reflexivity].
      * intros code [= <-]. auto.
  - split; [|split].
    + split; [intros _ (q & [=] & _) | reflexivity].
    + split; [discriminate | intros (q & [=] & _)].
    + intros code [= <-]. auto.
  - split; [|split].
    + split; [intros _ (q & [=] & _) | reflexivity].
    + split; [discriminate | intros (q & [=] & _)].
    + intros code [= <-]. auto.
Qed.

End with_unicode.

Lemma post_message_rejections_witness :
  let r := post_message (H := ascii_text) module_start (id algebra)
             (Ok (Some (lit "What is a group?"))) None (single_topic calculus) in
  answer r = HTTPException 404 /\ disk_after r = single_topic calculus.
Proof.
  intros r.
  destruct (post_message_rejections (H := ascii_text) module_start (id algebra)
              (Ok (Some (lit "What is a group?"))) None (single_topic calculus))
    as (_ & [_ Hmissing] & Hsame).
  assert (Ha : answer r = HTTPException 404).
  { apply Hmissing. eexists. split; [reflexivity|].
    split; [discriminate | vm_compute; reflexivity]. }
  split; [exact Ha|]. exact (proj1 (proj2 (Hsame _ Ha))).
Defined.

End endpoint_laws.

(** ** The converter *)

Module converter_laws.
Import convert_to_txt conversions text_laws.

Lemma rfind_from_bounds c s : forall i,
  (0 <= i)%Z ->
  (rfind_from i c s = -1 \/ (i <= rfind_from i c s < i + Z.of_nat (length s)))%Z.
Proof.
  induction s as [|x s IH]; intros i Hi; cbn [rfind_from length]; [auto|].
  destruct (IH (i + 1)%Z ltac:(lia)) as [-> | Hr].
  - cbn. destruct (x =? c); [right; lia | auto].
  - destruct (Z.leb_spec 0 (rfind_from (i + 1) c s)); [right; lia | lia].
Qed.




Lemma dict_get_some {A} (d : list (list N * A)) k v :
  dict_get d k = Some v -> (k, v) ∈ d.
Proof.
  induction d as [|[k' v'] d IH]; cbn [dict_get]; [discriminate|].
  case_bool_decide as Hk.
  - intros [= <-]. rewrite Hk. apply list_elem_of_here.
  - intros Hd. apply list_elem_of_further, IH, Hd.
Qed.

Lemma join_nil p : os_path_join [] p = p.
Proof. unfold os_path_join. destruct (startswith p [SEP]); reflexivity. Qed.


Section with_unicode.
Context `{Unicode}.

Lemma full_text_of_some docs text :
  full_text_of docs = Some text ->
  text <> [] /\ text = str_join [10; 10] (List.filter truthy docs).
Proof.
  unfold full_text_of. cbv zeta.
  destruct (str_join [10; 10] (List.filter truthy docs)) as [|c t];
    cbn [truthy negb]; [discriminate|].
  intros [= <-]. split; [discriminate | reflexivity].
Qed.

(** X21.  [extract_text_from_file] returns a text only past its gates: the
    text is not empty, the name of the file does not start with a dot, the
    lower-cased extension is not among the ignored ones and has a loader, and
    the text is what that loader found, its non-empty pages joined by two
    line feeds.  The loader was given an encoding exactly when it is
    [TextLoader]. *)
Theorem extract_text_from_file_gates h filepath text :
  extract_text_from_file h filepath = Some text ->
  let ext := str_lower (snd (os_path_splitext filepath)) in
  text <> []
  /\ startswith (os_path_basename filepath) (lit ".") = false
  /\ (ext ∉ IGNORED_EXTENSIONS)
  /\ exists loader_class enc loaded_docs,
       (ext, loader_class) ∈ SUPPORTED_EXTENSIONS
       /\ load h loader_class enc filepath = Ok loaded_docs
       /\ (enc <> None <-> loader_class = TextLoader)
       /\ text = str_join [10; 10] (List.filter truthy loaded_docs).
Proof.
  unfold extract_text_from_file. cbv zeta.
  destruct (startswith (os_path_basename filepath) _) eqn:Hhidden; [discriminate|].
  set (ext := str_lower _).
  destruct (negb (truthy ext)); [discriminate|].
  case_bool_decide as Hign; [discriminate|].
  destruct (dict_get SUPPORTED_EXTENSIONS ext) as [cls|] eqn:Hcls; [|discriminate].
  apply dict_get_some in Hcls.
  assert (Hdone : forall enc docs,
            load h cls enc filepath = Ok docs ->
            (enc <> None <-> cls = TextLoader) ->
            full_text_of docs = Some text ->
            text <> [] /\ false = false /\ (ext ∉ IGNORED_EXTENSIONS)
            /\ exists loader_class enc loaded_docs,
                 (ext, loader_class) ∈ SUPPORTED_EXTENSIONS
                 /\ load h loader_class enc filepath = Ok loaded_docs
                 /\ (enc <> None <-> loader_class = TextLoader)
                 /\ text = str_join [10; 10] (List.filter truthy loaded_docs)).
  { intros enc docs Hl Henc [Hne ->]%full_text_of_some.
    split; [exact Hne|]. split; [reflexivity|]. split; [exact Hign|].
    exists cls, enc, docs. auto. }
  destruct cls.
  - destruct (load h PyPDFLoader None filepath) as [docs|e] eqn:Hl; [|discriminate].
    apply (Hdone None docs Hl). split; [congruence | discriminate].
  - destruct (load h TextLoader (Some utf_8) filepath) as [docs|e] eqn:Hl.
    + apply (Hdone (Some utf_8) docs Hl). split; [reflexivity | discriminate].
    + destruct (is_UnicodeDecodeError e); [|discriminate].
      destruct (load h TextLoader (Some gbk) filepath) as [docs|e'] eqn:Hl';
        [|discriminate].
      apply (Hdone (Some gbk) docs Hl'). split; [reflexivity | discriminate].
  - destruct (load h UnstructuredWordDocumentLoader None filepath) as [docs|e] eqn:Hl;
      [|discriminate].
    apply (Hdone None docs Hl). split; [congruence | discriminate].
  - destruct (load h UnstructuredPowerPointLoader None filepath) as [docs|e] eqn:Hl;
      [|discriminate].
    apply (Hdone None docs Hl). split; [congruence | discriminate].
Qed.


(** One turn of the loop, by the fate of the file. *)
Lemma convert_file_fate h root s filename :
  let p := os_path_join root filename in
  let s' := convert_file h root s filename in
  files_encountered s' = S (files_encountered s)
  /\ locked_names (out s') = locked_names (out s)
  /\ processed_files s'
     = (processed_files s + if bool_decide (fate_of h (out s) p = converted) then 1 else 0)%nat
  /\ failed_files s'
     = (failed_files s + if bool_decide (fate_of h (out s) p = failed) then 1 else 0)%nat
  /\ skipped_files s'
     = (skipped_files s + if bool_decide (fate_of h (out s) p = skipped) then 1 else 0)%nat
  /\ texts (out s')
     = match extract_text_from_file h p with
       | Some text =>
         if bool_decide (fate_of h (out s) p = converted)
         then <[output_name p := text]> (texts (out s)) else texts (out s)
       | None => texts (out s)
       end.
Proof.
  cbv zeta. unfold convert_file, fate_of, output_name. cbv zeta.
  destruct (extract_text_from_file h (os_path_join root filename)) as [text|];
    [destruct (bool_decide (_ ∈ locked_names (out s)))|];
    cbv beta iota;
    cbn [files_encountered processed_files failed_files skipped_files out texts
         locked_names];
    repeat split; repeat case_bool_decide; first [congruence | lia].
Qed.

Lemma convert_file_at h root s filename :
  convert_file h root s filename = convert_file h [] s (os_path_join root filename).
Proof. unfold convert_file. rewrite join_nil. reflexivity. Qed.

Lemma walk_fold h (walk : list (str * list str)) : forall s,
  foldl (fun s walked => foldl (convert_file h (fst walked)) s (snd walked)) s walk
  = foldl (convert_file h []) s
      (concat (map (fun walked => map (os_path_join (fst walked)) (snd walked)) walk)).
Proof.
  induction walk as [|[root files] walk IH]; intros s; [reflexivity|].
  cbn [foldl map concat fst snd]. rewrite foldl_app, IH. f_equal.
  clear IH. revert s. induction files as [|f files IHf]; intros s; [reflexivity|].
  cbn [foldl map]. rewrite IHf, convert_file_at. reflexivity.
Qed.

Lemma fate_of_locked h o o' p :
  locked_names o' = locked_names o -> fate_of h o' p = fate_of h o p.
Proof. intros Hl. unfold fate_of. rewrite Hl. reflexivity. Qed.

Lemma count_fate_cons h o x p paths :
  count_fate h o x (p :: paths)
  = ((if bool_decide (fate_of h o p = x) then 1 else 0) + count_fate h o x paths)%nat.
Proof.
  unfold count_fate. cbn [List.filter]. destruct (bool_decide _); reflexivity.
Qed.

(** What a run over the paths [paths] makes of the summary [s]. *)
Lemma run_over_paths h paths : forall s,
  let s' := foldl (convert_file h []) s paths in
  locked_names (out s') = locked_names (out s)
  /\ files_encountered s' = (files_encountered s + length paths)%nat
  /\ processed_files s' = (processed_files s + count_fate h (out s) converted paths)%nat
  /\ failed_files s' = (failed_files s + count_fate h (out s) failed paths)%nat
  /\ skipped_files s' = (skipped_files s + count_fate h (out s) skipped paths)%nat
  /\ (forall name, is_Some (texts (out s) !! name) ->
        is_Some (texts (out s') !! name))
  /\ (forall name text, texts (out s') !! name = Some text ->
        texts (out s) !! name = Some text
        \/ exists p, p ∈ paths /\ name = output_name p
                     /\ extract_text_from_file h p = Some text)
  /\ (forall p, p ∈ paths -> fate_of h (out s) p = converted ->
        is_Some (texts (out s') !! output_name p))
  /\ (size (texts (out s'))
      <= size (texts (out s)) + count_fate h (out s) converted paths)%nat.
Proof.
  induction paths as [|p paths IH]; intros s; cbv zeta.
  { cbn [foldl length]. unfold count_fate. cbn [List.filter length].
    rewrite !Nat.add_0_r. repeat split; auto.
    intros p []%elem_of_nil. }
  cbn [foldl length]. rewrite !count_fate_cons.
  pose proof (convert_file_fate h [] s p) as Hstep. cbv zeta in Hstep.
  rewrite join_nil in Hstep.
  set (s1 := convert_file h [] s p) in *.
  destruct Hstep as (He & Hl & Hp & Hf & Hs & Ht).
  specialize (IH s1). cbv zeta in IH.
  set (s' := foldl (convert_file h []) s1 paths) in *.
  destruct IH as (IHl & IHe & IHp & IHf & IHs & IHkeep & IHfrom & IHthere & IHsize).
  assert (Hsame : forall x, count_fate h (out s1) x paths = count_fate h (out s) x paths).
  { intros x. unfold count_fate. f_equal. apply filter_ext. intros q.
    rewrite (fate_of_locked h (out s) (out s1) q Hl). reflexivity. }
  rewrite !Hsame in *.
  assert (Hkeep1 : forall name, is_Some (texts (out s) !! name) ->
                     is_Some (texts (out s1) !! name)).
  { intros name Hn. rewrite Ht.
    destruct (extract_text_from_file h p) as [text|]; [|exact Hn].
    destruct (bool_decide (fate_of h (out s) p = converted)); [|exact Hn].
    destruct (decide (name = output_name p)) as [->|Hne].
    - rewrite lookup_insert_eq. eauto.
    - rewrite lookup_insert_ne by congruence. exact Hn. }
  split; [congruence|]. split; [lia|]. split; [lia|]. split; [lia|].
  split; [lia|]. split; [auto|]. split; [|split].
  - intros name text Hn. destruct (IHfrom name text Hn) as [H1 | (q & Hq & Hname & Hx)].
    + rewrite Ht in H1.
      destruct (extract_text_from_file h p) as [text'|] eqn:Hx; [|auto].
      destruct (bool_decide (fate_of h (out s) p = converted)); [|auto].
      destruct (decide (name = output_name p)) as [->|Hne].
      * rewrite lookup_insert_eq in H1. injection H1 as ->.
        right. exists p. split; [apply list_elem_of_here | auto].
      * rewrite lookup_insert_ne in H1 by congruence. auto.
    + right. exists q. split; [apply list_elem_of_further; exact Hq | auto].
  - intros q Hq Hfate. apply elem_of_cons in Hq as [-> | Hq].
    + apply IHkeep. rewrite Ht. unfold fate_of in Hfate.
      destruct (extract_text_from_file h p) as [text|] eqn:Hx; [|discriminate].
      unfold fate_of. rewrite Hx.
      destruct (bool_decide (output_name p ∈ locked_names (out s))); [discriminate|].
      rewrite bool_decide_eq_true_2 by reflexivity.
      rewrite lookup_insert_eq. eauto.
    + apply IHthere; [exact Hq|]. rewrite (fate_of_locked h (out s) (out s1) q Hl).
      exact Hfate.
  - assert (Hsize1 : (size (texts (out s1))
                      <= size (texts (out s))
                         + if bool_decide (fate_of h (out s) p = converted)
                           then 1 else 0)%nat).
    { rewrite Ht. destruct (extract_text_from_file h p) as [text|]; [|lia].
      destruct (bool_decide (fate_of h (out s) p = converted)); [|lia].
      destruct (texts (out s) !! output_name p) as [old|] eqn:Hold.
      - rewrite map_size_insert_Some by eauto. lia.
      - rewrite map_size_insert_None by exact Hold. lia. }
    lia.
Qed.



(** X22.  The summary of [convert_directory_to_txt] accounts for every file
    the walk meets: the files encountered are those of the directories
    entered, each is counted once as converted, failed or skipped according
    to its own fate, and the three counters add up to the total. *)
Theorem conversion_accounts_for_every_file h input_dir t o :
  exists s,
    convert_directory_to_txt h input_dir (Some t) o = Some s
    /\ files_encountered s = length (encountered input_dir t)
    /\ processed_files s = count_fate h o converted (encountered input_dir t)
    /\ failed_files s = count_fate h o failed (encountered input_dir t)
    /\ skipped_files s = count_fate h o skipped (encountered input_dir t)
    /\ (processed_files s + failed_files s + skipped_files s)%nat
       = files_encountered s.
Proof.
  eexists. split; [reflexivity|]. rewrite walk_fold. fold (encountered input_dir t).
  set (s0 := {| processed_files := 0; out := o |}).
  destruct (run_over_paths h (encountered input_dir t) s0)
    as (_ & He & Hp & Hf & Hs & _).
  cbn [s0 files_encountered processed_files failed_files skipped_files out] in *.
  rewrite He, Hp, Hf, Hs. repeat split.
  unfold count_fate. clear.
  induction (encountered input_dir t) as [|p paths IH]; [reflexivity|].
  cbn [List.filter length].
  destruct (fate_of h o p); repeat case_bool_decide; try congruence;
    cbn [length]; lia.
Qed.

(** X23.  The output directory after a conversion: no file that was there
    is lost; every text in it was there before or is the text extracted from
    a file the walk met, saved under the base name of that file followed by
    [.txt]; every converted file has its output; and the directory grows by
    at most one file per converted file (files of the same base name share
    one output, the directories of the input are not kept). *)
Theorem converted_texts_come_from_the_files h input_dir t o s :
  convert_directory_to_txt h input_dir (Some t) o = Some s ->
  locked_names (out s) = locked_names o
  /\ (forall name, is_Some (texts o !! name) -> is_Some (texts (out s) !! name))
  /\ (forall name text, texts (out s) !! name = Some text ->
        texts o !! name = Some text
        \/ exists p, p ∈ encountered input_dir t /\ name = output_name p
                     /\ extract_text_from_file h p = Some text)
  /\ (forall p, p ∈ encountered input_dir t -> fate_of h o p = converted ->
        is_Some (texts (out s) !! output_name p))
  /\ (size (texts (out s)) <= size (texts o) + processed_files s)%nat.
Proof.
  unfold convert_directory_to_txt. intros [= <-].
  rewrite walk_fold. fold (encountered input_dir t).
  set (s0 := {| processed_files := 0; out := o |}).
  destruct (run_over_paths h (encountered input_dir t) s0)
    as (Hl & _ & Hp & _ & _ & Hkeep & Hfrom & Hthere & Hsize).
  cbn [s0 processed_files out] in *.
  split; [exact Hl|]. split; [exact Hkeep|]. split; [exact Hfrom|].
  split; [exact Hthere|]. rewrite Hp. exact Hsize.
Qed.


End with_unicode.

Lemma extract_text_from_file_gates_witness :
  startswith (os_path_basename (lit "docs/notes/week1.md")) (lit ".") = false.
Proof.
  refine (proj1 (proj2 (extract_text_from_file_gates (H := ascii_text) one_page
                          (lit "docs/notes/week1.md")
                          (lit "text of docs/notes/week1.md") _))).
  vm_compute. reflexivity.
Defined.

Lemma week1_is_encountered :
  lit "docs/notes/week1.md" ∈ encountered (lit "docs") sample_tree.
Proof. apply list_elem_of_In. vm_compute. auto 10. Qed.

Lemma converted_texts_come_from_the_files_witness :
  exists s,
    convert_directory_to_txt (H := ascii_text) one_page (lit "docs") (Some sample_tree)
      {| texts := ∅; locked_names := ∅ |} = Some s
    /\ is_Some (texts (out s) !! lit "week1.md.txt").
Proof.
  eexists. split; [reflexivity|].
  refine (proj1 (proj2 (proj2 (proj2 (converted_texts_come_from_the_files
            (H := ascii_text) one_page (lit "docs") sample_tree
            {| texts := ∅; locked_names := ∅ |} _ eq_refl))))
            (lit "docs/notes/week1.md") week1_is_encountered _).
  vm_compute. reflexivity.
Defined.


End converter_laws.
